(** * asab.raft: the RPC runtime and the Raft role machine

    A shallow embedding of [asab/raft/rpc.py] and [asab/raft/service.py].

    - Python objects that are mutated in place ([RaftService], [Peer],
      [RPC], [ACall]) are records threaded through a small state monad;
      [Peer] objects are addressed by their index in [Peers], [ACall]
      objects live in a heap and the register holds references to them.
    - Calls into collaborators that are not part of the repository
      ([asab.Timer], the logger, the socket) are recorded in a trace of
      events, in program order.
    - Python exceptions are the error results of the monad; the state
      reached when the exception is raised is kept, as in Python. *)

From stdpp Require Import gmap strings list pretty.

Local Open Scope Z_scope.
Set Warnings "-register-all".

(** ** JSON values

    What [json.loads] returns and [json.dumps] accepts.  Python's [None] is
    JSON's [null] and is [JNull] throughout.  Numbers are the integers;
    no function modelled here computes with a float.  An object is the
    association list of the decoded [dict]. *)

Inductive json : Type :=
  | JNull
  | JBool (b : bool)
  | JNum (n : Z)
  | JStr (s : string)
  | JList (l : list json)
  | JObj (kv : list (string * json)).

(** [x is None] and [x is not None]. *)
Definition is_None (v : json) : bool :=
  match v with JNull => true | _ => false end.

(** [x == "literal"] for a decoded value [x]: only a [str] is equal to a
    [str]. *)
Definition eq_str (v : json) (lit : string) : bool :=
  match v with JStr s => bool_decide (s = lit) | _ => false end.

Fixpoint assoc (k : string) (kv : list (string * json)) : option json :=
  match kv with
  | [] => None
  | (k', v) :: kv' => if bool_decide (k' = k) then Some v else assoc k kv'
  end.

(** ** The monad: state, trace of events, exceptions *)

(** How the body of a loop ends: at its end, or by [break]. *)
Inductive ctl : Type := Next | Break.

Section Monad.
Variables St Ev : Type.

Record out (Ex A : Type) : Type :=
  Out { res : A + Ex; st : St; evs : list Ev }.

Definition M (Ex A : Type) : Type := St → out Ex A.

Definition ret {Ex A} (a : A) : M Ex A := λ s, Out Ex A (inl a) s [].

Definition bind {Ex A B} (m : M Ex A) (k : A → M Ex B) : M Ex B := λ s,
  match m s with
  | Out _ _ (inl a) s1 e1 =>
      match k a s1 with
      | Out _ _ r s2 e2 => Out Ex B r s2 (e1 ++ e2)
      end
  | Out _ _ (inr x) s1 e1 => Out Ex B (inr x) s1 e1
  end.

Definition raise {Ex A} (x : Ex) : M Ex A := λ s, Out Ex A (inr x) s [].

(** [try: m except e: h e]; the handler may raise in its turn. *)
Definition catch {Ex Ex' A} (m : M Ex A) (h : Ex → M Ex' A) : M Ex' A :=
  λ s,
  match m s with
  | Out _ _ (inl a) s1 e1 => Out Ex' A (inl a) s1 e1
  | Out _ _ (inr x) s1 e1 =>
      match h x s1 with
      | Out _ _ r s2 e2 => Out Ex' A r s2 (e1 ++ e2)
      end
  end.

Definition gets {Ex A} (f : St → A) : M Ex A :=
  λ s, Out Ex A (inl (f s)) s [].
Definition modify {Ex} (f : St → St) : M Ex unit :=
  λ s, Out Ex unit (inl tt) (f s) [].
Definition emit {Ex} (e : Ev) : M Ex unit :=
  λ s, Out Ex unit (inl tt) s [e].

(** [assert(b)] *)
Definition assert {Ex} (b : bool) (x : Ex) : M Ex unit :=
  if b then ret tt else raise x.

(** [if b: m] *)
Definition when {Ex} (b : bool) (m : M Ex unit) : M Ex unit :=
  if b then m else ret tt.

(** [for x in l: body x], where the body says whether it ran into
    [break]; [orelse] is the [else:] branch of the loop, run when the
    loop was not left by [break]. *)
Fixpoint for_else {Ex A} (l : list A) (body : A → M Ex ctl)
    (orelse : M Ex unit) : M Ex unit :=
  match l with
  | [] => orelse
  | x :: l' =>
      bind (body x) (λ c,
        match c with
        | Break => ret tt
        | Next => for_else l' body orelse
        end)
  end.

Definition for_each {Ex A} (l : list A) (body : A → M Ex unit)
  : M Ex unit :=
  for_else l (λ x, bind (body x) (λ _, ret Next)) (ret tt).
End Monad.

Arguments Out {St Ev Ex A} _ _ _.
Arguments res {St Ev Ex A} _.
Arguments st {St Ev Ex A} _.
Arguments evs {St Ev Ex A} _.
Arguments ret {St Ev Ex A} _ _.
Arguments bind {St Ev Ex A B} _ _ _.
Arguments raise {St Ev Ex A} _ _.
Arguments catch {St Ev Ex Ex' A} _ _ _.
Arguments gets {St Ev Ex A} _ _.
Arguments modify {St Ev Ex} _ _.
Arguments emit {St Ev Ex} _ _.
Arguments assert {St Ev Ex} _ _ _.
Arguments when {St Ev Ex} _ _ _.
Arguments for_else {St Ev Ex A} _ _ _ _.
Arguments for_each {St Ev Ex A} _ _ _.

(** [m] relates every state it is run in to the state it leaves, also
    when it raises. *)
Definition preserves {St Ev Ex A} (rel : relation St) (m : M St Ev Ex A)
  : Prop :=
  ∀ s, rel s (st (m s)).

Global Instance M_ret St Ev Ex : MRet (M St Ev Ex) := λ A, ret.
Global Instance M_bind St Ev Ex : MBind (M St Ev Ex) := λ A B k m, bind m k.

(** * The RPC runtime: [asab/raft/rpc.py] *)

Module RPC.

(** What [recvfrom] returns with a datagram and [sendto] takes. *)
Definition address : Type := string * Z.

(** A socket, by its [fileno()]. *)
Definition socket : Type := nat.

(** A reference to an [ACall] object. *)
Definition loc : Type := nat.

(** Exceptions: [RPCError], with its [obj], and every other subclass of
    [Exception], with [e.__class__.__name__] and [str(e)]. *)
Inductive exn : Type :=
  | RPCError (obj : json)
  | Exception (class_name text : string).

(** [RPCError.__init__] *)
Definition new_RPCError (code message data : json) : exn :=
  RPCError (JObj ([("code", code); ("message", message)]
                  ++ if is_None data then [] else [("data", data)])).

Definition AssertionError : exn := Exception "AssertionError" EmptyString.

(** [type(v).__name__] *)
Definition type_name (v : json) : string :=
  match v with
  | JNull => "NoneType"
  | JBool _ => "bool"
  | JNum _ => "int"
  | JStr _ => "str"
  | JList _ => "list"
  | JObj _ => "dict"
  end.

(** [d.get(k, dflt)] on a decoded [dict]. *)
Definition dict_get (kv : list (string * json)) (k : string) (dflt : json)
  : json :=
  default dflt (assoc k kv).

(** [ACall.Result] is [None], the result of the call, or one of the
    classes [asyncio.CancelledError] and [asyncio.TimeoutError]. *)
Inductive result : Type :=
  | Value (v : json)
  | CancelledError
  | TimeoutError.

Definition result_is_None (r : result) : bool :=
  match r with Value v => is_None v | _ => false end.

(** [class ACall]; [ReplyEvent] is whether the event is set; the clock
    and [TimeoutAt] are in milliseconds. *)
Record ACall : Type := {
  PeerAddress : address;
  RequestId : string;
  ReplyEvent : bool;
  Result : result;
  Error : json;
  TimeoutAt : Z;
}.

Global Instance ACall_inhabited : Inhabited ACall :=
  populate {| PeerAddress := (EmptyString, 0); RequestId := EmptyString;
              ReplyEvent := false;
              Result := Value JNull; Error := JNull; TimeoutAt := 0 |}.

Definition set_ReplyEvent (a : ACall) : ACall :=
  {| PeerAddress := PeerAddress a; RequestId := RequestId a;
     ReplyEvent := true; Result := Result a; Error := Error a;
     TimeoutAt := TimeoutAt a |}.

Definition set_Result (r : result) (a : ACall) : ACall :=
  {| PeerAddress := PeerAddress a; RequestId := RequestId a;
     ReplyEvent := ReplyEvent a; Result := r; Error := Error a;
     TimeoutAt := TimeoutAt a |}.

Definition set_Error (e : json) (a : ACall) : ACall :=
  {| PeerAddress := PeerAddress a; RequestId := RequestId a;
     ReplyEvent := ReplyEvent a; Result := Result a; Error := e;
     TimeoutAt := TimeoutAt a |}.

(** [ACall.wait], for the caller suspended in it: [None] while the event
    is not set, then what the caller is resumed with. *)
Definition wait (a : ACall) : option (json + exn) :=
  if ReplyEvent a then
    if negb (is_None (Error a)) then
      match Error a with
      | JObj kv =>
          Some (inr (new_RPCError (dict_get kv "code" JNull)
                                  (dict_get kv "message" JNull)
                                  (dict_get kv "data" JNull)))
      | e =>
          Some (inr (Exception "AttributeError"
                  ("'" +:+ type_name e +:+ "' object has no attribute 'get'")))
      end
    else
      match Result a with
      | CancelledError => Some (inr (Exception "CancelledError" EmptyString))
      | TimeoutError => Some (inr (Exception "TimeoutError" EmptyString))
      | Value v => Some (inl v)
      end
  else None.

(** A datagram as [on_recv] sees it after [decode] and [json.loads]: the
    decoded value, or the exception one of the two raises. *)
Inductive payload : Type :=
  | Undecodable (class_name text : string)
  | Decoded (v : json).

(** The text of the calls to the logger, with the values they format. *)
Inductive message : Type :=
  | Incorrect_RPC_message (request_dgram : payload)
  | Exception_during_RPC_request (peer_address : address) (e : exn)
  | Result_for_unknown_method (result_id : json)
  | Error_for_unknown_method (error result_id : json)
  | Too_high_number_of_acalls (n : nat)
  | RPC_method_already_bound (method : string).

Inductive event : Type :=
  | L_error (m : message)
  | L_exception (m : message)
  | L_warn (m : message)
  | sendto (s : socket) (dgram : json) (peer_address : address).

Section App.
(** The state of the object whose methods are bound as RPC methods. *)
Context {App : Type}.

(** A bound method of the application, called as
    [m(peer_address, params)]. *)
Definition bound_method : Type := address → json → App → (json + exn) * App.

(** [class RPC], with the heap of the [ACall] objects, the state of the
    application and the reading of the clock of the loop. *)
Record RPC : Type := {
  IdSeq : Z;
  RPCMethods : gmap string bound_method;
  ACallRegister : gmap string loc;
  PrimarySocket : socket;
  objects : gmap loc ACall;
  app : App;
  Loop_time : Z;
}.

Definition set_IdSeq (n : Z) (w : RPC) : RPC :=
  {| IdSeq := n; RPCMethods := RPCMethods w;
     ACallRegister := ACallRegister w; PrimarySocket := PrimarySocket w;
     objects := objects w; app := app w; Loop_time := Loop_time w |}.

Definition set_RPCMethods (m : gmap string bound_method) (w : RPC) : RPC :=
  {| IdSeq := IdSeq w; RPCMethods := m;
     ACallRegister := ACallRegister w; PrimarySocket := PrimarySocket w;
     objects := objects w; app := app w; Loop_time := Loop_time w |}.

Definition set_ACallRegister (r : gmap string loc) (w : RPC) : RPC :=
  {| IdSeq := IdSeq w; RPCMethods := RPCMethods w;
     ACallRegister := r; PrimarySocket := PrimarySocket w;
     objects := objects w; app := app w; Loop_time := Loop_time w |}.

Definition set_objects (o : gmap loc ACall) (w : RPC) : RPC :=
  {| IdSeq := IdSeq w; RPCMethods := RPCMethods w;
     ACallRegister := ACallRegister w; PrimarySocket := PrimarySocket w;
     objects := o; app := app w; Loop_time := Loop_time w |}.

Definition set_app (a : App) (w : RPC) : RPC :=
  {| IdSeq := IdSeq w; RPCMethods := RPCMethods w;
     ACallRegister := ACallRegister w; PrimarySocket := PrimarySocket w;
     objects := objects w; app := a; Loop_time := Loop_time w |}.

(** An assignment to a field of the [ACall] object at [l]. *)
Definition set_object (l : loc) (f : ACall → ACall) (w : RPC) : RPC :=
  set_objects (alter f l (objects w)) w.

Local Abbreviation Rpc := (M RPC event exn).

Definition object (l : loc) : Rpc ACall := gets (λ w, objects w !!! l).

(** [d.get(k)] and the lookup of [d.pop(k, None)] for a decoded key [k]
    in a dictionary whose keys are all [str]: a [list] or a [dict] is
    not hashable, and no other value is equal to a [str]. *)
Definition lookup_key {V} (d : gmap string V) (k : json) : Rpc (option V) :=
  match k with
  | JStr s => mret (d !! s)
  | JList _ | JObj _ =>
      raise (Exception "TypeError"
               ("unhashable type: '" +:+ type_name k +:+ "'"))
  | _ => mret None
  end.

(** [RPC.bind], given the attributes of [obj] that carry [_RCPMethod],
    in the order of [dir(obj)]. *)
Definition bind_methods (attrs : list (string * bound_method)) : Rpc unit :=
  for_each attrs (λ '(name, attr),
    methods ← gets RPCMethods;
    if bool_decide (is_Some (methods !! name)) then
      emit (L_error (RPC_method_already_bound name))
    else modify (set_RPCMethods (<[name := attr]> methods))).

(** [RPC.call]; the datagram is the request object before
    [json.dumps], and [sendto] is taken to send all of it. *)
Definition call (peer_address : address) (method : string) (params : json)
  : Rpc string :=
  n ← gets IdSeq;
  modify (set_IdSeq (n + 1));;
  let request_id := method +:+ ":" +:+ pretty n in
  let request_obj := JObj [("id", JStr request_id);
                           ("jsonrpc", JStr "2.0");
                           ("method", JStr method);
                           ("params", params)] in
  s ← gets PrimarySocket;
  emit (sendto s request_obj peer_address);;
  mret request_id.

(** [ACall.__init__], the first half of [RPC.acall]: the caller is then
    suspended in [wait] on the object returned. *)
Definition acall (peer_address : address) (method : string) (params : json)
    (timeout : option Z) : Rpc loc :=
  request_id ← call peer_address method params;
  l ← gets (λ w, fresh (dom (objects w)));
  now ← gets Loop_time;
  modify (λ w, set_objects (<[l :=
    {| PeerAddress := peer_address; RequestId := request_id;
       ReplyEvent := false; Result := Value JNull; Error := JNull;
       TimeoutAt := now + default 3000 timeout |}]> (objects w)) w);;
  modify (λ w, set_ACallRegister (<[request_id := l]> (ACallRegister w)) w);;
  mret l.

(** [ACall.send] *)
Definition send (l : loc) (peer_address : address) (result : json)
  : Rpc unit :=
  a ← object l;
  assert (bool_decide (PeerAddress a = peer_address)) AssertionError;;
  assert (result_is_None (Result a)) AssertionError;;
  assert (is_None (Error a)) AssertionError;;
  modify (set_object l (set_Result (Value result)));;
  modify (set_object l set_ReplyEvent).

(** [ACall.send_error] *)
Definition send_error (l : loc) (peer_address : address) (error : json)
  : Rpc unit :=
  a ← object l;
  assert (bool_decide (PeerAddress a = peer_address)) AssertionError;;
  assert (result_is_None (Result a)) AssertionError;;
  assert (is_None (Error a)) AssertionError;;
  modify (set_object l (set_Error error));;
  modify (set_object l set_ReplyEvent).

(** [ACall.cancel] *)
Definition cancel (l : loc) : Rpc unit :=
  a ← object l;
  when (negb (ReplyEvent a))
    (modify (set_object l (set_Result CancelledError));;
     modify (set_object l set_ReplyEvent)).

(** [ACall.timeout] *)
Definition timeout (l : loc) : Rpc unit :=
  a ← object l;
  when (negb (ReplyEvent a))
    (modify (set_object l (set_Result TimeoutError));;
     modify (set_object l set_ReplyEvent)).

(** [RPC.finalize] *)
Definition finalize : Rpc unit :=
  register ← gets ACallRegister;
  for_each (map_to_list register).*2 cancel.

(** [self.ACallRegister.pop(request_id)] *)
Definition pop (request_id : string) : Rpc loc :=
  register ← gets ACallRegister;
  match register !! request_id with
  | Some l => modify (set_ACallRegister (delete request_id register));;
              mret l
  | None => raise (Exception "KeyError" request_id)
  end.

(** [self.ACallRegister.pop(result_id, None)] *)
Definition pop_or_None (result_id : json) : Rpc (option loc) :=
  register ← gets ACallRegister;
  acall ← lookup_key register result_id;
  match acall, result_id with
  | Some l, JStr id =>
      modify (set_ACallRegister (delete id register));; mret (Some l)
  | _, _ => mret None
  end.

(** [RPC._on_tick] *)
Definition _on_tick : Rpc unit :=
  now ← gets Loop_time;
  register ← gets ACallRegister;
  heap ← gets objects;
  let filtered_acalls :=
    (λ l, RequestId (heap !!! l)) <$>
      filter (λ l, TimeoutAt (heap !!! l) ≤ now) (map_to_list register).*2 in
  for_each filtered_acalls (λ request_id,
    acall ← pop request_id;
    timeout acall);;
  register ← gets ACallRegister;
  when (bool_decide (30 < size register)%nat)
    (emit (L_warn (Too_high_number_of_acalls (size register)))).

(** [m(peer_address, params)] *)
Definition apply_method (m : bound_method) (peer_address : address)
    (params : json) : Rpc json :=
  λ w, let '(r, a) := m peer_address params (app w) in
       Out r (set_app a w) [].

Definition rpc_dispatch_method (peer_address : address) (method params : json)
  : Rpc json :=
  if eq_str method "Ping" then
    if is_None params then mret (JStr "Pong") else mret params
  else
    methods ← gets RPCMethods;
    m ← lookup_key methods method;
    match m with
    | Some m => apply_method m peer_address params
    | None =>
        raise (new_RPCError (JNum (-32601)) (JStr "Method not found") method)
    end.

Definition rpc_dispatch_result (peer_address : address)
    (result_id result : json) : Rpc unit :=
  acall ← pop_or_None result_id;
  match acall with
  | None => emit (L_error (Result_for_unknown_method result_id))
  | Some acall => send acall peer_address result
  end.

Definition rpc_dispatch_error (peer_address : address)
    (result_id error : json) : Rpc unit :=
  acall ← pop_or_None result_id;
  match acall with
  | None => emit (L_error (Error_for_unknown_method error result_id))
  | Some acall => send_error acall peer_address error
  end.

(** ** [RPC.on_recv]

    The two [except] clauses read the locals [propagate_error] and
    [request_obj].  An exception raised in the [try] block is therefore
    paired with the values the two locals have at that point:
    [propagate_error] is [False] until the frame is found to carry a
    method, and from then on it is [True] and [request_obj] is the
    decoded [dict]. *)
Inductive locals : Type :=
  | Not_propagating
  | Propagating (request_obj : list (string * json)).

Definition propagate_error (f : locals) : bool :=
  match f with Not_propagating => false | Propagating _ => true end.

(** How the [try] statement is left: by [return], by [continue], or at
    its end with [request_obj] and [result]. *)
Inductive completion : Type :=
  | Return_
  | Continue_
  | Completed (request_obj : list (string * json)) (result : json).

(** A statement of the [try] block, run with the locals at [f]. *)
Definition within {A} (f : locals) (m : Rpc A) : M RPC event (locals * exn) A :=
  catch m (λ e, raise (f, e)).

Definition try_block (request_dgram : payload) (peer_address : address)
  : M RPC event (locals * exn) completion :=
  request_obj ← within Not_propagating
    (match request_dgram with
     | Decoded v => mret v
     | Undecodable class_name text => raise (Exception class_name text)
     end);
  request_obj ← within Not_propagating
    (match request_obj with
     | JObj kv => mret kv
     | v => raise (Exception "AttributeError"
              ("'" +:+ type_name v +:+ "' object has no attribute 'get'"))
     end);
  if negb (eq_str (dict_get request_obj "jsonrpc" (JStr "?")) "2.0") then
    emit (L_error (Incorrect_RPC_message request_dgram));;
    mret Return_
  else
    let method := dict_get request_obj "method" JNull in
    if negb (is_None method) then
      result ← within (Propagating request_obj)
        (rpc_dispatch_method peer_address method
           (dict_get request_obj "params" JNull));
      mret (Completed request_obj result)
    else
      let result_id := dict_get request_obj "id" JNull in
      let result := dict_get request_obj "result" JNull in
      if negb (is_None result) then
        within Not_propagating
          (rpc_dispatch_result peer_address result_id result);;
        mret Continue_
      else
        let result_id := dict_get request_obj "id" JNull in
        let error := dict_get request_obj "error" JNull in
        if negb (is_None error) then
          within Not_propagating
            (rpc_dispatch_error peer_address result_id error);;
          mret Continue_
        else mret (Completed request_obj result).

(** The [except RPCError] and [except Exception] clauses. *)
Definition except_ (s : socket) (peer_address : address)
    (raised : locals * exn) : Rpc completion :=
  let '(f, e) := raised in
  match e with
  | RPCError obj =>
      match f with
      | Propagating request_obj =>
          emit (sendto s (JObj [("id", dict_get request_obj "id" JNull);
                                ("jsonrpc", JStr "2.0");
                                ("error", obj)]) peer_address)
      | Not_propagating => mret tt
      end;;
      mret Continue_
  | Exception class_name text =>
      emit (L_exception (Exception_during_RPC_request peer_address e));;
      match f with
      | Propagating request_obj =>
          emit (sendto s (JObj [("id", dict_get request_obj "id" JNull);
                                ("jsonrpc", JStr "2.0");
                                ("error", JObj [("code", JNum (-32603));
                                                ("message",
                                                 JStr (class_name +:+ ":" +:+ text))])])
                  peer_address)
      | Not_propagating => mret tt
      end;;
      mret Continue_
  end.

(** One turn of the [while True:] loop of [on_recv], for the datagram
    that [recvfrom] returned: [Break] when the turn ends in [return]. *)
Definition on_recv_turn (s : socket) (request_dgram : payload)
    (peer_address : address) : Rpc ctl :=
  c ← catch (try_block request_dgram peer_address) (except_ s peer_address);
  match c with
  | Return_ => mret Break
  | Continue_ => mret Next
  | Completed request_obj result =>
      when (negb (is_None result))
        (emit (sendto s (JObj [("id", dict_get request_obj "id" JNull);
                               ("jsonrpc", JStr "2.0");
                               ("result", result)]) peer_address));;
      mret Next
  end.

(** [RPC.on_recv(s)], with the datagrams waiting on the socket: the
    loop ends when [recvfrom] raises [BlockingIOError], or by [return];
    the datagrams not yet received are returned. *)
Fixpoint on_recv (s : socket) (pending : list (payload * address))
  : Rpc (list (payload * address)) :=
  match pending with
  | [] => mret []
  | (request_dgram, peer_address) :: pending' =>
      c ← on_recv_turn s request_dgram peer_address;
      match c with
      | Break => mret pending'
      | Next => on_recv s pending'
      end
  end.
End App.

Arguments bound_method : clear implicits.
Arguments RPC : clear implicits.

(** The inbound frame carries a method: [request_obj.get('method')] is
    not [None]. *)
Definition carries_method (request_dgram : payload) : bool :=
  match request_dgram with
  | Decoded (JObj kv) => negb (is_None (dict_get kv "method" JNull))
  | _ => false
  end.

(** The datagrams sent, in order. *)
Definition sent (trace : list event) : list json :=
  omap (λ e, match e with sendto _ dgram _ => Some dgram | _ => None end)
       trace.

(** An error frame: an object with the key ["error"]. *)
Definition is_error_frame (dgram : json) : bool :=
  match dgram with
  | JObj kv => bool_decide (is_Some (assoc "error" kv))
  | _ => false
  end.

(** The error frame the [except] clauses build for the exception [e]. *)
Definition error_frame (request_obj : list (string * json)) (e : exn) : json :=
  JObj [("id", dict_get request_obj "id" JNull);
        ("jsonrpc", JStr "2.0");
        ("error",
         match e with
         | RPCError obj => obj
         | Exception class_name text =>
             JObj [("code", JNum (-32603));
                   ("message", JStr (class_name +:+ ":" +:+ text))]
         end)].

(** The request object of a decoded frame. *)
Definition request_obj_of (request_dgram : payload) : list (string * json) :=
  match request_dgram with Decoded (JObj kv) => kv | _ => [] end.

(** What [ACall.cancel] does to the object. *)
Definition cancelled (a : ACall) : ACall :=
  if ReplyEvent a then a else set_ReplyEvent (set_Result CancelledError a).

(** ** A runtime with one bound method and one outstanding call *)
Definition peer_B : address := ("10.0.0.2", 7000).

(** A method that counts its calls in the state of the application. *)
Definition counting : bound_method nat :=
  λ _ _ n, (inl (JStr "ok"), S n).

Definition rpc0 : RPC nat :=
  {| IdSeq := 1; RPCMethods := {[ "RequestVote" := counting ]};
     ACallRegister := ∅; PrimarySocket := 3%nat; objects := ∅;
     app := 0%nat; Loop_time := 0 |}.

(** After [acall(peer_B, "RequestVote", None)]. *)
Definition rpc1 : RPC nat := st (acall peer_B "RequestVote" JNull None rpc0).

(** The object of that call. *)
Definition call1 : ACall :=
  {| PeerAddress := peer_B; RequestId := "RequestVote:1"; ReplyEvent := false;
     Result := Value JNull; Error := JNull; TimeoutAt := 3000 |}.

(** A request for a method that is not bound. *)
Definition Nope : list (string * json) :=
  [("jsonrpc", JStr "2.0"); ("id", JNum 7); ("method", JStr "Nope")].

Definition vote : json :=
  JObj [("term", JNum 1); ("voteGranted", JBool true);
        ("serverId", JStr "b:7000")].

(** The frame that carries [vote] as the result of that call. *)
Definition late_vote : list (string * json) :=
  [("jsonrpc", JStr "2.0"); ("id", JStr "RequestVote:1"); ("result", vote)].

(** ** Observations used in the statements about the runtime *)

(** What [ACall.timeout] does to the object. *)
Definition timed_out (a : ACall) : ACall :=
  if ReplyEvent a then a else set_ReplyEvent (set_Result TimeoutError a).

(** The string has a colon in it. *)
Fixpoint has_colon (s : string) : bool :=
  match s with
  | EmptyString => false
  | String c s' => bool_decide (String c EmptyString = ":") || has_colon s'
  end.

(** Every call of the register is an object of the heap, registered
    under its own [RequestId]. *)
Definition register_wf {App} (w : RPC App) : Prop :=
  ∀ id l, ACallRegister w !! id = Some l →
          ∃ a, objects w !! l = Some a ∧ RequestId a = id.

(** The frame is a [dict] whose ["jsonrpc"] is not ["2.0"]. *)
Definition not_2_0 (request_dgram : payload) : bool :=
  match request_dgram with
  | Decoded (JObj kv) => negb (eq_str (dict_get kv "jsonrpc" (JStr "?")) "2.0")
  | _ => false
  end.

(** The reply, if any, to a request that carries [id], for what the
    bound method returns or raises. *)
Definition reply_to (s : socket) (peer_address : address)
    (request_obj : list (string * json)) (outcome : json + exn) : list event :=
  match outcome with
  | inl result =>
      if is_None result then []
      else [sendto s (JObj [("id", dict_get request_obj "id" JNull);
                            ("jsonrpc", JStr "2.0");
                            ("result", result)]) peer_address]
  | inr (RPCError obj) => [sendto s (error_frame request_obj (RPCError obj)) peer_address]
  | inr (Exception class_name text) =>
      [L_exception (Exception_during_RPC_request peer_address
                      (Exception class_name text));
       sendto s (error_frame request_obj (Exception class_name text))
         peer_address]
  end.

(** The object [ACall.__init__] builds. *)
Definition pending_call (peer_address : address) (request_id : string)
    (deadline : Z) : ACall :=
  {| PeerAddress := peer_address; RequestId := request_id; ReplyEvent := false;
     Result := Value JNull; Error := JNull; TimeoutAt := deadline |}.

(** What the caller of [wait] is resumed with when the call is completed
    with [error]. *)
Definition raised_for (error : json) : exn :=
  match error with
  | JObj kv => new_RPCError (dict_get kv "code" JNull)
                 (dict_get kv "message" JNull) (dict_get kv "data" JNull)
  | e => Exception "AttributeError"
           ("'" +:+ type_name e +:+ "' object has no attribute 'get'")
  end.

(** From [w] to [w'] no call is added to the register, and every object
    of the heap is still there, with the [RequestId] it had. *)
Definition register_shrinks {App} (w w' : RPC App) : Prop :=
  (∀ id l, ACallRegister w' !! id = Some l → ACallRegister w !! id = Some l) ∧
  (∀ l a, objects w !! l = Some a →
          ∃ a', objects w' !! l = Some a' ∧ RequestId a' = RequestId a).

(** ** More frames for the runtime with one bound method *)

(** A request for the method that is bound. *)
Definition ask_vote : list (string * json) :=
  [("jsonrpc", JStr "2.0"); ("id", JNum 8); ("method", JStr "RequestVote")].

(** A frame of another version of the protocol. *)
Definition old_version : list (string * json) :=
  [("jsonrpc", JStr "1.0"); ("id", JNum 9); ("method", JStr "Ping")].

(** The frame that carries an error as the answer to the call of
    [rpc1]. *)
Definition late_error : list (string * json) :=
  [("jsonrpc", JStr "2.0"); ("id", JStr "RequestVote:1");
   ("error", JObj [("code", JNum (-32603));
                   ("message", JStr "KeyError:'term'")])].

(** The runtime [rpc1] when the clock of the loop shows [now]. *)
Definition rpc1_at (now : Z) : RPC nat :=
  {| IdSeq := IdSeq rpc1; RPCMethods := RPCMethods rpc1;
     ACallRegister := ACallRegister rpc1; PrimarySocket := PrimarySocket rpc1;
     objects := objects rpc1; app := app rpc1; Loop_time := now |}.

End RPC.

(** * The Raft role machine: [asab/raft/service.py] *)

Module Raft.

(** A peer address is the [(addr, port)] tuple of the configuration. *)
Definition address : Type := string * Z.

(** [self.State]: ['?'], ['F'], ['C'], ['L']. *)
Inductive role : Type := Unknown | Follower | Candidate | Leader.

Global Instance role_eq_dec : EqDecision role.
Proof. solve_decision. Defined.

(** [class Peer]; [Address] is [None] for the node itself. *)
Record Peer : Type := {
  Address : option address;
  Id : string;
  VoteGranted : bool;
}.

Global Instance Peer_inhabited : Inhabited Peer :=
  populate {| Address := None; Id := "?"; VoteGranted := false |}.

(** [Peer.__init__] *)
Definition new_Peer (address : option address) : Peer :=
  {| Address := address; Id := "?"; VoteGranted := false |}.

(** [Peer.set_id] *)
Definition set_id (id : string) (p : Peer) : Peer :=
  {| Address := Address p; Id := id; VoteGranted := VoteGranted p |}.

Definition set_VoteGranted (b : bool) (p : Peer) : Peer :=
  {| Address := Address p; Id := Id p; VoteGranted := b |}.

Record PersistentState_t : Type := {
  currentTerm : Z;
  votedFor : option string;
  log : list json;
}.

Record VolatileState_t : Type := {
  commitIndex : Z;
  lastApplied : Z;
}.

Record RaftService : Type := {
  State : role;
  PersistentState : PersistentState_t;
  VolatileState : VolatileState_t;
  Peers : list Peer;
  ServerId : string;
}.

Definition set_State (r : role) (s : RaftService) : RaftService :=
  {| State := r; PersistentState := PersistentState s;
     VolatileState := VolatileState s; Peers := Peers s;
     ServerId := ServerId s |}.

Definition set_currentTerm (t : Z) (s : RaftService) : RaftService :=
  {| State := State s;
     PersistentState :=
       {| currentTerm := t; votedFor := votedFor (PersistentState s);
          log := log (PersistentState s) |};
     VolatileState := VolatileState s; Peers := Peers s;
     ServerId := ServerId s |}.

Definition set_votedFor (v : option string) (s : RaftService) : RaftService :=
  {| State := State s;
     PersistentState :=
       {| currentTerm := currentTerm (PersistentState s); votedFor := v;
          log := log (PersistentState s) |};
     VolatileState := VolatileState s; Peers := Peers s;
     ServerId := ServerId s |}.

(** An assignment to a field of the peer object at index [i] of
    [self.Peers]. *)
Definition set_peer (i : nat) (f : Peer → Peer) (s : RaftService)
  : RaftService :=
  {| State := State s; PersistentState := PersistentState s;
     VolatileState := VolatileState s; Peers := alter f i (Peers s);
     ServerId := ServerId s |}.

(** The parameters and replies of the two RPCs, with the keys the
    handlers read and write. *)
Module AppendEntriesParams.
Record t : Type := {
  term : Z;
  leaderId : string;
  prevLogIndex : Z;
  prevLogTerm : Z;
  entries : list json;
  leaderCommitIndex : Z;
}.
End AppendEntriesParams.

Module AppendEntriesReply.
Record t : Type := { term : Z; success : bool; serverId : string }.
End AppendEntriesReply.

Module RequestVoteParams.
Record t : Type := {
  term : Z;
  candidateId : string;
  lastLogIndex : Z;
  lastLogTerm : Z;
}.
End RequestVoteParams.

Module RequestVoteReply.
Record t : Type := { term : Z; voteGranted : bool; serverId : string }.
End RequestVoteReply.

Inductive request : Type :=
  | AppendEntries (p : AppendEntriesParams.t)
  | RequestVote (p : RequestVoteParams.t).

(** The text of each [L.warn]/[L.warning] call, with the values it
    formats. *)
Inductive message : Type :=
  | Entering_follower (from : role)
  | Entering_candidate (from : role) (term : Z)
  | Entering_leader (from : role) (term : Z)
  | No_heartbeat_needed (state : role)
  | AppendEntries_for_an_old_term (term current : Z)
  | Peer_is_now_known_as (peer_address : address) (serverId : string)
  | Server_id_changed (old new : string) (peer_address : address)
  | RequestVote_result_for_higher_term (term current : Z)
  | Peer_already_voted (peer_address : address) (serverId : string)
  | Cannot_find_peer_entry (peer_address : address) (serverId : string)
  | Voted_for (candidateId : string).

Inductive timer : Type := ElectionTimer | HeartBeatTimer.

(** Calls into the collaborators.  The duration passed to a timer is left
    out: [get_election_timeout] draws it at random and [HeartBeatTimeout]
    is a constant of the configuration. *)
Inductive event : Type :=
  | Warn (m : message)
  | Timer_stop (t : timer)
  | Timer_start (t : timer)
  | Timer_restart (t : timer)
  | RPC_call (peer_address : option address) (r : request).

Inductive exn : Type :=
  | AssertionError (function : string).

Abbreviation R := (M RaftService event exn).

Definition get_currentTerm : R Z :=
  gets (λ s, currentTerm (PersistentState s)).

(** The peer object at index [i] of [self.Peers]. *)
Definition peer (i : nat) : R Peer := gets (λ s, Peers s !!! i).

(** [for peer in self.Peers]: the loop runs over the objects of the list,
    here over their indices. *)
Definition for_peers (body : nat → R unit) : R unit :=
  n ← gets (λ s, length (Peers s));
  for_each (seq 0 n) body.

Definition enter_state_follower : R unit :=
  state ← gets State;
  emit (Warn (Entering_follower state));;
  modify (set_State Follower);;
  emit (Timer_stop HeartBeatTimer);;
  emit (Timer_restart ElectionTimer).

Definition request_vote (i : nat) : R unit :=
  p ← peer i;
  term ← get_currentTerm;
  serverId ← gets ServerId;
  emit (RPC_call (Address p) (RequestVote
    {| RequestVoteParams.term := term;
       RequestVoteParams.candidateId := serverId;
       RequestVoteParams.lastLogIndex := 1;
       RequestVoteParams.lastLogTerm := 1 |})).

Definition append_entries (i : nat) : R unit :=
  state ← gets State;
  assert (bool_decide (state = Leader)) (AssertionError "append_entries");;
  p ← peer i;
  term ← get_currentTerm;
  serverId ← gets ServerId;
  commitIndex ← gets (λ s, commitIndex (VolatileState s));
  emit (RPC_call (Address p) (AppendEntries
    {| AppendEntriesParams.term := term;
       AppendEntriesParams.leaderId := serverId;
       AppendEntriesParams.prevLogIndex := 1;
       AppendEntriesParams.prevLogTerm := 1;
       AppendEntriesParams.entries := [];
       AppendEntriesParams.leaderCommitIndex := commitIndex |})).

Definition send_heartbeat : R unit :=
  for_peers (λ i,
    p ← peer i;
    when (bool_decide (Address p ≠ None)) (append_entries i)).

Definition enter_state_leader : R unit :=
  state ← gets State;
  term ← get_currentTerm;
  emit (Warn (Entering_leader state term));;
  modify (set_State Leader);;
  emit (Timer_stop ElectionTimer);;
  emit (Timer_restart HeartBeatTimer);;
  send_heartbeat.

(** The counting loop of [evalute_election]: [(voted_yes, voted_no)]. *)
Definition tally (peers : list Peer) : Z * Z :=
  fold_left (λ '(voted_yes, voted_no) p,
               if VoteGranted p then (voted_yes + 1, voted_no)
               else (voted_yes, voted_no + 1))
            peers (0, 0).

Definition evalute_election : R unit :=
  state ← gets State;
  assert (bool_decide (state = Candidate)) (AssertionError "evalute_election");;
  peers ← gets Peers;
  let '(voted_yes, voted_no) := tally peers in
  when (bool_decide (voted_yes > voted_no)) enter_state_leader.

Definition enter_state_candidate : R unit :=
  state ← gets State;
  term ← get_currentTerm;
  emit (Warn (Entering_candidate state (term + 1)));;
  modify (set_State Candidate);;
  modify (set_currentTerm (term + 1));;
  for_peers (λ i,
    p ← peer i;
    if bool_decide (Address p ≠ None) then
      modify (set_peer i (set_VoteGranted false));;
      request_vote i
    else
      modify (set_peer i (set_VoteGranted true)));;
  evalute_election;;
  state ← gets State;
  when (bool_decide (state = Candidate))
    (emit (Timer_restart ElectionTimer);;
     emit (Timer_restart HeartBeatTimer)).

Definition _on_election_timeout : R unit := enter_state_candidate.

Definition _on_heartbeat_timeout : R unit :=
  state ← gets State;
  (if bool_decide (state = Leader) then send_heartbeat
   else if bool_decide (state = Candidate) then
     for_peers (λ i,
       p ← peer i;
       when (negb (VoteGranted p)) (request_vote i))
   else emit (Warn (No_heartbeat_needed state)));;
  emit (Timer_start HeartBeatTimer).

Definition initialize : R unit := enter_state_follower.

Definition finalize : R unit :=
  emit (Timer_stop ElectionTimer);;
  emit (Timer_stop HeartBeatTimer).

Definition append_entries_server (params : AppendEntriesParams.t)
  : R AppendEntriesReply.t :=
  let term := AppendEntriesParams.term params in
  current ← get_currentTerm;
  serverId ← gets ServerId;
  let ret_ success :=
    {| AppendEntriesReply.term := current;
       AppendEntriesReply.success := success;
       AppendEntriesReply.serverId := serverId |} in
  if bool_decide (term >= current) then
    modify (set_currentTerm term);;
    state ← gets State;
    when (bool_decide (state ≠ Follower)) enter_state_follower;;
    emit (Timer_restart ElectionTimer);;
    ret (ret_ true)
  else
    emit (Warn (AppendEntries_for_an_old_term term current));;
    ret (ret_ false).

(** The part shared, textually, by [append_entries_result] and
    [request_vote_result]: what the reply teaches about the peer's id. *)
Definition learn_peer_id (i : nat) (peer_address : address)
    (serverId : string) : R unit :=
  p ← peer i;
  if bool_decide (Id p = "?") then
    emit (Warn (Peer_is_now_known_as peer_address serverId));;
    modify (set_peer i (set_id serverId))
  else
    when (bool_decide (Id p ≠ serverId))
      (emit (Warn (Server_id_changed (Id p) serverId peer_address))).

Definition append_entries_result (peer_address : address)
    (params : AppendEntriesReply.t) : R unit :=
  let serverId := AppendEntriesReply.serverId params in
  n ← gets (λ s, length (Peers s));
  for_else (seq 0 n) (λ i,
    p ← peer i;
    if bool_decide (Address p = Some peer_address) then
      learn_peer_id i peer_address serverId;;
      ret Break
    else ret Next)
    (ret tt).

Definition request_vote_result (peer_address : address)
    (params : RequestVoteReply.t) : R unit :=
  let term := RequestVoteReply.term params in
  let voteGranted := RequestVoteReply.voteGranted params in
  let serverId := RequestVoteReply.serverId params in
  current ← get_currentTerm;
  if bool_decide (term < current) then ret tt
  else if bool_decide (term > current) then
    emit (Warn (RequestVote_result_for_higher_term term current))
  else
    n ← gets (λ s, length (Peers s));
    for_else (seq 0 n) (λ i,
      p ← peer i;
      if bool_decide (Address p = Some peer_address) then
        learn_peer_id i peer_address serverId;;
        when voteGranted
          (p ← peer i;
           if negb (VoteGranted p) then
             modify (set_peer i (set_VoteGranted true));;
             evalute_election
           else emit (Warn (Peer_already_voted peer_address serverId)));;
        ret Break
      else ret Next)
      (emit (Warn (Cannot_find_peer_entry peer_address serverId))).

Definition request_vote_server (params : RequestVoteParams.t)
  : R RequestVoteReply.t :=
  let term := RequestVoteParams.term params in
  let candidateId := RequestVoteParams.candidateId params in
  serverId ← gets ServerId;
  let ret_ voteGranted :=
    {| RequestVoteReply.term := term;
       RequestVoteReply.voteGranted := voteGranted;
       RequestVoteReply.serverId := serverId |} in
  current ← get_currentTerm;
  if bool_decide (term < current) then ret (ret_ false)
  else
    voted ← gets (λ s, votedFor (PersistentState s));
    if bool_decide (voted ≠ None) && bool_decide (voted ≠ Some candidateId)
    then ret (ret_ false)
    else
      if bool_decide (voted = None) || bool_decide (voted ≠ Some candidateId)
      then
        modify (set_votedFor (Some candidateId));;
        emit (Warn (Voted_for candidateId));;
        state ← gets State;
        when (bool_decide (state = Candidate)) enter_state_follower;;
        ret (ret_ true)
      else ret (ret_ false).

(** ** Executions

    What drives the role machine: the service container ([initialize]),
    the two timers, and the RPC runtime with a request or with the reply
    to a call, as the decorators [RPCMethod] and [RPCResult] of the four
    handlers announce.  A handler is run on the decoded fields of the
    frame.  An exception raised by a handler ends that handler only: the
    state it left is the state the next one runs in. *)
Inductive operation : Type :=
  | Initialize
  | Election_timeout
  | Heartbeat_timeout
  | AppendEntries_request (params : AppendEntriesParams.t)
  | AppendEntries_reply (peer_address : address) (params : AppendEntriesReply.t)
  | RequestVote_request (params : RequestVoteParams.t)
  | RequestVote_reply (peer_address : address) (params : RequestVoteReply.t).

Definition perform (op : operation) : R unit :=
  match op with
  | Initialize => initialize
  | Election_timeout => _on_election_timeout
  | Heartbeat_timeout => _on_heartbeat_timeout
  | AppendEntries_request params => append_entries_server params;; mret tt
  | AppendEntries_reply peer_address params =>
      append_entries_result peer_address params
  | RequestVote_request params => request_vote_server params;; mret tt
  | RequestVote_reply peer_address params =>
      request_vote_result peer_address params
  end.

Definition run (ops : list operation) (s : RaftService) : RaftService :=
  foldl (λ s op, st (perform op s)) s ops.

(** [RaftService.__init__], for the peers of the configuration that are
    not the node itself. *)
Definition new_RaftService (ServerId : string) (peers : list address)
  : RaftService :=
  {| State := Unknown;
     PersistentState := {| currentTerm := 0; votedFor := None; log := [] |};
     VolatileState := {| commitIndex := 0; lastApplied := 0 |};
     Peers := set_id ServerId (new_Peer None) :: (new_Peer ∘ Some <$> peers);
     ServerId := ServerId |}.

(** [currentTerm] does not decrease from [s] to [s']. *)
Definition term_le (s s' : RaftService) : Prop :=
  currentTerm (PersistentState s) ≤ currentTerm (PersistentState s').

(** From [s] to [s'] nothing changes but [State] and the [VoteGranted]
    flags of the peers. *)
Definition same_data (s s' : RaftService) : Prop :=
  PersistentState s' = PersistentState s ∧
  VolatileState s' = VolatileState s ∧
  ServerId s' = ServerId s ∧
  Address <$> Peers s' = Address <$> Peers s ∧
  Id <$> Peers s' = Id <$> Peers s.

(** Scenario 3 of the specification (a follower at term 5 and a request
    of term 3), and a candidate at term 5 that receives a request of its
    own term. *)
Definition at_term_5 (state : role) : RaftService :=
  {| State := state;
     PersistentState := {| currentTerm := 5; votedFor := None; log := [] |};
     VolatileState := {| commitIndex := 0; lastApplied := 0 |};
     Peers := [set_id "n1:7000" (new_Peer None); new_Peer (Some ("10.0.0.2", 7000))];
     ServerId := "n1:7000" |}.

Definition AppendEntries_of_term (term : Z) : AppendEntriesParams.t :=
  {| AppendEntriesParams.term := term;
     AppendEntriesParams.leaderId := "n2:7000";
     AppendEntriesParams.prevLogIndex := 1;
     AppendEntriesParams.prevLogTerm := 1;
     AppendEntriesParams.entries := [];
     AppendEntriesParams.leaderCommitIndex := 0 |}.


(** ** A cluster of three nodes *)
Definition node_A : address := ("10.0.0.1", 7000).
Definition node_B : address := ("10.0.0.2", 7000).
Definition node_C : address := ("10.0.0.3", 7000).

Definition A0 : RaftService := new_RaftService "a:7000" [node_B; node_C].
Definition B0 : RaftService := new_RaftService "b:7000" [node_A; node_C].
Definition C0 : RaftService := new_RaftService "c:7000" [node_A; node_B].

(** The [RequestVote] calls made to [peer_address] in a trace. *)
Definition votes_requested (peer_address : address) (trace : list event)
  : list RequestVoteParams.t :=
  omap (λ e, match e with
             | RPC_call (Some a) (RequestVote p) =>
                 if bool_decide (a = peer_address) then Some p else None
             | _ => None
             end) trace.

Definition RequestVote_of (term : Z) (candidateId : string)
  : RequestVoteParams.t :=
  {| RequestVoteParams.term := term;
     RequestVoteParams.candidateId := candidateId;
     RequestVoteParams.lastLogIndex := 1;
     RequestVoteParams.lastLogTerm := 1 |}.

Definition vote_of (term : Z) (serverId : string) : RequestVoteReply.t :=
  {| RequestVoteReply.term := term;
     RequestVoteReply.voteGranted := true;
     RequestVoteReply.serverId := serverId |}.

(** A node that knows its peer at [node_B] as ["b:7000"]. *)
Definition knows_B : RaftService :=
  {| State := Leader;
     PersistentState := {| currentTerm := 1; votedFor := None; log := [] |};
     VolatileState := {| commitIndex := 0; lastApplied := 0 |};
     Peers := [set_id "a:7000" (new_Peer None);
               set_id "b:7000" (new_Peer (Some node_B))];
     ServerId := "a:7000" |}.

Definition success_of (serverId : string) : AppendEntriesReply.t :=
  {| AppendEntriesReply.term := 1;
     AppendEntriesReply.success := true;
     AppendEntriesReply.serverId := serverId |}.

(** ** Observations used in the statements about the role machine *)

Definition set_Peers (peers : list Peer) (s : RaftService) : RaftService :=
  {| State := State s; PersistentState := PersistentState s;
     VolatileState := VolatileState s; Peers := peers;
     ServerId := ServerId s |}.

(** What the loop of [enter_state_candidate] does to a peer. *)
Definition reset_votes (p : Peer) : Peer :=
  set_VoteGranted (bool_decide (Address p = None)) p.

(** The number of peers whose [VoteGranted] is set. *)
Definition granted (peers : list Peer) : nat :=
  length (filter (λ p, VoteGranted p = true) peers).

(** The number of peers that stand for the node itself. *)
Definition local (peers : list Peer) : nat :=
  length (filter (λ p, Address p = None) peers).

(** The request [request_vote] sends in the state [s]. *)
Definition vote_request (s : RaftService) : request :=
  RequestVote {| RequestVoteParams.term := currentTerm (PersistentState s);
                 RequestVoteParams.candidateId := ServerId s;
                 RequestVoteParams.lastLogIndex := 1;
                 RequestVoteParams.lastLogTerm := 1 |}.

(** The request [append_entries] sends in the state [s]. *)
Definition heartbeat (s : RaftService) : request :=
  AppendEntries {| AppendEntriesParams.term := currentTerm (PersistentState s);
                   AppendEntriesParams.leaderId := ServerId s;
                   AppendEntriesParams.prevLogIndex := 1;
                   AppendEntriesParams.prevLogTerm := 1;
                   AppendEntriesParams.entries := [];
                   AppendEntriesParams.leaderCommitIndex :=
                     commitIndex (VolatileState s) |}.

(** A call with the request [r] to each of [peers], in order. *)
Definition call_each (r : request) (peers : list Peer) : list event :=
  (λ p, RPC_call (Address p) r) <$> peers.

(** The peers that are not the node itself. *)
Definition remote (peers : list Peer) : list Peer :=
  filter (λ p, Address p ≠ None) peers.

(** From [s] to [s'], over the life of the node: the peers keep their
    addresses, the log, the volatile state and the id of the node are the
    same, a vote that was recorded is still recorded, and a peer whose id
    was known has the same id. *)
Definition lifetime (s s' : RaftService) : Prop :=
  Address <$> Peers s' = Address <$> Peers s ∧
  ServerId s' = ServerId s ∧
  log (PersistentState s') = log (PersistentState s) ∧
  VolatileState s' = VolatileState s ∧
  (∀ c, votedFor (PersistentState s) = Some c →
        votedFor (PersistentState s') = Some c) ∧
  (∀ i p, Peers s !! i = Some p → Id p ≠ "?" →
          Id <$> Peers s' !! i = Some (Id p)).

(** The peer entry the loops of [append_entries_result] and
    [request_vote_result] stop at: the first one with the address the
    reply came from, and its index. *)
Definition find_peer (peer_address : address) (peers : list Peer)
  : option (nat * Peer) :=
  list_find (λ p, Address p = Some peer_address) peers.

(** What a reply with [serverId] teaches about the peer [p] at index [i]:
    the state after [learn_peer_id], and what it logs. *)
Definition learnt (i : nat) (p : Peer) (serverId : string) (s : RaftService)
  : RaftService :=
  if bool_decide (Id p = "?") then set_peer i (set_id serverId) s else s.

Definition learnt_log (p : Peer) (peer_address : address) (serverId : string)
  : list event :=
  if bool_decide (Id p = "?")
  then [Warn (Peer_is_now_known_as peer_address serverId)]
  else if bool_decide (Id p = serverId) then []
       else [Warn (Server_id_changed (Id p) serverId peer_address)].

(** [m] returns in every state: it never raises. *)
Definition never_raises {A} (m : R A) : Prop :=
  ∀ s, ∃ a, res (m s) = inl a.

(** The node A after its first election timeout, and the node B after it
    has voted for A. *)
Definition A1 : RaftService := run [Initialize; Election_timeout] A0.

Definition B1 : RaftService :=
  st (request_vote_server (RequestVote_of 1 "a:7000") (run [Initialize] B0)).

End Raft.

(** * Facts about the monad *)

Section Monad_facts.
Context {St Ev Ex : Type}.
Implicit Types s : St.

Lemma bind_ret {A B} (a : A) (k : A → M St Ev Ex B) s :
  (mret a ≫= k) s = k a s.
Proof. cbv. by destruct (k a s). Qed.

Lemma bind_gets {A B} (f : St → A) (k : A → M St Ev Ex B) s :
  (gets f ≫= k) s = k (f s) s.
Proof. cbv. by destruct (k (f s) s). Qed.

Lemma bind_modify {B} (f : St → St) (k : unit → M St Ev Ex B) s :
  (modify f ≫= k) s = k tt (f s).
Proof. cbv. by destruct (k tt (f s)). Qed.

Lemma bind_emit {B} (e : Ev) (k : unit → M St Ev Ex B) s :
  (emit e ≫= k) s = Out (res (k tt s)) (st (k tt s)) (e :: evs (k tt s)).
Proof. cbv. by destruct (k tt s). Qed.

Lemma bind_raise {A B} (x : Ex) (k : A → M St Ev Ex B) s :
  (raise x ≫= k) s = Out (inr x) s [].
Proof. reflexivity. Qed.

Lemma st_bind {A B} (m : M St Ev Ex A) (k : A → M St Ev Ex B) s :
  st ((m ≫= k) s) =
  match res (m s) with
  | inl a => st (k a (st (m s)))
  | inr _ => st (m s)
  end.
Proof.
  unfold mbind, M_bind, bind. destruct (m s) as [[a|x] s1 e1]; simpl; [|done].
  by destruct (k a s1).
Qed.

Section Preserves.
Context (rel : relation St) `{!PreOrder rel}.

Lemma preserves_ret {A} (a : A) : preserves rel (mret a : M St Ev Ex A).
Proof. intros s. reflexivity. Qed.

Lemma preserves_raise {A} (x : Ex) : preserves rel (raise x : M St Ev Ex A).
Proof. intros s. reflexivity. Qed.

Lemma preserves_gets {A} (f : St → A) : preserves rel (gets f : M St Ev Ex A).
Proof. intros s. reflexivity. Qed.

Lemma preserves_emit (e : Ev) : preserves rel (emit e : M St Ev Ex unit).
Proof. intros s. reflexivity. Qed.

Lemma preserves_modify (f : St → St) :
  (∀ s, rel s (f s)) → preserves rel (modify f : M St Ev Ex unit).
Proof. intros H s. apply H. Qed.

Lemma preserves_assert (b : bool) (x : Ex) :
  preserves rel (assert b x : M St Ev Ex unit).
Proof. destruct b; intros s; reflexivity. Qed.

Lemma preserves_bind {A B} (m : M St Ev Ex A) (k : A → M St Ev Ex B) :
  preserves rel m → (∀ a, preserves rel (k a)) → preserves rel (m ≫= k).
Proof.
  intros Hm Hk s. rewrite st_bind. specialize (Hm s).
  destruct (res (m s)) as [a|x]; [|done].
  etrans; [exact Hm | apply Hk].
Qed.

Lemma preserves_when (b : bool) (m : M St Ev Ex unit) :
  preserves rel m → preserves rel (when b m).
Proof. destruct b; [done | intros _ s; reflexivity]. Qed.

Lemma preserves_for_else {A} (l : list A) (body : A → M St Ev Ex ctl)
    (orelse : M St Ev Ex unit) :
  (∀ x, preserves rel (body x)) → preserves rel orelse →
  preserves rel (for_else l body orelse).
Proof.
  intros Hbody Horelse. induction l as [|x l IH]; simpl; [done|].
  apply (preserves_bind (body x)); [done|].
  intros [|]; [done | apply preserves_ret].
Qed.

Lemma preserves_for_each {A} (l : list A) (body : A → M St Ev Ex unit) :
  (∀ x, preserves rel (body x)) → preserves rel (for_each l body).
Proof.
  intros Hbody. apply preserves_for_else; [|apply preserves_ret].
  intros x. apply (preserves_bind (body x)); [done|].
  intros _. apply preserves_ret.
Qed.
End Preserves.

Lemma preserves_weaken {A} (rel rel' : relation St) (m : M St Ev Ex A) :
  (∀ s s', rel s s' → rel' s s') → preserves rel m → preserves rel' m.
Proof. intros H Hm s. apply H, Hm. Qed.
End Monad_facts.

Section Loops.
Context {St Ev Ex A : Type}.
Implicit Types (body : A → M St Ev Ex ctl) (orelse : M St Ev Ex unit).

Lemma for_else_skip l body orelse (s : St) :
  (∀ x, x ∈ l → body x s = Out (inl Next) s []) →
  for_else l body orelse s = orelse s.
Proof.
  induction l as [|x l IH]; intros Hskip; simpl; [done|].
  unfold bind. rewrite (Hskip x) by left. rewrite IH.
  - by destruct (orelse s).
  - intros y Hy. apply Hskip. by right.
Qed.

Lemma for_else_break l1 x l2 body orelse (s s' : St) ev :
  (∀ y, y ∈ l1 → body y s = Out (inl Next) s []) →
  body x s = Out (inl Break) s' ev →
  for_else (l1 ++ x :: l2) body orelse s = Out (inl tt) s' ev.
Proof.
  induction l1 as [|y l1 IH]; intros Hskip Hx; simpl.
  - unfold bind. rewrite Hx. simpl. by rewrite app_nil_r.
  - unfold bind. rewrite (Hskip y) by left. rewrite IH; [done| |done].
    intros z Hz. apply Hskip. by right.
Qed.
End Loops.

(** * The RPC runtime *)

Module RPC_facts.
Import RPC.

Section App.
Context {App : Type}.
Implicit Types (w : RPC App) (peer_address : address) (a : ACall).

Lemma eq_str_true s : eq_str (JStr s) s = true.
Proof. by apply bool_decide_eq_true_2. Qed.

Lemma eq_str_JStr (v : json) s : eq_str v s = true → v = JStr s.
Proof.
  destruct v; simpl; try done. intros H. by apply bool_decide_eq_true_1 in H as ->.
Qed.

Lemma set_objects_id w : set_objects (objects w) w = w.
Proof. by destruct w. Qed.

(** C7. The built-in [Ping]: ["Pong"] for [params] that is [None], and
    any other [params], the empty list among them, as it is; the state is
    not touched. *)
Theorem Ping_returns w peer_address :
  rpc_dispatch_method peer_address (JStr "Ping") JNull w
    = Out (inl (JStr "Pong")) w [] ∧
  (∀ v, v ≠ JNull →
     rpc_dispatch_method peer_address (JStr "Ping") v w = Out (inl v) w []) ∧
  rpc_dispatch_method peer_address (JStr "Ping") (JList []) w
    = Out (inl (JList [])) w [].
Proof.
  unfold rpc_dispatch_method. rewrite eq_str_true. split_and!; [done| |done].
  intros v Hv. by destruct v.
Qed.

Lemma rpc_dispatch_method_events w peer_address method params :
  evs (rpc_dispatch_method peer_address method params w) = [].
Proof.
  unfold rpc_dispatch_method. destruct (eq_str method "Ping").
  { by destruct (is_None params). }
  rewrite bind_gets. unfold lookup_key, apply_method.
  destruct method as [| | |name| |]; try (rewrite bind_ret); try done.
  destruct (RPCMethods w !! name) as [m|]; [|done].
  by destruct (m peer_address params (app w)).
Qed.

Lemma rpc_dispatch_method_not_found w peer_address name params :
  name ≠ "Ping" → RPCMethods w !! name = None →
  rpc_dispatch_method peer_address (JStr name) params w =
  Out (inr (RPCError (JObj [("code", JNum (-32601));
                            ("message", JStr "Method not found");
                            ("data", JStr name)]))) w [].
Proof.
  intros Hname Hnone. unfold rpc_dispatch_method, eq_str.
  rewrite bool_decide_eq_false_2 by done.
  rewrite bind_gets. unfold lookup_key. rewrite bind_ret, Hnone. done.
Qed.

(** Unfolding the combinators down to the case analysis on what the
    calls return. *)
Ltac unfold_monad :=
  unfold within, catch, assert, when, mbind, M_bind, bind, mret, M_ret, ret,
    raise, gets, modify, emit in *.

Lemma send_run w l peer_address result :
  let a := objects w !!! l in
  send l peer_address result w =
  if bool_decide (PeerAddress a = peer_address) && result_is_None (Result a)
     && is_None (Error a)
  then Out (inl tt)
           (set_object l set_ReplyEvent
              (set_object l (set_Result (Value result)) w)) []
  else Out (inr AssertionError) w [].
Proof.
  intros a. unfold send, object. rewrite bind_gets. fold a.
  destruct (bool_decide _); [|done].
  destruct (result_is_None _); [|done].
  by destruct (is_None _).
Qed.

Lemma send_error_run w l peer_address error :
  let a := objects w !!! l in
  send_error l peer_address error w =
  if bool_decide (PeerAddress a = peer_address) && result_is_None (Result a)
     && is_None (Error a)
  then Out (inl tt)
           (set_object l set_ReplyEvent (set_object l (set_Error error) w)) []
  else Out (inr AssertionError) w [].
Proof.
  intros a. unfold send_error, object. rewrite bind_gets. fold a.
  destruct (bool_decide _); [|done].
  destruct (result_is_None _); [|done].
  by destruct (is_None _).
Qed.

Lemma pop_or_None_hit w id l :
  ACallRegister w !! id = Some l →
  pop_or_None (JStr id) w =
  Out (inl (Some l)) (set_ACallRegister (delete id (ACallRegister w)) w) [].
Proof.
  intros H. unfold pop_or_None, lookup_key. rewrite bind_gets, bind_ret, H.
  by rewrite bind_modify.
Qed.

Lemma pop_or_None_miss w id :
  ACallRegister w !! id = None → pop_or_None (JStr id) w = Out (inl None) w [].
Proof.
  intros H. unfold pop_or_None, lookup_key. by rewrite bind_gets, bind_ret, H.
Qed.

(** A result for an id that is not in the register is logged, and that
    is all. *)
Lemma rpc_dispatch_result_unknown w peer_address id result :
  ACallRegister w !! id = None →
  rpc_dispatch_result peer_address (JStr id) result w =
  Out (inl tt) w [L_error (Result_for_unknown_method (JStr id))].
Proof.
  intros H. unfold rpc_dispatch_result, mbind, M_bind, bind.
  by rewrite pop_or_None_miss.
Qed.

Lemma pop_or_None_events w result_id : evs (pop_or_None result_id w) = [].
Proof.
  unfold pop_or_None, lookup_key. rewrite bind_gets.
  destruct result_id as [| | |id| |]; try done.
  rewrite bind_ret. by destruct (ACallRegister w !! id).
Qed.

Lemma rpc_dispatch_result_sends_nothing w peer_address result_id result :
  sent (evs (rpc_dispatch_result peer_address result_id result w)) = [].
Proof.
  unfold rpc_dispatch_result, mbind, M_bind, bind.
  pose proof (pop_or_None_events w result_id) as Hpop.
  destruct (pop_or_None result_id w) as [[[l|]|x] w1 e1]; simpl in *; subst;
    [|done..].
  rewrite send_run. by destruct (_ && _).
Qed.

Lemma rpc_dispatch_error_sends_nothing w peer_address result_id error :
  sent (evs (rpc_dispatch_error peer_address result_id error w)) = [].
Proof.
  unfold rpc_dispatch_error, mbind, M_bind, bind.
  pose proof (pop_or_None_events w result_id) as Hpop.
  destruct (pop_or_None result_id w) as [[[l|]|x] w1 e1]; simpl in *; subst;
    [|done..].
  rewrite send_error_run. by destruct (_ && _).
Qed.

Lemma bind_within_ret {A B} (f : locals) (a : A)
    (k : A → M (RPC App) event (locals * exn) B) w :
  (within f (mret a) ≫= k) w = k a w.
Proof. unfold_monad. simpl. by destruct (k a w). Qed.

(** When the [try] block raises, [propagate_error] is set if and only if
    the frame carries a method, and nothing has been sent. *)
Lemma try_block_raises w request_dgram peer_address f e w' ev :
  try_block request_dgram peer_address w = Out (inr (f, e)) w' ev →
  f = (if carries_method request_dgram
       then Propagating (request_obj_of request_dgram)
       else Not_propagating) ∧
  sent ev = [].
Proof.
  unfold try_block. destruct request_dgram as [c t|v].
  { intros [= <- <- <- <-]. done. }
  rewrite bind_within_ret.
  destruct v as [| | | | |kv]; try (intros [= <- <- <- <-]; done).
  rewrite bind_within_ret.
  simpl carries_method. simpl request_obj_of.
  destruct (negb (eq_str _ "2.0")); [done|].
  destruct (negb (is_None (dict_get kv "method" JNull))).
  - pose proof (rpc_dispatch_method_events w peer_address
      (dict_get kv "method" JNull) (dict_get kv "params" JNull)) as Hev.
    unfold_monad.
    destruct (rpc_dispatch_method _ _ _ w) as [[r|x] w1 e1]; simpl in *;
      intros [= <- <- <- <-]; by subst.
  - destruct (negb (is_None (dict_get kv "result" JNull))).
    + pose proof (rpc_dispatch_result_sends_nothing w peer_address
        (dict_get kv "id" JNull) (dict_get kv "result" JNull)) as Hev.
      unfold_monad.
      destruct (rpc_dispatch_result _ _ _ w) as [[r|x] w1 e1]; simpl in *;
        intros [= <- <- <- <-]; by rewrite app_nil_r.
    + destruct (negb (is_None (dict_get kv "error" JNull))); [|done].
      pose proof (rpc_dispatch_error_sends_nothing w peer_address
        (dict_get kv "id" JNull) (dict_get kv "error" JNull)) as Hev.
      unfold_monad.
      destruct (rpc_dispatch_error _ _ _ w) as [[r|x] w1 e1]; simpl in *;
        intros [= <- <- <- <-]; by rewrite app_nil_r.
Qed.

Lemma sent_app (l1 l2 : list event) : sent (l1 ++ l2) = sent l1 ++ sent l2.
Proof. apply omap_app. Qed.

(** A turn of [on_recv] in which the [try] block raises. *)
Lemma on_recv_turn_raises w s request_dgram peer_address f e w' ev :
  try_block request_dgram peer_address w = Out (inr (f, e)) w' ev →
  on_recv_turn s request_dgram peer_address w =
  Out (inl Next) w'
      (ev ++
       match e with
       | RPCError _ => []
       | Exception _ _ =>
           [L_exception (Exception_during_RPC_request peer_address e)]
       end ++
       match f with
       | Not_propagating => []
       | Propagating request_obj =>
           [sendto s (error_frame request_obj e) peer_address]
       end).
Proof.
  intros Htry. unfold on_recv_turn, except_. unfold_monad.
  rewrite Htry. destruct e as [obj|c t], f as [|kv]; simpl;
    by rewrite ?app_nil_r.
Qed.

(** A turn of [on_recv] for a request that [rpc_dispatch_method] answers
    with a value that is not [None]: the value is sent as the result. *)
Lemma on_recv_turn_returns w s peer_address kv result w' :
  dict_get kv "jsonrpc" (JStr "?") = JStr "2.0" →
  is_None (dict_get kv "method" JNull) = false →
  rpc_dispatch_method peer_address (dict_get kv "method" JNull)
    (dict_get kv "params" JNull) w = Out (inl result) w' [] →
  is_None result = false →
  on_recv_turn s (Decoded (JObj kv)) peer_address w =
  Out (inl Next) w'
      [sendto s (JObj [("id", dict_get kv "id" JNull);
                       ("jsonrpc", JStr "2.0");
                       ("result", result)]) peer_address].
Proof.
  intros Hrpc Hmethod Hreturn Hresult.
  unfold on_recv_turn, try_block.
  unfold mbind at 1. unfold M_bind at 1. unfold bind at 1. unfold catch at 1.
  rewrite !bind_within_ret. cbv zeta.
  rewrite Hrpc, eq_str_true, Hmethod. unfold_monad.
  cbv beta iota delta [negb]. rewrite Hreturn. simpl.
  by rewrite Hresult.
Qed.

(** The reply to a [Ping]: ["Pong"], or the [params] of the request. *)
Lemma on_recv_turn_Ping w s peer_address kv :
  dict_get kv "jsonrpc" (JStr "?") = JStr "2.0" →
  dict_get kv "method" JNull = JStr "Ping" →
  on_recv_turn s (Decoded (JObj kv)) peer_address w =
  Out (inl Next) w
      [sendto s (JObj [("id", dict_get kv "id" JNull);
                       ("jsonrpc", JStr "2.0");
                       ("result",
                        match dict_get kv "params" JNull with
                        | JNull => JStr "Pong"
                        | params => params
                        end)]) peer_address].
Proof.
  intros Hrpc Hmethod. apply on_recv_turn_returns; [done | by rewrite Hmethod | |].
  - rewrite Hmethod. unfold rpc_dispatch_method. rewrite eq_str_true.
    by destruct (dict_get kv "params" JNull).
  - by destruct (dict_get kv "params" JNull).
Qed.

(** C6. A request for a method that is not [Ping] and is not bound is
    answered with the error [-32601], ["Method not found"], whose [data]
    is the name of the method.  And whenever the [try] block of [on_recv]
    ends in one of its [except] clauses, one error frame is sent if the
    inbound frame carried a method, and nothing is sent if it did not. *)
Theorem method_not_found_and_error_replies :
  (∀ w s peer_address kv name,
     dict_get kv "jsonrpc" (JStr "?") = JStr "2.0" →
     dict_get kv "method" JNull = JStr name →
     name ≠ "Ping" →
     RPCMethods w !! name = None →
     on_recv_turn s (Decoded (JObj kv)) peer_address w =
     Out (inl Next) w
       [sendto s
          (JObj [("id", dict_get kv "id" JNull);
                 ("jsonrpc", JStr "2.0");
                 ("error", JObj [("code", JNum (-32601));
                                 ("message", JStr "Method not found");
                                 ("data", JStr name)])])
          peer_address]) ∧
  (∀ w s request_dgram peer_address f e w' ev,
     try_block request_dgram peer_address w = Out (inr (f, e)) w' ev →
     let o := on_recv_turn s request_dgram peer_address w in
     propagate_error f = carries_method request_dgram ∧
     sent (evs o) =
       (if carries_method request_dgram
        then [error_frame (request_obj_of request_dgram) e]
        else []) ∧
     ((∃ dgram, dgram ∈ sent (evs o) ∧ is_error_frame dgram = true)
      ↔ carries_method request_dgram = true)).
Proof.
  split.
  - intros w s peer_address kv name Hrpc Hmethod Hname Hnone.
    rewrite (on_recv_turn_raises w s _ _ (Propagating kv)
      (RPCError (JObj [("code", JNum (-32601));
                       ("message", JStr "Method not found");
                       ("data", JStr name)])) w []); [done|].
    unfold try_block. rewrite !bind_within_ret. cbv zeta.
    rewrite Hrpc, eq_str_true, Hmethod. unfold_monad.
    cbv beta iota delta [negb is_None].
    by rewrite rpc_dispatch_method_not_found.
  - intros w s request_dgram peer_address f e w' ev Htry o.
    destruct (try_block_raises _ _ _ _ _ _ _ Htry) as [Hf Hev].
    assert (Hsent : sent (evs o) =
      if carries_method request_dgram
      then [error_frame (request_obj_of request_dgram) e] else []).
    { subst o. rewrite (on_recv_turn_raises w s _ _ _ _ _ _ Htry). simpl.
      rewrite !sent_app, Hev, Hf.
      by destruct e, (carries_method request_dgram). }
    split_and!; [subst f; by destruct (carries_method _) | done |].
    rewrite Hsent. destruct (carries_method request_dgram).
    + split; [done|]. intros _. eexists. split; [by left|]. done.
    + split; [|done]. intros (dgram & Hin & _). by apply elem_of_nil in Hin.
Qed.

Lemma lookup_total_Some (h : gmap loc ACall) l a :
  h !! l = Some a → h !!! l = a.
Proof. intros H. by rewrite lookup_total_alt, H. Qed.

Lemma alter_alter_Some (f g : ACall → ACall) (h : gmap loc ACall) l a :
  h !! l = Some a → alter f l (alter g l h) = <[l := f (g a)]> h.
Proof.
  intros Hl. apply map_eq. intros l'.
  destruct (decide (l = l')) as [<-|Hne].
  - by rewrite !lookup_alter_eq, lookup_insert_eq, Hl.
  - by rewrite !lookup_alter_ne, lookup_insert_ne.
Qed.

Lemma alter_Some (f : ACall → ACall) (h : gmap loc ACall) l a :
  h !! l = Some a → alter f l h = <[l := f a]> h.
Proof.
  intros Hl. apply map_eq. intros l'.
  destruct (decide (l = l')) as [<-|Hne].
  - by rewrite !lookup_alter_eq, lookup_insert_eq, Hl.
  - by rewrite !lookup_alter_ne, lookup_insert_ne.
Qed.

Lemma alter_None (f : ACall → ACall) (h : gmap loc ACall) l :
  h !! l = None → alter f l h = h.
Proof.
  intros Hl. apply map_eq. intros l'.
  destruct (decide (l = l')) as [<-|Hne].
  - by rewrite !lookup_alter_eq, Hl.
  - by rewrite !lookup_alter_ne.
Qed.

(** What [rpc_dispatch_result] does for the id of a pending call, when
    the frame comes from the peer that was called. *)
Lemma rpc_dispatch_result_run w peer_address id l a result :
  ACallRegister w !! id = Some l →
  objects w !! l = Some a →
  PeerAddress a = peer_address →
  Result a = Value JNull →
  Error a = JNull →
  rpc_dispatch_result peer_address (JStr id) result w =
  Out (inl tt)
      (set_objects (<[l := set_ReplyEvent (set_Result (Value result) a)]>
                      (objects w))
         (set_ACallRegister (delete id (ACallRegister w)) w))
      [].
Proof.
  intros Hid Hl Hpeer Hresult Herror.
  unfold rpc_dispatch_result, mbind, M_bind, bind.
  rewrite (pop_or_None_hit _ _ _ Hid), send_run. simpl.
  rewrite (lookup_total_Some _ _ _ Hl), Hpeer, Hresult, Herror.
  rewrite bool_decide_eq_true_2 by done. simpl.
  unfold set_object, set_objects. simpl.
  by rewrite (alter_alter_Some _ _ _ _ a).
Qed.

(** C3. A result whose id is that of a pending call takes the call out
    of the register and completes it: the caller is resumed with the
    result.  Nothing else happens: no method of the application is called,
    whatever is bound, and the state of the application is as it was. *)
Theorem rpc_dispatch_result_calls_no_handler w peer_address id l a result :
  ACallRegister w !! id = Some l →
  objects w !! l = Some a →
  PeerAddress a = peer_address →
  Result a = Value JNull →
  Error a = JNull →
  let o := rpc_dispatch_result peer_address (JStr id) result w in
  res o = inl tt ∧
  ACallRegister (st o) = delete id (ACallRegister w) ∧
  (∃ a', objects (st o) !! l = Some a' ∧ wait a' = Some (inl result)) ∧
  app (st o) = app w ∧
  RPCMethods (st o) = RPCMethods w ∧
  evs o = [].
Proof.
  intros Hid Hl Hpeer Hresult Herror o. subst o.
  rewrite (rpc_dispatch_result_run _ _ _ _ _ _ Hid Hl Hpeer Hresult Herror).
  simpl. split_and!; try done.
  eexists. split; [apply lookup_insert_eq|].
  unfold wait. simpl. by rewrite Herror.
Qed.

Lemma cancel_run w l :
  cancel l w = Out (inl tt) (set_objects (alter cancelled l (objects w)) w) [].
Proof.
  unfold cancel, object. rewrite bind_gets.
  destruct (objects w !! l) as [a|] eqn:Hl.
  - rewrite (lookup_total_Some _ _ _ Hl), (alter_Some _ _ _ a) by done.
    unfold cancelled. destruct (ReplyEvent a) eqn:Hset; simpl.
    + by rewrite insert_id, set_objects_id.
    + rewrite bind_modify. unfold modify, set_object, set_objects. simpl.
      by rewrite (alter_alter_Some _ _ _ _ a).
  - rewrite lookup_total_alt, Hl. simpl. rewrite bind_modify.
    unfold modify, set_object, set_objects. simpl.
    by rewrite !alter_None; rewrite ?alter_None.
Qed.

Lemma for_each_cancel ls w :
  for_each ls cancel w =
  Out (inl tt)
      (set_objects (foldl (λ h l, alter cancelled l h) (objects w) ls) w) [].
Proof.
  revert w. induction ls as [|l ls IH]; intros w.
  - simpl. by rewrite set_objects_id.
  - unfold for_each in *. simpl. unfold bind at 1. unfold bind at 1.
    rewrite cancel_run. simpl. rewrite IH. simpl. by destruct w.
Qed.

Lemma cancelled_idemp a : cancelled (cancelled a) = cancelled a.
Proof. unfold cancelled. by destruct (ReplyEvent a) eqn:H; simpl; rewrite ?H. Qed.

Lemma foldl_alter_cancelled (h : gmap loc ACall) ls l :
  foldl (λ h l, alter cancelled l h) h ls !! l =
  if bool_decide (l ∈ ls) then cancelled <$> h !! l else h !! l.
Proof.
  revert h. induction ls as [|x ls IH]; intros h; cbn [foldl].
  - rewrite bool_decide_eq_false_2; [done | apply not_elem_of_nil].
  - rewrite IH, lookup_alter.
    destruct (decide (x = l)) as [->|Hne].
    + rewrite (bool_decide_eq_true_2 (l ∈ l :: ls)) by left.
      destruct (bool_decide (l ∈ ls)); [|done].
      destruct (h !! l); simpl; [|done]. by rewrite cancelled_idemp.
    + destruct (decide (l ∈ ls)) as [Hin|Hnin].
      * rewrite !bool_decide_eq_true_2; [done | by right | done].
      * rewrite !bool_decide_eq_false_2; [done | | done].
        intros [?|?]%elem_of_cons; [congruence | done].
Qed.

(** [finalize] cancels every call of the register and leaves the
    register as it is. *)
Lemma finalize_run w :
  ∃ heap,
    finalize w = Out (inl tt) (set_objects heap w) [] ∧
    ∀ id l, ACallRegister w !! id = Some l →
            heap !! l = cancelled <$> objects w !! l.
Proof.
  eexists. split.
  - unfold finalize. rewrite bind_gets. apply for_each_cancel.
  - intros id l Hid. rewrite foldl_alter_cancelled.
    rewrite bool_decide_eq_true_2; [done|].
    apply list_elem_of_fmap. exists (id, l). split; [done|].
    by apply elem_of_map_to_list.
Qed.

(** A turn of [on_recv] for a frame with a result, when
    [rpc_dispatch_result] raises: the exception is logged and nothing is
    sent. *)
Lemma on_recv_turn_result_raises w s peer_address kv class_name text w' ev :
  dict_get kv "jsonrpc" (JStr "?") = JStr "2.0" →
  dict_get kv "method" JNull = JNull →
  is_None (dict_get kv "result" JNull) = false →
  rpc_dispatch_result peer_address (dict_get kv "id" JNull)
    (dict_get kv "result" JNull) w
  = Out (inr (Exception class_name text)) w' ev →
  on_recv_turn s (Decoded (JObj kv)) peer_address w =
  Out (inl Next) w'
      (ev ++ [L_exception (Exception_during_RPC_request peer_address
                             (Exception class_name text))]).
Proof.
  intros Hrpc Hmethod Hresult Hraise.
  rewrite (on_recv_turn_raises w s _ _ Not_propagating
             (Exception class_name text) w' ev).
  { by rewrite app_nil_r. }
  unfold try_block. rewrite !bind_within_ret. cbv zeta.
  rewrite Hrpc, eq_str_true, Hmethod, Hresult. unfold_monad.
  cbv beta iota delta [negb is_None]. rewrite Hraise. simpl.
  by rewrite app_nil_r.
Qed.

(** C5. [finalize] resumes the caller of every pending call with
    [CancelledError], and leaves the call in the register.  A result or
    an error that arrives for its id afterwards is therefore not an
    unknown one: the call is taken out of the register, and [send] or
    [send_error] fails on its assertion, which [on_recv] logs as an
    exception. *)
Theorem finalize_leaves_cancelled_calls_registered w id l a :
  ACallRegister w !! id = Some l →
  objects w !! l = Some a →
  ReplyEvent a = false →
  Error a = JNull →
  let w' := st (finalize w) in
  res (finalize w) = inl tt ∧
  (∃ a', objects w' !! l = Some a' ∧
         wait a' = Some (inr (Exception "CancelledError" EmptyString))) ∧
  ACallRegister w' !! id = Some l ∧
  (∀ peer_address v,
    (let o := rpc_dispatch_result peer_address (JStr id) v w' in
     res o = inr AssertionError ∧
     ACallRegister (st o) = delete id (ACallRegister w) ∧
     evs o = []) ∧
    (let o := rpc_dispatch_error peer_address (JStr id) v w' in
     res o = inr AssertionError ∧
     ACallRegister (st o) = delete id (ACallRegister w) ∧
     evs o = [])) ∧
  (∀ s peer_address kv,
     dict_get kv "jsonrpc" (JStr "?") = JStr "2.0" →
     dict_get kv "method" JNull = JNull →
     dict_get kv "id" JNull = JStr id →
     is_None (dict_get kv "result" JNull) = false →
     let o := on_recv_turn s (Decoded (JObj kv)) peer_address w' in
     res o = inl Next ∧
     ACallRegister (st o) = delete id (ACallRegister w) ∧
     evs o = [L_exception
                (Exception_during_RPC_request peer_address AssertionError)]).
Proof.
  intros Hid Hl Hpending Herror w'.
  destruct (finalize_run w) as (heap & Hrun & Hheap).
  subst w'. rewrite Hrun. simpl.
  assert (Ha' : heap !! l = Some (set_ReplyEvent (set_Result CancelledError a))).
  { rewrite (Hheap _ _ Hid), Hl. simpl. unfold cancelled. by rewrite Hpending. }
  assert (Hlate : ∀ peer_address v,
    rpc_dispatch_result peer_address (JStr id) v (set_objects heap w)
    = Out (inr AssertionError)
          (set_ACallRegister (delete id (ACallRegister w)) (set_objects heap w))
          [] ∧
    rpc_dispatch_error peer_address (JStr id) v (set_objects heap w)
    = Out (inr AssertionError)
          (set_ACallRegister (delete id (ACallRegister w)) (set_objects heap w))
          []).
  { intros peer_address v.
    unfold rpc_dispatch_result, rpc_dispatch_error, mbind, M_bind, bind.
    rewrite (pop_or_None_hit _ id l) by done. simpl.
    rewrite send_run, send_error_run. simpl.
    rewrite (lookup_total_Some _ _ _ Ha'). simpl.
    by rewrite andb_false_r. }
  split_and!; [done | | done | |].
  - eexists. split; [exact Ha'|]. unfold wait. simpl. by rewrite Herror.
  - intros peer_address v. destruct (Hlate peer_address v) as [-> ->]. done.
  - intros s peer_address kv Hrpc Hmethod Hkv Hresult.
    rewrite (on_recv_turn_result_raises _ s peer_address kv
               "AssertionError" EmptyString
               (set_ACallRegister (delete id (ACallRegister w))
                  (set_objects heap w)) []); try done.
    rewrite Hkv. exact (proj1 (Hlate peer_address (dict_get kv "result" JNull))).
Qed.

End App.

Lemma Ping_returns_witness :
  JList [JNum 1; JStr "x"; JNull] ≠ JNull ∧
  rpc_dispatch_method peer_B (JStr "Ping") (JList [JNum 1; JStr "x"; JNull]) rpc0
  = Out (inl (JList [JNum 1; JStr "x"; JNull])) rpc0 [].
Proof.
  split; [discriminate|].
  apply (proj1 (proj2 (Ping_returns rpc0 peer_B))). discriminate.
Defined.

Lemma method_not_found_and_error_replies_witness :
  on_recv_turn 3%nat (Decoded (JObj Nope)) peer_B rpc0 =
  Out (inl Next) rpc0
    [sendto 3%nat
       (JObj [("id", JNum 7); ("jsonrpc", JStr "2.0");
              ("error", JObj [("code", JNum (-32601));
                              ("message", JStr "Method not found");
                              ("data", JStr "Nope")])])
       peer_B] ∧
  carries_method (Decoded (JObj Nope)) = true ∧
  sent (evs (on_recv_turn 3%nat (Decoded (JObj Nope)) peer_B rpc0)) =
  [error_frame Nope (RPCError (JObj [("code", JNum (-32601));
                                     ("message", JStr "Method not found");
                                     ("data", JStr "Nope")]))].
Proof.
  split_and!.
  - apply (proj1 method_not_found_and_error_replies rpc0 3%nat peer_B Nope "Nope");
      [reflexivity | reflexivity | discriminate | reflexivity].
  - reflexivity.
  - refine (proj1 (proj2 (proj2 method_not_found_and_error_replies
      rpc0 3%nat (Decoded (JObj Nope)) peer_B (Propagating Nope) _ rpc0 [] _))).
    reflexivity.
Defined.

Lemma rpc_dispatch_result_calls_no_handler_witness :
  RPCMethods rpc1 !! "RequestVote" = Some counting ∧
  ACallRegister rpc1 !! "RequestVote:1" = Some 0%nat ∧
  let o := rpc_dispatch_result peer_B (JStr "RequestVote:1") vote rpc1 in
  res o = inl tt ∧
  ACallRegister (st o) = delete "RequestVote:1" (ACallRegister rpc1) ∧
  (∃ a', objects (st o) !! 0%nat = Some a' ∧ wait a' = Some (inl vote)) ∧
  app (st o) = 0%nat ∧
  RPCMethods (st o) = RPCMethods rpc1 ∧
  evs o = [].
Proof.
  split; [reflexivity|]. split; [reflexivity|].
  apply (rpc_dispatch_result_calls_no_handler rpc1 peer_B "RequestVote:1"
           0%nat call1 vote); reflexivity.
Defined.

Lemma finalize_leaves_cancelled_calls_registered_witness :
  let w' := st (finalize rpc1) in
  res (finalize rpc1) = inl tt ∧
  (∃ a', objects w' !! 0%nat = Some a' ∧
         wait a' = Some (inr (Exception "CancelledError" EmptyString))) ∧
  ACallRegister w' !! "RequestVote:1" = Some 0%nat ∧
  (let o := on_recv_turn 3%nat (Decoded (JObj late_vote)) peer_B w' in
   res o = inl Next ∧
   ACallRegister (st o) = delete "RequestVote:1" (ACallRegister rpc1) ∧
   evs o = [L_exception (Exception_during_RPC_request peer_B AssertionError)]).
Proof.
  pose proof (finalize_leaves_cancelled_calls_registered rpc1 "RequestVote:1"
                0%nat call1 eq_refl eq_refl eq_refl eq_refl)
    as (Hres & Hwait & Hreg & _ & Hlate).
  split_and!; [exact Hres | exact Hwait | exact Hreg |].
  apply Hlate; reflexivity.
Defined.

End RPC_facts.

(** * The role machine *)

Module Raft_facts.
Import Raft.

Implicit Types s : RaftService.

(** Stepping through the straight-line code of a handler. *)
Ltac step :=
  repeat first
    [ rewrite bind_gets | rewrite bind_modify | rewrite bind_emit
    | rewrite bind_ret | rewrite bind_raise ];
  simpl.

Global Instance term_le_preorder : PreOrder term_le.
Proof. split; [intros s | intros s1 s2 s3]; unfold term_le; lia. Qed.

Global Instance same_data_preorder : PreOrder same_data.
Proof.
  split.
  - by intros s.
  - intros s1 s2 s3 (?&?&?&?&?) (?&?&?&?&?). repeat split; congruence.
Qed.

Lemma same_data_term_le s s' : same_data s s' → term_le s s'.
Proof. intros [H _]. unfold term_le. rewrite H. lia. Qed.

Lemma same_data_set_State r s : same_data s (set_State r s).
Proof. done. Qed.

Lemma fmap_alter_id {A B} (f : A → B) (g : A → A) i (l : list A) :
  (∀ x, f (g x) = f x) → f <$> alter g i l = f <$> l.
Proof.
  intros H. revert i. induction l as [|x l IH]; intros [|i]; simpl; [done..| |].
  - by rewrite H.
  - f_equal. apply IH.
Qed.

Lemma same_data_set_VoteGranted i b s :
  same_data s (set_peer i (set_VoteGranted b) s).
Proof. repeat split; simpl; by apply fmap_alter_id. Qed.

Lemma term_le_set_peer i f s : term_le s (set_peer i f s).
Proof. unfold term_le. simpl. lia. Qed.

Lemma term_le_set_votedFor v s : term_le s (set_votedFor v s).
Proof. unfold term_le. simpl. lia. Qed.

Lemma term_le_set_State r s : term_le s (set_State r s).
Proof. unfold term_le. simpl. lia. Qed.

Create HintDb preserve.

#[export] Hint Resolve same_data_set_State same_data_set_VoteGranted
  term_le_set_peer term_le_set_votedFor term_le_set_State : preserve.

(** A computation built from the combinators of the monad preserves a
    preorder when each of its assignments does. *)
Ltac preserve :=
  repeat first
    [ apply preserves_ret | apply preserves_raise | apply preserves_gets
    | apply preserves_emit | apply preserves_assert
    | apply preserves_when | apply preserves_for_each
    | apply preserves_for_else
    | apply preserves_modify
    | apply preserves_bind
    | match goal with
      | |- PreOrder _ => apply _
      | |- ∀ _, _ => intros ?
      | |- preserves _ (if ?b then _ else _) => destruct b
      | |- preserves _ (let '(_, _) := ?x in _) => destruct x
      end
    | solve [auto with preserve] ].

Lemma preserves_from {A} (rel : relation RaftService) `{!PreOrder rel}
    (m : R A) s0 s :
  rel s0 s → preserves rel m → rel s0 (st (m s)).
Proof. intros H Hm. etrans; [exact H | apply Hm]. Qed.

Lemma request_vote_same_data i : preserves same_data (request_vote i).
Proof. unfold request_vote, peer, get_currentTerm. preserve. Qed.

Lemma append_entries_same_data i : preserves same_data (append_entries i).
Proof. unfold append_entries, peer, get_currentTerm. preserve. Qed.

#[export] Hint Resolve request_vote_same_data append_entries_same_data
  : preserve.

Lemma send_heartbeat_same_data : preserves same_data send_heartbeat.
Proof. unfold send_heartbeat, for_peers, peer. preserve. Qed.

#[export] Hint Resolve send_heartbeat_same_data : preserve.

Lemma enter_state_follower_same_data : preserves same_data enter_state_follower.
Proof. unfold enter_state_follower. preserve. Qed.

Lemma enter_state_leader_same_data : preserves same_data enter_state_leader.
Proof. unfold enter_state_leader, get_currentTerm. preserve. Qed.

#[export] Hint Resolve enter_state_follower_same_data
  enter_state_leader_same_data : preserve.

Lemma evalute_election_same_data : preserves same_data evalute_election.
Proof. unfold evalute_election. preserve. Qed.

#[export] Hint Resolve evalute_election_same_data : preserve.

Lemma _on_heartbeat_timeout_same_data :
  preserves same_data _on_heartbeat_timeout.
Proof. unfold _on_heartbeat_timeout, for_peers, peer. preserve. Qed.

(** After it has set [State] and [currentTerm], [enter_state_candidate]
    changes nothing but [State] and the [VoteGranted] flags. *)
Lemma enter_state_candidate_same_data s :
  same_data (set_currentTerm (currentTerm (PersistentState s) + 1)
               (set_State Candidate s))
            (st (enter_state_candidate s)).
Proof.
  unfold enter_state_candidate, get_currentTerm.
  rewrite !bind_gets, bind_emit. simpl. rewrite !bind_modify.
  apply preserves_from; [apply _ | reflexivity |].
  unfold for_peers, peer. preserve.
Qed.

Lemma same_data_preserves_term_le {A} (m : R A) :
  preserves same_data m → preserves term_le m.
Proof. apply preserves_weaken, same_data_term_le. Qed.

(** What [append_entries_server] computes. *)
Lemma append_entries_server_run s (params : AppendEntriesParams.t) :
  let term := AppendEntriesParams.term params in
  let current := currentTerm (PersistentState s) in
  let reply success :=
    {| AppendEntriesReply.term := current;
       AppendEntriesReply.success := success;
       AppendEntriesReply.serverId := ServerId s |} in
  append_entries_server params s =
  if bool_decide (term < current) then
    Out (inl (reply false)) s [Warn (AppendEntries_for_an_old_term term current)]
  else
    Out (inl (reply true)) (set_State Follower (set_currentTerm term s))
        ((if bool_decide (State s = Follower) then []
          else [Warn (Entering_follower (State s)); Timer_stop HeartBeatTimer;
                Timer_restart ElectionTimer])
         ++ [Timer_restart ElectionTimer]).
Proof.
  intros term current reply. unfold append_entries_server, get_currentTerm.
  rewrite !bind_gets. fold term current.
  case_bool_decide as Hge; case_bool_decide as Hlt; try lia; [|by step].
  step. destruct s as [state ps vs peers sid]; simpl in *.
  by destruct state.
Qed.

(** What [request_vote_server] computes: the vote is granted when no
    vote is recorded, and in no other case. *)
Lemma request_vote_server_run s (params : RequestVoteParams.t) :
  let term := RequestVoteParams.term params in
  let candidateId := RequestVoteParams.candidateId params in
  let reply voteGranted :=
    {| RequestVoteReply.term := term;
       RequestVoteReply.voteGranted := voteGranted;
       RequestVoteReply.serverId := ServerId s |} in
  request_vote_server params s =
  if bool_decide (term < currentTerm (PersistentState s)) then
    Out (inl (reply false)) s []
  else
    match votedFor (PersistentState s) with
    | Some _ => Out (inl (reply false)) s []
    | None =>
        Out (inl (reply true))
            (if bool_decide (State s = Candidate)
             then set_State Follower (set_votedFor (Some candidateId) s)
             else set_votedFor (Some candidateId) s)
            (Warn (Voted_for candidateId) ::
             if bool_decide (State s = Candidate)
             then [Warn (Entering_follower Candidate); Timer_stop HeartBeatTimer;
                   Timer_restart ElectionTimer]
             else [])
    end.
Proof.
  intros term candidateId reply. unfold request_vote_server, get_currentTerm.
  rewrite !bind_gets. fold term candidateId.
  case_bool_decide as Hlt; [done|]. rewrite bind_gets.
  destruct (votedFor (PersistentState s)) as [v|] eqn:Hv.
  - destruct (decide (v = candidateId)) as [->|Hne].
    + rewrite (bool_decide_eq_false_2 (Some candidateId ≠ Some candidateId))
        by (intros H; by apply H).
      rewrite (bool_decide_eq_false_2 (Some candidateId = None)) by done.
      by rewrite andb_false_r.
    + rewrite (bool_decide_eq_true_2 (Some v ≠ None)) by done.
      rewrite (bool_decide_eq_true_2 (Some v ≠ Some candidateId)) by congruence.
      done.
  - rewrite (bool_decide_eq_false_2 (None ≠ None)) by (intros H; by apply H).
    rewrite (bool_decide_eq_true_2 (None = None)) by done. simpl.
    rewrite bind_modify, bind_emit, bind_gets. simpl.
    destruct s as [state ps vs peers sid]; simpl in *.
    by destruct state.
Qed.

(** C1. [append_entries_server]: a request whose term is less than
    [currentTerm] is answered with [success = False] and the current term,
    and the state is left as it is, no timer touched; any other request
    sets [currentTerm] to its term, leaves the node a follower (through
    [enter_state_follower] when it was not one), restarts the election
    timer and is answered with [success = True]. *)
Theorem append_entries_server_spec s (params : AppendEntriesParams.t) :
  let term := AppendEntriesParams.term params in
  let current := currentTerm (PersistentState s) in
  let o := append_entries_server params s in
  (term < current →
     res o = inl {| AppendEntriesReply.term := current;
                    AppendEntriesReply.success := false;
                    AppendEntriesReply.serverId := ServerId s |} ∧
     st o = s ∧
     evs o = [Warn (AppendEntries_for_an_old_term term current)]) ∧
  (current ≤ term →
     (∃ reply, res o = inl reply ∧ AppendEntriesReply.success reply = true) ∧
     st o = set_State Follower (set_currentTerm term s) ∧
     currentTerm (PersistentState (st o)) = term ∧
     State (st o) = Follower ∧
     evs o =
       (if bool_decide (State s = Follower) then []
        else [Warn (Entering_follower (State s)); Timer_stop HeartBeatTimer;
              Timer_restart ElectionTimer])
       ++ [Timer_restart ElectionTimer]).
Proof.
  intros term current o. subst o. rewrite append_entries_server_run.
  fold term current. split; intros Hterm.
  - by rewrite bool_decide_eq_true_2 by lia.
  - rewrite bool_decide_eq_false_2 by lia. simpl. eauto 10.
Qed.

Lemma append_entries_server_spec_witness :
  st (append_entries_server (AppendEntries_of_term 3) (at_term_5 Follower))
    = at_term_5 Follower ∧
  State (st (append_entries_server (AppendEntries_of_term 5) (at_term_5 Candidate)))
    = Follower.
Proof.
  split.
  - apply (proj1 (append_entries_server_spec (at_term_5 Follower)
                    (AppendEntries_of_term 3))). simpl. lia.
  - apply (proj2 (append_entries_server_spec (at_term_5 Candidate)
                    (AppendEntries_of_term 5))). simpl. lia.
Defined.

(** C2. [request_vote_server] refuses the vote once [votedFor] is set,
    also to the candidate recorded in it: the request that was granted is
    refused when it is repeated. *)
Theorem request_vote_server_repeated_request_refused s
    (params : RequestVoteParams.t) :
  votedFor (PersistentState s) = Some (RequestVoteParams.candidateId params) →
  request_vote_server params s =
  Out (inl {| RequestVoteReply.term := RequestVoteParams.term params;
              RequestVoteReply.voteGranted := false;
              RequestVoteReply.serverId := ServerId s |}) s [].
Proof.
  intros Hvoted. rewrite request_vote_server_run, Hvoted.
  by case_bool_decide.
Qed.

(** Once a vote is recorded, a request of another candidate is refused. *)
Lemma request_vote_server_other_candidate_refused s
    (params : RequestVoteParams.t) c :
  votedFor (PersistentState s) = Some c →
  c ≠ RequestVoteParams.candidateId params →
  ∃ reply, res (request_vote_server params s) = inl reply ∧
           RequestVoteReply.voteGranted reply = false.
Proof.
  intros Hvoted _. rewrite request_vote_server_run, Hvoted.
  case_bool_decide; eauto.
Qed.

Lemma append_entries_server_term_le params :
  preserves term_le (append_entries_server params).
Proof.
  intros s. rewrite append_entries_server_run. unfold term_le.
  case_bool_decide; simpl; lia.
Qed.

Lemma request_vote_server_term_le params :
  preserves term_le (request_vote_server params).
Proof.
  intros s. rewrite request_vote_server_run. unfold term_le.
  case_bool_decide; [simpl; lia|].
  destruct (votedFor _); [simpl; lia|]. case_bool_decide; simpl; lia.
Qed.

Lemma enter_state_candidate_term_le : preserves term_le enter_state_candidate.
Proof.
  intros s. destruct (enter_state_candidate_same_data s) as [H _].
  unfold term_le. rewrite H. simpl. lia.
Qed.

#[export] Hint Resolve same_data_preserves_term_le : preserve.

Lemma learn_peer_id_term_le i peer_address serverId :
  preserves term_le (learn_peer_id i peer_address serverId).
Proof. unfold learn_peer_id, peer. preserve. Qed.

#[export] Hint Resolve learn_peer_id_term_le : preserve.

Lemma append_entries_result_term_le peer_address params :
  preserves term_le (append_entries_result peer_address params).
Proof. unfold append_entries_result, peer. preserve. Qed.

Lemma request_vote_result_term_le peer_address params :
  preserves term_le (request_vote_result peer_address params).
Proof. unfold request_vote_result, get_currentTerm, peer. preserve. Qed.

Lemma perform_term_le op : preserves term_le (perform op).
Proof.
  destruct op; simpl.
  - apply same_data_preserves_term_le, enter_state_follower_same_data.
  - apply enter_state_candidate_term_le.
  - apply same_data_preserves_term_le, _on_heartbeat_timeout_same_data.
  - apply preserves_bind; [apply _ | apply append_entries_server_term_le |].
    intros ?. apply preserves_ret. apply _.
  - apply append_entries_result_term_le.
  - apply preserves_bind; [apply _ | apply request_vote_server_term_le |].
    intros ?. apply preserves_ret. apply _.
  - apply request_vote_result_term_le.
Qed.

Lemma run_term_le ops s : term_le s (run ops s).
Proof.
  revert s. induction ops as [|op ops IH]; intros s; simpl; [done|].
  etrans; [apply perform_term_le | apply IH].
Qed.

(** C4. [currentTerm] never decreases: not in [enter_state_candidate],
    not in any of the four RPC handlers, not in any other operation of
    the role machine, and so not along any execution. *)
Theorem currentTerm_monotonic :
  (∀ s, currentTerm (PersistentState s)
        ≤ currentTerm (PersistentState (st (enter_state_candidate s)))) ∧
  (∀ params s, currentTerm (PersistentState s)
        ≤ currentTerm (PersistentState (st (append_entries_server params s)))) ∧
  (∀ params s, currentTerm (PersistentState s)
        ≤ currentTerm (PersistentState (st (request_vote_server params s)))) ∧
  (∀ peer_address params s, currentTerm (PersistentState s)
        ≤ currentTerm (PersistentState
            (st (append_entries_result peer_address params s)))) ∧
  (∀ peer_address params s, currentTerm (PersistentState s)
        ≤ currentTerm (PersistentState
            (st (request_vote_result peer_address params s)))) ∧
  (∀ op s, currentTerm (PersistentState s)
        ≤ currentTerm (PersistentState (st (perform op s)))) ∧
  (∀ ops ops' s, currentTerm (PersistentState (run ops s))
        ≤ currentTerm (PersistentState (run (ops ++ ops') s))).
Proof.
  split_and!.
  - apply enter_state_candidate_term_le.
  - intros params. apply append_entries_server_term_le.
  - intros params. apply request_vote_server_term_le.
  - intros peer_address params. apply append_entries_result_term_le.
  - intros peer_address params. apply request_vote_result_term_le.
  - intros op. apply perform_term_le.
  - intros ops ops' s. unfold run. rewrite foldl_app. apply run_term_le.
Qed.

(** C10. [enter_state_candidate] adds one to [currentTerm] and, that
    apart, changes nothing but [State] and the [VoteGranted] flags of the
    peers; [votedFor] in particular is as before.  A node that has not
    voted has therefore not voted after it has started its election, and
    [request_vote_server] grants its vote to any candidate of that term
    or of a later one. *)
Theorem enter_state_candidate_frame s :
  let s' := st (enter_state_candidate s) in
  (currentTerm (PersistentState s') = currentTerm (PersistentState s) + 1 ∧
   votedFor (PersistentState s') = votedFor (PersistentState s) ∧
   log (PersistentState s') = log (PersistentState s) ∧
   VolatileState s' = VolatileState s ∧
   ServerId s' = ServerId s ∧
   Address <$> Peers s' = Address <$> Peers s ∧
   Id <$> Peers s' = Id <$> Peers s) ∧
  (votedFor (PersistentState s) = None →
   ∀ params : RequestVoteParams.t,
     currentTerm (PersistentState s') ≤ RequestVoteParams.term params →
     let o := request_vote_server params s' in
     res o = inl {| RequestVoteReply.term := RequestVoteParams.term params;
                    RequestVoteReply.voteGranted := true;
                    RequestVoteReply.serverId := ServerId s |} ∧
     votedFor (PersistentState (st o))
       = Some (RequestVoteParams.candidateId params) ∧
     (State s' = Candidate → State (st o) = Follower)).
Proof.
  intros s'. destruct (enter_state_candidate_same_data s)
    as (Hps & Hvs & Hid & Haddr & Hids). fold s' in Hps, Hvs, Hid, Haddr, Hids.
  split.
  - rewrite Hps. done.
  - intros Hvoted params Hterm o. subst o.
    rewrite request_vote_server_run.
    rewrite bool_decide_eq_false_2 by lia.
    rewrite Hps. simpl. rewrite Hvoted, Hid. simpl.
    split_and!; [done| |].
    + by case_bool_decide.
    + intros ->. by rewrite bool_decide_eq_true_2.
Qed.

Lemma seq_split_at (i n : nat) :
  (i < n)%nat → seq 0 n = seq 0 i ++ i :: seq (S i) (n - S i).
Proof.
  intros Hi. replace n with (i + S (n - S i))%nat at 1 by lia.
  by rewrite seq_app.
Qed.

(** What [learn_peer_id] computes. *)
Lemma learn_peer_id_run s i p peer_address serverId :
  Peers s !! i = Some p →
  learn_peer_id i peer_address serverId s =
  if bool_decide (Id p = "?") then
    Out (inl tt) (set_peer i (set_id serverId) s)
        [Warn (Peer_is_now_known_as peer_address serverId)]
  else
    Out (inl tt) s
        (if bool_decide (Id p = serverId) then []
         else [Warn (Server_id_changed (Id p) serverId peer_address)]).
Proof.
  intros Hp. unfold learn_peer_id, peer. rewrite bind_gets.
  rewrite (list_lookup_total_correct _ _ _ Hp).
  case_bool_decide; [by step|].
  destruct (decide (Id p = serverId)) as [Heq|Hne].
  - rewrite (bool_decide_eq_true_2 _ Heq).
    by rewrite bool_decide_eq_false_2 by (intros H'; by apply H').
  - rewrite (bool_decide_eq_false_2 _ Hne).
    by rewrite (bool_decide_eq_true_2 (Id p ≠ serverId)).
Qed.

(** C8, as amended. [append_entries_result] looks for the first peer with
    the address the reply came from.  If the id of that peer is ["?"], it
    becomes the [serverId] of the reply.  If not, it stays as it is; a
    warning is logged when it differs from the [serverId] of the reply. *)
Theorem append_entries_result_spec s peer_address
    (params : AppendEntriesReply.t) i p :
  Peers s !! i = Some p →
  Address p = Some peer_address →
  (∀ j q, (j < i)%nat → Peers s !! j = Some q → Address q ≠ Some peer_address) →
  let serverId := AppendEntriesReply.serverId params in
  let o := append_entries_result peer_address params s in
  res o = inl tt ∧
  (Id p = "?" →
     st o = set_peer i (set_id serverId) s ∧
     evs o = [Warn (Peer_is_now_known_as peer_address serverId)]) ∧
  (Id p ≠ "?" →
     st o = s ∧
     evs o = if bool_decide (Id p = serverId) then []
             else [Warn (Server_id_changed (Id p) serverId peer_address)]).
Proof.
  intros Hp Haddr Hfirst serverId o. subst serverId.
  assert (Hi : (i < length (Peers s))%nat) by (by eapply lookup_lt_Some).
  pose (learn := learn_peer_id i peer_address
                   (AppendEntriesReply.serverId params) s).
  assert (Ho : o = Out (inl tt) (st learn) (evs learn)).
  { subst o. unfold append_entries_result. rewrite bind_gets.
    rewrite (seq_split_at i) by done.
    apply for_else_break.
    - intros j Hj. apply elem_of_seq in Hj.
      assert (is_Some (Peers s !! j)) as [q Hq] by (apply lookup_lt_is_Some; lia).
      unfold peer. rewrite bind_gets, (list_lookup_total_correct _ _ _ Hq).
      rewrite bool_decide_eq_false_2; [done|].
      apply (Hfirst j); [lia | done].
    - unfold peer. rewrite bind_gets, (list_lookup_total_correct _ _ _ Hp).
      rewrite bool_decide_eq_true_2 by done.
      unfold mbind, M_bind, bind. fold learn.
      destruct learn as [[[]|x] s1 ev1] eqn:Hlearn; simpl; [by rewrite app_nil_r|].
      subst learn. rewrite (learn_peer_id_run _ _ p) in Hlearn by done.
      by repeat case_bool_decide. }
  subst learn.
  rewrite Ho. clear Ho o. rewrite (learn_peer_id_run _ _ p) by done.
  split_and!; [done | |]; intros Hid.
  - by rewrite bool_decide_eq_true_2.
  - by rewrite bool_decide_eq_false_2.
Qed.

(** If no peer has the address the reply came from, nothing happens. *)
Lemma append_entries_result_unknown_peer s peer_address params :
  (∀ q, q ∈ Peers s → Address q ≠ Some peer_address) →
  append_entries_result peer_address params s = Out (inl tt) s [].
Proof.
  intros Hnone. unfold append_entries_result. rewrite bind_gets.
  rewrite for_else_skip; [done|]. intros j Hj. apply elem_of_seq in Hj.
  assert (is_Some (Peers s !! j)) as [q Hq] by (apply lookup_lt_is_Some; lia).
  unfold peer. rewrite bind_gets, (list_lookup_total_correct _ _ _ Hq).
  rewrite bool_decide_eq_false_2; [done|].
  apply Hnone. by eapply list_elem_of_lookup_2.
Qed.

Lemma append_entries_result_spec_witness :
  st (append_entries_result node_B (success_of "b:7000")
        (run [Initialize; Election_timeout] A0))
  = set_peer 1 (set_id "b:7000") (run [Initialize; Election_timeout] A0) ∧
  st (append_entries_result node_B (success_of "x:7000") knows_B) = knows_B.
Proof.
  split.
  - refine (proj1 (proj1 (proj2 (append_entries_result_spec
      (run [Initialize; Election_timeout] A0) node_B (success_of "b:7000")
      1 (new_Peer (Some node_B)) _ _ _)) _)); try reflexivity.
    intros [|j] q Hj Hq; [|lia]. by injection Hq as <-.
  - refine (proj1 (proj2 (proj2 (append_entries_result_spec
      knows_B node_B (success_of "x:7000")
      1 (set_id "b:7000" (new_Peer (Some node_B))) _ _ _)) _));
      try reflexivity; [|done].
    intros [|j] q Hj Hq; [|lia]. by injection Hq as <-.
Defined.

(** C8, as stated, fails: a stored id that differs from the [serverId] of
    the reply is not replaced by it. *)
Lemma append_entries_result_keeps_the_stored_id :
  ¬ (∀ s peer_address (params : AppendEntriesReply.t) i p,
       Peers s !! i = Some p →
       Address p = Some peer_address →
       (∀ j q, (j < i)%nat → Peers s !! j = Some q →
               Address q ≠ Some peer_address) →
       Id p ≠ "?" →
       Id p ≠ AppendEntriesReply.serverId params →
       Id <$> Peers (st (append_entries_result peer_address params s)) !! i
       = Some (AppendEntriesReply.serverId params)).
Proof.
  intros H.
  specialize (H knows_B node_B (success_of "x:7000") 1%nat
                (set_id "b:7000" (new_Peer (Some node_B)))).
  discriminate H; try done.
  intros [|j] q Hj Hq; [|lia]. by injection Hq as <-.
Qed.

(** C9. In a cluster of three, the candidate [A0] asks [B0] and [C0] for
    their votes; both grant it.  The first reply makes the candidate the
    leader.  The second reply sets the flag of its peer and calls
    [evalute_election], whose assertion fails: the node is the leader. *)
Theorem evalute_election_assertion_fails :
  let A1 := run [Initialize] A0 in
  let campaign := perform Election_timeout A1 in
  let A2 := st campaign in
  let A3 := st (perform (RequestVote_reply node_B (vote_of 1 "b:7000")) A2) in
  let last := perform (RequestVote_reply node_C (vote_of 1 "c:7000")) A3 in
  State A2 = Candidate ∧
  votes_requested node_B (evs campaign) = [RequestVote_of 1 "a:7000"] ∧
  votes_requested node_C (evs campaign) = [RequestVote_of 1 "a:7000"] ∧
  res (request_vote_server (RequestVote_of 1 "a:7000") (run [Initialize] B0))
    = inl (vote_of 1 "b:7000") ∧
  res (request_vote_server (RequestVote_of 1 "a:7000") (run [Initialize] C0))
    = inl (vote_of 1 "c:7000") ∧
  State A3 = Leader ∧
  res last = inr (AssertionError "evalute_election") ∧
  State (st last) = Leader.
Proof. by vm_compute. Qed.

Lemma request_vote_server_repeated_request_refused_witness :
  let granted :=
    request_vote_server (RequestVote_of 1 "a:7000") (run [Initialize] B0) in
  res granted = inl (vote_of 1 "b:7000") ∧
  res (request_vote_server (RequestVote_of 1 "a:7000") (st granted))
  = inl {| RequestVoteReply.term := 1;
           RequestVoteReply.voteGranted := false;
           RequestVoteReply.serverId := "b:7000" |}.
Proof.
  split; [reflexivity|].
  rewrite (request_vote_server_repeated_request_refused
             (st (request_vote_server (RequestVote_of 1 "a:7000")
                    (run [Initialize] B0)))
             (RequestVote_of 1 "a:7000")); reflexivity.
Defined.

Lemma enter_state_candidate_frame_witness :
  let s' := st (enter_state_candidate (run [Initialize] A0)) in
  State s' = Candidate ∧
  let o := request_vote_server (RequestVote_of 1 "b:7000") s' in
  res o = inl {| RequestVoteReply.term := 1;
                 RequestVoteReply.voteGranted := true;
                 RequestVoteReply.serverId := "a:7000" |} ∧
  votedFor (PersistentState (st o)) = Some "b:7000" ∧
  (State s' = Candidate → State (st o) = Follower).
Proof.
  split; [reflexivity|].
  apply (proj2 (enter_state_candidate_frame (run [Initialize] A0)));
    [reflexivity | by vm_compute].
Defined.

End Raft_facts.

(** * More about the loops *)

Section Loops_more.
Context {St Ev Ex A : Type}.

Lemma for_each_cons (x : A) (l : list A)
    (body : A → M St Ev Ex unit) (s : St) :
  for_each (x :: l) body s = (body x ≫= λ _, for_each l body) s.
Proof.
  unfold for_each. simpl. unfold mbind, M_bind, bind.
  destruct (body x s) as [[[]|e] s1 e1]; simpl; [|done].
  destruct (for_else l _ _ s1) as [r s2 e2]. by rewrite app_nil_r.
Qed.
End Loops_more.


(** * More about the RPC runtime *)

Module RPC_more.
Import RPC RPC_facts.

Lemma has_colon_app s1 s2 : has_colon (s1 +:+ s2) = has_colon s1 || has_colon s2.
Proof.
  induction s1 as [|c s1 IH]; simpl; [done|]. by rewrite IH, orb_assoc.
Qed.

Lemma pretty_N_go_no_colon x s :
  has_colon s = false → has_colon (pretty_N_go x s) = false.
Proof.
  revert s. induction (N.lt_wf_0 x) as [x _ IH]; intros s Hs.
  assert (x = 0 ∨ 0 < x)%N as [->|?] by lia.
  - by rewrite pretty_N_go_0.
  - rewrite pretty_N_go_step by done. apply IH.
    { by apply N.div_lt. }
    simpl. rewrite Hs, orb_false_r. apply bool_decide_eq_false_2.
    unfold pretty_N_char. by repeat case_match.
Qed.

Lemma pretty_N_no_colon (x : N) : has_colon (pretty x) = false.
Proof.
  unfold pretty, pretty_N. case_decide; [done|]. by apply pretty_N_go_no_colon.
Qed.

Lemma pretty_Z_no_colon (x : Z) : has_colon (pretty x) = false.
Proof.
  destruct x as [|p|p]; [done| |]; unfold pretty, pretty_Z, pretty, pretty_positive.
  - apply pretty_N_no_colon.
  - simpl. apply pretty_N_no_colon.
Qed.

Lemma has_colon_mid m d : has_colon (m +:+ ":" +:+ d) = true.
Proof. induction m as [|c m IH]; simpl; [done|]. by rewrite IH, orb_true_r. Qed.

(** A text of the form [method:digits] has one reading only. *)
Lemma request_id_inj m1 m2 d1 d2 :
  has_colon d1 = false → has_colon d2 = false →
  m1 +:+ ":" +:+ d1 = m2 +:+ ":" +:+ d2 → m1 = m2 ∧ d1 = d2.
Proof.
  intros Hd1 Hd2. revert m2.
  induction m1 as [|c m1 IH]; intros [|c' m2] Heq; simpl in Heq.
  - by injection Heq.
  - injection Heq as _ Heq. change (EmptyString +:+ d1) with d1 in Heq.
    by rewrite Heq, has_colon_mid in Hd1.
  - injection Heq as _ Heq. change (EmptyString +:+ d2) with d2 in Heq.
    by rewrite <-Heq, has_colon_mid in Hd2.
  - injection Heq as -> Heq. destruct (IH _ Heq) as [-> ->]. done.
Qed.

Section App.
Context {App : Type}.
Implicit Types (w : RPC App) (peer_address : address) (a : ACall).

Lemma call_run w peer_address method params :
  call peer_address method params w =
  Out (inl (method +:+ ":" +:+ pretty (IdSeq w)))
      (set_IdSeq (IdSeq w + 1) w)
      [sendto (PrimarySocket w)
         (JObj [("id", JStr (method +:+ ":" +:+ pretty (IdSeq w)));
                ("jsonrpc", JStr "2.0");
                ("method", JStr method);
                ("params", params)])
         peer_address].
Proof. reflexivity. Qed.

(** X1. [call] never gives the same id twice: the id tells the method and
    the value of the counter, and the counter grows by one with every
    call. *)
Theorem call_ids_unique w w' peer_address peer_address' method method'
    params params' :
  IdSeq (st (call peer_address method params w)) = IdSeq w + 1 ∧
  (method ≠ method' ∨ IdSeq w ≠ IdSeq w' →
   res (call peer_address method params w)
   ≠ res (call peer_address' method' params' w')).
Proof.
  rewrite !call_run. simpl. split; [done|]. intros Hne [= Heq].
  apply request_id_inj in Heq as [-> Heq]; [|apply pretty_Z_no_colon..].
  apply (inj pretty) in Heq. by destruct Hne.
Qed.

Ltac unfold_monad :=
  unfold within, catch, assert, when, mbind, M_bind, bind, mret, M_ret, ret,
    raise, gets, modify, emit in *.

(** ** The turns of [on_recv], by the kind of the frame *)

Lemma on_recv_turn_undecodable w s peer_address class_name text :
  on_recv_turn s (Undecodable class_name text) peer_address w =
  Out (inl Next) w
      [L_exception (Exception_during_RPC_request peer_address
                      (Exception class_name text))].
Proof. reflexivity. Qed.

Lemma on_recv_turn_not_a_dict w s peer_address v :
  (∀ kv, v ≠ JObj kv) →
  on_recv_turn s (Decoded v) peer_address w =
  Out (inl Next) w
      [L_exception (Exception_during_RPC_request peer_address
         (Exception "AttributeError"
            ("'" +:+ type_name v +:+ "' object has no attribute 'get'")))].
Proof. intros Hv. destruct v; try done. by destruct (Hv kv). Qed.

Lemma on_recv_turn_not_2_0 w s peer_address kv :
  eq_str (dict_get kv "jsonrpc" (JStr "?")) "2.0" = false →
  on_recv_turn s (Decoded (JObj kv)) peer_address w =
  Out (inl Break) w [L_error (Incorrect_RPC_message (Decoded (JObj kv)))].
Proof.
  intros Hrpc. unfold on_recv_turn, try_block.
  unfold mbind at 1. unfold M_bind at 1. unfold bind at 1. unfold catch at 1.
  rewrite !bind_within_ret, Hrpc. reflexivity.
Qed.

Lemma on_recv_turn_method w s peer_address kv :
  eq_str (dict_get kv "jsonrpc" (JStr "?")) "2.0" = true →
  is_None (dict_get kv "method" JNull) = false →
  on_recv_turn s (Decoded (JObj kv)) peer_address w =
  let o := rpc_dispatch_method peer_address (dict_get kv "method" JNull)
             (dict_get kv "params" JNull) w in
  Out (inl Next) (st o)
      match res o with
      | inl result =>
          if is_None result then []
          else [sendto s (JObj [("id", dict_get kv "id" JNull);
                                ("jsonrpc", JStr "2.0");
                                ("result", result)]) peer_address]
      | inr e =>
          match e with
          | RPCError _ => []
          | Exception _ _ =>
              [L_exception (Exception_during_RPC_request peer_address e)]
          end ++ [sendto s (error_frame kv e) peer_address]
      end.
Proof.
  intros Hrpc Hmethod. cbv zeta.
  pose proof (rpc_dispatch_method_events w peer_address
    (dict_get kv "method" JNull) (dict_get kv "params" JNull)) as Hev.
  destruct (rpc_dispatch_method _ _ _ w) as [[result|e] w' ev] eqn:Hrun;
    simpl in Hev; subst ev; simpl.
  - unfold on_recv_turn, try_block.
    unfold mbind at 1. unfold M_bind at 1. unfold bind at 1. unfold catch at 1.
    rewrite !bind_within_ret. cbv zeta. rewrite Hrpc, Hmethod. unfold_monad.
    cbv beta iota delta [negb]. rewrite Hrun. simpl.
    by destruct (is_None result).
  - rewrite (on_recv_turn_raises w s _ _ (Propagating kv) e w' []); [done|].
    unfold try_block. rewrite !bind_within_ret. cbv zeta.
    rewrite Hrpc, Hmethod. unfold_monad.
    cbv beta iota delta [negb]. by rewrite Hrun.
Qed.

Lemma on_recv_turn_result w s peer_address kv :
  eq_str (dict_get kv "jsonrpc" (JStr "?")) "2.0" = true →
  is_None (dict_get kv "method" JNull) = true →
  is_None (dict_get kv "result" JNull) = false →
  on_recv_turn s (Decoded (JObj kv)) peer_address w =
  let o := rpc_dispatch_result peer_address (dict_get kv "id" JNull)
             (dict_get kv "result" JNull) w in
  Out (inl Next) (st o)
      (evs o ++
       match res o with
       | inr (Exception class_name text) =>
           [L_exception (Exception_during_RPC_request peer_address
                           (Exception class_name text))]
       | _ => []
       end).
Proof.
  intros Hrpc Hmethod Hresult. cbv zeta.
  destruct (rpc_dispatch_result _ _ _ w) as [[[]|e] w' ev] eqn:Hrun; simpl.
  - unfold on_recv_turn, try_block.
    unfold mbind at 1. unfold M_bind at 1. unfold bind at 1. unfold catch at 1.
    rewrite !bind_within_ret. cbv zeta. rewrite Hrpc, Hmethod, Hresult.
    unfold_monad. cbv beta iota delta [negb]. rewrite Hrun. simpl.
    by rewrite !app_nil_r.
  - rewrite (on_recv_turn_raises w s _ _ Not_propagating e w' ev).
    { by destruct e; rewrite ?app_nil_r. }
    unfold try_block. rewrite !bind_within_ret. cbv zeta.
    rewrite Hrpc, Hmethod, Hresult. unfold_monad.
    cbv beta iota delta [negb]. rewrite Hrun. simpl. by rewrite app_nil_r.
Qed.

Lemma on_recv_turn_error w s peer_address kv :
  eq_str (dict_get kv "jsonrpc" (JStr "?")) "2.0" = true →
  is_None (dict_get kv "method" JNull) = true →
  is_None (dict_get kv "result" JNull) = true →
  is_None (dict_get kv "error" JNull) = false →
  on_recv_turn s (Decoded (JObj kv)) peer_address w =
  let o := rpc_dispatch_error peer_address (dict_get kv "id" JNull)
             (dict_get kv "error" JNull) w in
  Out (inl Next) (st o)
      (evs o ++
       match res o with
       | inr (Exception class_name text) =>
           [L_exception (Exception_during_RPC_request peer_address
                           (Exception class_name text))]
       | _ => []
       end).
Proof.
  intros Hrpc Hmethod Hresult Herror. cbv zeta.
  destruct (rpc_dispatch_error _ _ _ w) as [[[]|e] w' ev] eqn:Hrun; simpl.
  - unfold on_recv_turn, try_block.
    unfold mbind at 1. unfold M_bind at 1. unfold bind at 1. unfold catch at 1.
    rewrite !bind_within_ret. cbv zeta. rewrite Hrpc, Hmethod, Hresult, Herror.
    unfold_monad. cbv beta iota delta [negb]. rewrite Hrun. simpl.
    by rewrite !app_nil_r.
  - rewrite (on_recv_turn_raises w s _ _ Not_propagating e w' ev).
    { by destruct e; rewrite ?app_nil_r. }
    unfold try_block. rewrite !bind_within_ret. cbv zeta.
    rewrite Hrpc, Hmethod, Hresult, Herror. unfold_monad.
    cbv beta iota delta [negb]. rewrite Hrun. simpl. by rewrite app_nil_r.
Qed.

Lemma on_recv_turn_nothing w s peer_address kv :
  eq_str (dict_get kv "jsonrpc" (JStr "?")) "2.0" = true →
  is_None (dict_get kv "method" JNull) = true →
  is_None (dict_get kv "result" JNull) = true →
  is_None (dict_get kv "error" JNull) = true →
  on_recv_turn s (Decoded (JObj kv)) peer_address w = Out (inl Next) w [].
Proof.
  intros Hrpc Hmethod Hresult Herror.
  unfold on_recv_turn, try_block.
  unfold mbind at 1. unfold M_bind at 1. unfold bind at 1. unfold catch at 1.
  rewrite !bind_within_ret. cbv zeta. rewrite Hrpc, Hmethod, Hresult, Herror.
  unfold_monad. cbv beta iota delta [negb]. simpl. by rewrite Hresult.
Qed.

(** ** What [on_recv] does and does not do *)

Lemma sent_cons_log (m : message) (l : list event) :
  sent (L_exception m :: l) = sent l ∧ sent (L_error m :: l) = sent l.
Proof. done. Qed.

Lemma on_recv_turn_total w s request_dgram peer_address :
  ∃ c, res (on_recv_turn s request_dgram peer_address w) = inl c ∧
       (c = Break ↔ not_2_0 request_dgram = true) ∧
       (length (sent (evs (on_recv_turn s request_dgram peer_address w))) ≤ 1)%nat.
Proof.
  destruct request_dgram as [c t|v].
  { rewrite on_recv_turn_undecodable. simpl. eexists. split_and!; [done| |lia].
    split; done. }
  destruct v as [| | | | |kv];
    try (rewrite on_recv_turn_not_a_dict by done;
         eexists; split_and!; [done | by split | simpl; lia]).
  simpl not_2_0.
  destruct (eq_str (dict_get kv "jsonrpc" (JStr "?")) "2.0") eqn:Hrpc; last first.
  { rewrite on_recv_turn_not_2_0 by done. eexists. split_and!; [done..|simpl; lia]. }
  assert (Hnext : Next = Break ↔ negb true = true) by (split; done).
  destruct (is_None (dict_get kv "method" JNull)) eqn:Hmethod; last first.
  { rewrite on_recv_turn_method by done. cbv zeta. simpl.
    eexists. split_and!; [done..|].
    destruct (res _) as [result|[obj|c t]]; simpl; [|lia..].
    destruct (is_None result); simpl; lia. }
  destruct (is_None (dict_get kv "result" JNull)) eqn:Hresult; last first.
  { rewrite on_recv_turn_result by done. cbv zeta. simpl.
    eexists. split_and!; [done..|].
    rewrite sent_app, rpc_dispatch_result_sends_nothing.
    destruct (res _) as [|[|]]; simpl; lia. }
  destruct (is_None (dict_get kv "error" JNull)) eqn:Herror; last first.
  { rewrite on_recv_turn_error by done. cbv zeta. simpl.
    eexists. split_and!; [done..|].
    rewrite sent_app, rpc_dispatch_error_sends_nothing.
    destruct (res _) as [|[|]]; simpl; lia. }
  rewrite on_recv_turn_nothing by done. eexists. split_and!; [done..|simpl; lia].
Qed.

Lemma on_recv_cons w s request_dgram peer_address pending :
  on_recv s ((request_dgram, peer_address) :: pending) w =
  (c ← on_recv_turn s request_dgram peer_address;
   match c with Break => mret pending | Next => on_recv s pending end) w.
Proof. reflexivity. Qed.

(** X2. [on_recv] never raises, whatever the datagrams are and whatever the
    bound methods do; it returns the datagrams it has not received, and
    sends one datagram at most for each one it has. *)
Theorem on_recv_sends_one_reply_at_most w s pending :
  ∃ rest,
    res (on_recv s pending w) = inl rest ∧
    rest `suffix_of` pending ∧
    (length (sent (evs (on_recv s pending w))) + length rest
     ≤ length pending)%nat.
Proof.
  revert w. induction pending as [|[d p] pending IH]; intros w.
  { exists []. simpl. split_and!; [done..|lia]. }
  rewrite on_recv_cons. unfold mbind, M_bind, bind.
  destruct (on_recv_turn_total w s d p) as (c & Hres & _ & Hsent).
  destruct (on_recv_turn s d p w) as [r w1 e1]. simpl in Hres, Hsent. subst r.
  destruct c.
  - destruct (IH w1) as (rest & Hrest & Hsuffix & Hlen).
    destruct (on_recv s pending w1) as [r w2 e2]. simpl in *. subst r.
    exists rest. split_and!; [done | by apply suffix_cons_r |].
    rewrite sent_app, length_app. lia.
  - exists pending. simpl. split_and!; [done | by apply suffix_cons_r |].
    rewrite app_nil_r. lia.
Qed.

(** X3. [on_recv] stops at the first frame that is a [dict] without
    ["jsonrpc": "2.0"]: it returns, and the datagrams behind that frame
    are not received in this call.  Without such a frame it receives
    all of them. *)
Theorem on_recv_stops_at_bad_version w s pending :
  (∀ before request_dgram peer_address behind,
     pending = before ++ (request_dgram, peer_address) :: behind →
     (∀ x, x ∈ before → not_2_0 x.1 = false) →
     not_2_0 request_dgram = true →
     res (on_recv s pending w) = inl behind) ∧
  ((∀ x, x ∈ pending → not_2_0 x.1 = false) →
   res (on_recv s pending w) = inl []).
Proof.
  assert (Hall : ∀ pending w,
    (∀ x, x ∈ pending → not_2_0 x.1 = false) →
    res (on_recv s pending w) = inl []).
  { clear. intros pending. induction pending as [|[d p] pending IH];
      intros w Hok; [done|].
    rewrite on_recv_cons. unfold mbind, M_bind, bind.
    destruct (on_recv_turn_total w s d p) as (c & Hres & Hc & _).
    destruct (on_recv_turn s d p w) as [r w1 e1]. simpl in Hres. subst r.
    destruct c; last first.
    { destruct Hc as [Hc _]. specialize (Hc eq_refl).
      pose proof (Hok (d, p) ltac:(left)) as Hd. simpl in Hd. congruence. }
    specialize (IH w1 (λ x Hx, Hok x (list_elem_of_further _ _ _ Hx))).
    by destruct (on_recv s pending w1) as [r w2 e2]; simpl in *; subst. }
  split; [|by apply Hall].
  intros before. revert w pending.
  induction before as [|[d' p'] before IH];
    intros w pending d p behind -> Hbefore Hbad;
    rewrite ?app_nil_l, <-?app_comm_cons.
  - rewrite on_recv_cons. unfold mbind, M_bind, bind.
    destruct (on_recv_turn_total w s d p) as (c & Hres & Hc & _).
    destruct (on_recv_turn s d p w) as [r w1 e1]. simpl in Hres. subst r.
    destruct c; [|done]. destruct Hc as [_ Hc]. by specialize (Hc Hbad).
  - rewrite on_recv_cons. unfold mbind, M_bind, bind.
    destruct (on_recv_turn_total w s d' p') as (c & Hres & Hc & _).
    destruct (on_recv_turn s d' p' w) as [r w1 e1]. simpl in Hres. subst r.
    destruct c; last first.
    { destruct Hc as [Hc _]. specialize (Hc eq_refl).
      pose proof (Hbefore (d', p') ltac:(left)) as Hd. simpl in Hd. congruence. }
    specialize (IH w1 _ d p behind eq_refl
                  (λ x Hx, Hbefore x (list_elem_of_further _ _ _ Hx)) Hbad).
    by destruct (on_recv s _ w1) as [r w2 e2]; simpl in *; subst.
Qed.

(** X4. A frame with a result whose id is not that of a registered call
    changes nothing and is answered by nothing: one line is logged.  An id
    that is a list or a dict is not hashable: the [TypeError] of the
    lookup is what is logged. *)
Theorem unknown_result_is_dropped w s peer_address kv :
  eq_str (dict_get kv "jsonrpc" (JStr "?")) "2.0" = true →
  is_None (dict_get kv "method" JNull) = true →
  is_None (dict_get kv "result" JNull) = false →
  match dict_get kv "id" JNull with
  | JStr id => ACallRegister w !! id = None
  | _ => True
  end →
  on_recv_turn s (Decoded (JObj kv)) peer_address w =
  Out (inl Next) w
      [match dict_get kv "id" JNull with
       | (JList _ | JObj _) as id =>
           L_exception (Exception_during_RPC_request peer_address
             (Exception "TypeError"
                ("unhashable type: '" +:+ type_name id +:+ "'")))
       | id => L_error (Result_for_unknown_method id)
       end].
Proof.
  intros Hrpc Hmethod Hresult Hid. rewrite on_recv_turn_result by done.
  cbv zeta. destruct (dict_get kv "id" JNull) as [| | |id| |]; try done.
  by rewrite rpc_dispatch_result_unknown.
Qed.

(** X5. A request for a bound method: the method is called with the address
    of the peer and the [params] of the frame, and the state it leaves is
    kept whether it returns or raises.  A value that is not [None] is sent
    back as the result and [None] is answered by nothing; an [RPCError] is
    sent back with its [obj], and any other exception is logged and sent
    back with the code -32603. *)
Theorem bound_method_reply w s peer_address kv name (m : bound_method App) :
  eq_str (dict_get kv "jsonrpc" (JStr "?")) "2.0" = true →
  dict_get kv "method" JNull = JStr name →
  name ≠ "Ping" →
  RPCMethods w !! name = Some m →
  let called := m peer_address (dict_get kv "params" JNull) (app w) in
  on_recv_turn s (Decoded (JObj kv)) peer_address w =
  Out (inl Next) (set_app called.2 w) (reply_to s peer_address kv called.1).
Proof.
  intros Hrpc Hmethod Hname Hbound called.
  assert (Hrun : rpc_dispatch_method peer_address (JStr name)
                   (dict_get kv "params" JNull) w
                 = Out called.1 (set_app called.2 w) []).
  { unfold rpc_dispatch_method, eq_str.
    rewrite bool_decide_eq_false_2 by done.
    rewrite bind_gets. unfold lookup_key. rewrite bind_ret, Hbound.
    unfold apply_method. fold called. by destruct called. }
  rewrite on_recv_turn_method by (by rewrite ?Hmethod).
  rewrite Hmethod, Hrun. simpl.
  by destruct called as [[result|[obj|c t]] a'].
Qed.

(** X6. [bind] never replaces a method: a name keeps the method it is bound
    to, and a name that is new is bound to the first attribute that
    carries it. *)
Theorem bind_methods_first_wins w (attrs : list (string * bound_method App)) :
  res (bind_methods attrs w) = inl tt ∧
  st (bind_methods attrs w)
  = set_RPCMethods (RPCMethods w ∪ list_to_map attrs) w.
Proof.
  assert (Hrun : ∀ w, ∃ ev, bind_methods attrs w =
    Out (inl tt) (set_RPCMethods (RPCMethods w ∪ list_to_map attrs) w) ev).
  { clear w.
    induction attrs as [|[name attr] attrs IH]; intros w.
    { exists []. unfold bind_methods, for_each. simpl.
      rewrite (right_id_L ∅ (∪)). by destruct w. }
    unfold bind_methods in *. rewrite for_each_cons.
    unfold mbind at 1. unfold M_bind at 1. unfold bind at 1.
    rewrite bind_gets. simpl.
    destruct (RPCMethods w !! name) as [m'|] eqn:Hname.
    - rewrite bool_decide_eq_true_2 by done. simpl.
      destruct (IH w) as [ev ->]. eexists. do 2 f_equal.
      apply map_eq. intros i.
      rewrite !lookup_union. destruct (decide (i = name)) as [->|Hne].
      + by rewrite Hname, !union_Some_l.
      + by rewrite lookup_insert_ne.
    - rewrite bool_decide_eq_false_2 by (by intros [? ?]). simpl.
      destruct (IH (set_RPCMethods (<[name:=attr]> (RPCMethods w)) w)) as [ev ->].
      eexists. unfold set_RPCMethods. simpl.
      by rewrite <-insert_union_l, insert_union_r. }
  by destruct (Hrun w) as [ev ->].
Qed.

(** ** The life of a call *)

Lemma acall_run w peer_address method params timeout :
  let id := method +:+ ":" +:+ pretty (IdSeq w) in
  let l := fresh (dom (objects w)) in
  acall peer_address method params timeout w =
  Out (inl l)
      (set_ACallRegister (<[id := l]> (ACallRegister w))
         (set_objects
            (<[l := pending_call peer_address id
                      (Loop_time w + default 3000 timeout)]> (objects w))
            (set_IdSeq (IdSeq w + 1) w)))
      [sendto (PrimarySocket w)
         (JObj [("id", JStr id); ("jsonrpc", JStr "2.0");
                ("method", JStr method); ("params", params)])
         peer_address].
Proof. reflexivity. Qed.

Lemma fresh_loc_unused w : objects w !! fresh (dom (objects w)) = None.
Proof. apply not_elem_of_dom, is_fresh. Qed.

Lemma rpc_dispatch_error_run w peer_address id l a error :
  ACallRegister w !! id = Some l →
  objects w !! l = Some a →
  PeerAddress a = peer_address →
  Result a = Value JNull →
  Error a = JNull →
  rpc_dispatch_error peer_address (JStr id) error w =
  Out (inl tt)
      (set_objects (<[l := set_ReplyEvent (set_Error error a)]> (objects w))
         (set_ACallRegister (delete id (ACallRegister w)) w))
      [].
Proof.
  intros Hid Hl Hpeer Hresult Herror.
  unfold rpc_dispatch_error, mbind, M_bind, bind.
  rewrite (pop_or_None_hit _ _ _ Hid), send_error_run. simpl.
  rewrite (lookup_total_Some _ _ _ Hl), Hpeer, Hresult, Herror.
  rewrite bool_decide_eq_true_2 by done. simpl.
  unfold set_object, set_objects. simpl.
  by rewrite (alter_alter_Some _ _ _ _ a).
Qed.


(** X8. A call and its error.  When a frame with the id of the call and an
    error comes from the peer that was called, the caller is resumed with
    an [RPCError] made of the [code], the [message] and the [data] of the
    error; with an [AttributeError] if the error is not a [dict]. *)
Theorem acall_error_round_trip w peer_address method params timeout s kv :
  let id := method +:+ ":" +:+ pretty (IdSeq w) in
  let called := acall peer_address method params timeout w in
  let received := on_recv_turn s (Decoded (JObj kv)) peer_address (st called) in
  eq_str (dict_get kv "jsonrpc" (JStr "?")) "2.0" = true →
  is_None (dict_get kv "method" JNull) = true →
  dict_get kv "id" JNull = JStr id →
  is_None (dict_get kv "result" JNull) = true →
  is_None (dict_get kv "error" JNull) = false →
  ∃ l, res called = inl l ∧
       res received = inl Next ∧
       evs received = [] ∧
       wait (objects (st received) !!! l)
         = Some (inr (raised_for (dict_get kv "error" JNull))) ∧
       ACallRegister (st received) = delete id (ACallRegister w).
Proof.
  intros id called received Hrpc Hmethod Hid Hresult Herror.
  exists (fresh (dom (objects w))). subst received called.
  rewrite acall_run. cbv zeta. fold id. simpl.
  set (l := fresh (dom (objects w))).
  set (a := pending_call peer_address id (Loop_time w + default 3000 timeout)).
  rewrite on_recv_turn_error by done. rewrite Hid.
  rewrite (rpc_dispatch_error_run _ peer_address id l a);
    [|simpl; by rewrite ?lookup_insert_eq..].
  simpl. rewrite !lookup_total_insert_eq.
  split_and!; try done.
  - unfold wait. simpl. rewrite Herror. simpl.
    by destruct (dict_get kv "error" JNull).
  - by rewrite delete_insert_eq.
Qed.

(** X9. A result that arrives twice.  The first frame completes the call;
    the second finds no call under its id: it is logged as unknown, and
    the result the caller is resumed with is that of the first. *)
Theorem duplicate_result_is_dropped w s peer_address id l a kv kv' :
  ACallRegister w !! id = Some l →
  objects w !! l = Some a →
  PeerAddress a = peer_address →
  Result a = Value JNull →
  Error a = JNull →
  eq_str (dict_get kv "jsonrpc" (JStr "?")) "2.0" = true →
  is_None (dict_get kv "method" JNull) = true →
  dict_get kv "id" JNull = JStr id →
  is_None (dict_get kv "result" JNull) = false →
  eq_str (dict_get kv' "jsonrpc" (JStr "?")) "2.0" = true →
  is_None (dict_get kv' "method" JNull) = true →
  dict_get kv' "id" JNull = JStr id →
  is_None (dict_get kv' "result" JNull) = false →
  let first := on_recv_turn s (Decoded (JObj kv)) peer_address w in
  let second := on_recv_turn s (Decoded (JObj kv')) peer_address (st first) in
  wait (objects (st first) !!! l) = Some (inl (dict_get kv "result" JNull)) ∧
  st second = st first ∧
  evs second = [L_error (Result_for_unknown_method (JStr id))].
Proof.
  intros Hid Hl Hpeer Hresult Herror Hrpc Hmethod Hkv Hres Hrpc' Hmethod' Hkv' Hres'.
  intros first second. subst second first.
  rewrite (on_recv_turn_result w) by done. rewrite Hkv.
  rewrite (rpc_dispatch_result_run _ _ _ _ _ _ Hid Hl Hpeer Hresult Herror).
  simpl. rewrite lookup_total_insert_eq.
  rewrite on_recv_turn_result by done. rewrite Hkv'. cbv zeta.
  rewrite rpc_dispatch_result_unknown by (simpl; apply lookup_delete_eq).
  split_and!; try done.
  unfold wait. simpl. by rewrite Herror.
Qed.

(** ** The register and the heap *)

Global Instance register_shrinks_preorder : PreOrder (@register_shrinks App).
Proof.
  split.
  - intros w. split; [done|]. intros l a Hl. by exists a.
  - intros w1 w2 w3 [Hreg12 Hobj12] [Hreg23 Hobj23]. split.
    + intros id l Hl. by apply Hreg12, Hreg23.
    + intros l a Hl. destruct (Hobj12 _ _ Hl) as (a' & Hl' & <-).
      destruct (Hobj23 _ _ Hl') as (a'' & Hl'' & <-). by exists a''.
Qed.

Lemma register_wf_shrinks w w' :
  register_shrinks w w' → register_wf w → register_wf w'.
Proof.
  intros [Hreg Hobj] Hwf id l Hid.
  destruct (Hwf id l (Hreg _ _ Hid)) as (a & Hl & <-).
  by apply Hobj.
Qed.

Lemma register_shrinks_set_object l (f : ACall → ACall) w :
  (∀ a, RequestId (f a) = RequestId a) →
  register_shrinks w (set_object l f w).
Proof.
  intros Hf. split; [done|]. intros l' a Hl'. simpl.
  destruct (decide (l = l')) as [<-|Hne].
  - exists (f a). by rewrite lookup_alter_eq, Hl'.
  - exists a. by rewrite lookup_alter_ne.
Qed.

Lemma register_shrinks_delete id w :
  register_shrinks w (set_ACallRegister (delete id (ACallRegister w)) w).
Proof.
  split; [|intros l a Hl; by exists a].
  intros id' l. simpl. rewrite lookup_delete_Some. by intros [_ ?].
Qed.

Lemma register_shrinks_set_app (x : App) w : register_shrinks w (set_app x w).
Proof. split; [done|]. intros l a Hl. by exists a. Qed.

Lemma preserves_catch {St Ev Ex Ex' A} (rel : relation St) `{!PreOrder rel}
    (m : M St Ev Ex A) (h : Ex → M St Ev Ex' A) :
  preserves rel m → (∀ e, preserves rel (h e)) → preserves rel (catch m h).
Proof.
  intros Hm Hh s. unfold catch. specialize (Hm s).
  destruct (m s) as [[a|e] s1 e1]; simpl in *; [done|].
  specialize (Hh e s1). destruct (h e s1) as [r s2 e2]. simpl in *.
  by etrans.
Qed.

Create HintDb rpc_preserve.

Local Hint Resolve register_shrinks_set_app : rpc_preserve.

Local Hint Extern 1 (register_shrinks _ (set_object _ _ _)) =>
  apply register_shrinks_set_object; intros []; reflexivity : rpc_preserve.

Ltac rpc_preserve :=
  repeat first
    [ solve [auto with rpc_preserve]
    | apply preserves_ret | apply preserves_raise | apply preserves_gets
    | apply preserves_emit | apply preserves_assert
    | apply preserves_when | apply preserves_for_each
    | apply preserves_for_else | apply preserves_catch
    | apply preserves_bind
    | apply preserves_modify
    | match goal with
      | |- PreOrder _ => apply _
      | |- ∀ _, _ => intros ?
      | |- preserves _ (match ?x with _ => _ end) => destruct x
      end ].

Lemma pop_or_None_shrinks result_id :
  preserves (@register_shrinks App) (pop_or_None result_id).
Proof.
  intros w. destruct result_id as [| | |id| |]; try reflexivity.
  destruct (ACallRegister w !! id) as [l|] eqn:Hid.
  - rewrite (pop_or_None_hit _ _ _ Hid). apply register_shrinks_delete.
  - by rewrite (pop_or_None_miss _ _ Hid).
Qed.

Lemma pop_run w id l :
  ACallRegister w !! id = Some l →
  pop id w = Out (inl l) (set_ACallRegister (delete id (ACallRegister w)) w) [].
Proof. intros H. unfold pop. rewrite bind_gets, H. by rewrite bind_modify. Qed.

Lemma pop_shrinks id : preserves (@register_shrinks App) (pop id).
Proof.
  intros w. destruct (ACallRegister w !! id) as [l|] eqn:Hid.
  - rewrite (pop_run _ _ _ Hid). apply register_shrinks_delete.
  - unfold pop. by rewrite bind_gets, Hid.
Qed.

Local Hint Resolve pop_or_None_shrinks pop_shrinks : rpc_preserve.

Lemma send_shrinks l peer_address result :
  preserves (@register_shrinks App) (send l peer_address result).
Proof. unfold send, object. rpc_preserve. Qed.

Lemma send_error_shrinks l peer_address error :
  preserves (@register_shrinks App) (send_error l peer_address error).
Proof. unfold send_error, object. rpc_preserve. Qed.

Lemma cancel_shrinks l : preserves (@register_shrinks App) (cancel l).
Proof. unfold cancel, object. rpc_preserve. Qed.

Lemma timeout_shrinks l : preserves (@register_shrinks App) (RPC.timeout l).
Proof. unfold RPC.timeout, object. rpc_preserve. Qed.

Local Hint Resolve send_shrinks send_error_shrinks cancel_shrinks
  timeout_shrinks : rpc_preserve.

Lemma rpc_dispatch_method_shrinks peer_address method params :
  preserves (@register_shrinks App)
    (rpc_dispatch_method peer_address method params).
Proof.
  intros w. unfold rpc_dispatch_method.
  destruct (eq_str method "Ping"); [by destruct (is_None params)|].
  rewrite bind_gets. unfold lookup_key, apply_method.
  destruct method as [| | |name| |]; try (rewrite bind_ret); try reflexivity.
  destruct (RPCMethods w !! name) as [m|]; [|reflexivity].
  destruct (m peer_address params (app w)). simpl.
  apply register_shrinks_set_app.
Qed.

Lemma rpc_dispatch_result_shrinks peer_address result_id result :
  preserves (@register_shrinks App)
    (rpc_dispatch_result peer_address result_id result).
Proof. unfold rpc_dispatch_result. rpc_preserve. Qed.

Lemma rpc_dispatch_error_shrinks peer_address result_id error :
  preserves (@register_shrinks App)
    (rpc_dispatch_error peer_address result_id error).
Proof. unfold rpc_dispatch_error. rpc_preserve. Qed.

Local Hint Resolve rpc_dispatch_method_shrinks rpc_dispatch_result_shrinks
  rpc_dispatch_error_shrinks : rpc_preserve.

Lemma on_recv_turn_shrinks s request_dgram peer_address :
  preserves (@register_shrinks App) (on_recv_turn s request_dgram peer_address).
Proof.
  unfold on_recv_turn, try_block, except_, within. rpc_preserve.
Qed.

Lemma on_recv_shrinks s pending :
  preserves (@register_shrinks App) (on_recv s pending).
Proof.
  induction pending as [|[d p] pending IH]; simpl; [apply preserves_ret, _|].
  apply preserves_bind; [apply _ | apply on_recv_turn_shrinks |].
  intros [|]; [done | apply preserves_ret, _].
Qed.

Lemma finalize_shrinks : preserves (@register_shrinks App) finalize.
Proof. unfold finalize. rpc_preserve. Qed.

Lemma _on_tick_shrinks : preserves (@register_shrinks App) _on_tick.
Proof. unfold _on_tick. rpc_preserve. Qed.

Lemma acall_register_wf w peer_address method params timeout :
  register_wf w →
  register_wf (st (acall peer_address method params timeout w)).
Proof.
  intros Hwf. rewrite acall_run. cbv zeta. simpl. intros id l. simpl.
  destruct (decide (method +:+ ":" +:+ pretty (IdSeq w) = id)) as [<-|Hne].
  - rewrite lookup_insert_eq. intros [= <-]. eexists.
    by rewrite lookup_insert_eq.
  - rewrite lookup_insert_ne by done. intros Hid.
    destruct (Hwf _ _ Hid) as (a & Hl & <-). exists a. split; [|done].
    rewrite lookup_insert_ne; [done|]. intros <-.
    by rewrite fresh_loc_unused in Hl.
Qed.

(** X10. Every call of the register is an object of the heap, registered
    under its own [RequestId]: this holds of the empty register, and
    [acall], the turns of [on_recv], [on_recv], [_on_tick] and [finalize]
    keep it. *)
Theorem register_wf_invariant w :
  (ACallRegister w = ∅ → register_wf w) ∧
  (register_wf w →
   (∀ peer_address method params timeout,
      register_wf (st (acall peer_address method params timeout w))) ∧
   (∀ s request_dgram peer_address,
      register_wf (st (on_recv_turn s request_dgram peer_address w))) ∧
   (∀ s pending, register_wf (st (on_recv s pending w))) ∧
   register_wf (st (_on_tick w)) ∧
   register_wf (st (finalize w))).
Proof.
  split.
  { intros Hempty id l. by rewrite Hempty, lookup_empty. }
  intros Hwf. split_and!.
  - intros. by apply acall_register_wf.
  - intros. eapply register_wf_shrinks; [apply on_recv_turn_shrinks | done].
  - intros. eapply register_wf_shrinks; [apply on_recv_shrinks | done].
  - eapply register_wf_shrinks; [apply _on_tick_shrinks | done].
  - eapply register_wf_shrinks; [apply finalize_shrinks | done].
Qed.

(** ** The reaper *)

Lemma timeout_run w l :
  RPC.timeout l w
  = Out (inl tt) (set_objects (alter timed_out l (objects w)) w) [].
Proof.
  unfold RPC.timeout, object. rewrite bind_gets.
  destruct (objects w !! l) as [a|] eqn:Hl.
  - rewrite (lookup_total_Some _ _ _ Hl), (alter_Some _ _ _ a) by done.
    unfold timed_out. destruct (ReplyEvent a) eqn:Hset; simpl.
    + by rewrite insert_id, set_objects_id.
    + rewrite bind_modify. unfold modify, set_object, set_objects. simpl.
      by rewrite (alter_alter_Some _ _ _ _ a).
  - rewrite lookup_total_alt, Hl. simpl. rewrite bind_modify.
    unfold modify, set_object, set_objects. simpl.
    by rewrite !alter_None; rewrite ?alter_None.
Qed.

Lemma reap_run (K : list (string * loc)) w :
  NoDup K.*1 →
  (∀ id l, (id, l) ∈ K → ACallRegister w !! id = Some l) →
  for_each K.*1 (λ request_id, acall ← pop request_id; RPC.timeout acall) w =
  Out (inl tt)
      (set_objects (foldl (λ h kl, alter timed_out kl.2 h) (objects w) K)
         (set_ACallRegister
            (foldl (λ r kl, delete kl.1 r) (ACallRegister w) K) w))
      [].
Proof.
  revert w. induction K as [|[id l] K IH]; intros w Hdup Hreg.
  { simpl. by destruct w. }
  apply NoDup_cons in Hdup as [Hid Hdup].
  cbn [fmap list_fmap fst]. rewrite for_each_cons.
  unfold mbind, M_bind, bind.
  rewrite (pop_run w id l) by (apply Hreg; left). simpl.
  rewrite timeout_run. simpl. rewrite IH; [done | done |].
  intros id' l' Hin. simpl. rewrite lookup_delete_ne.
  - apply Hreg. by right.
  - intros <-. apply Hid. apply list_elem_of_fmap. by exists (id, l').
Qed.

Lemma foldl_delete_lookup (K : list (string * loc)) (r : gmap string loc) id :
  foldl (λ r kl, delete kl.1 r) r K !! id =
  if bool_decide (id ∈ K.*1) then None else r !! id.
Proof.
  revert r. induction K as [|[id' l'] K IH]; intros r; cbn [foldl].
  - rewrite bool_decide_eq_false_2; [done | apply not_elem_of_nil].
  - rewrite IH. cbn [fmap list_fmap fst]. simpl.
    destruct (decide (id ∈ K.*1)) as [Hin|Hnin].
    + rewrite !bool_decide_eq_true_2; [done | by right | done].
    + rewrite (bool_decide_eq_false_2 (id ∈ K.*1)) by done.
      destruct (decide (id' = id)) as [->|Hne].
      * rewrite bool_decide_eq_true_2 by left. apply lookup_delete_eq.
      * rewrite bool_decide_eq_false_2.
        { by apply lookup_delete_ne. }
        intros [?|?]%elem_of_cons; [congruence | done].
Qed.

Lemma timed_out_idemp a : timed_out (timed_out a) = timed_out a.
Proof. unfold timed_out. by destruct (ReplyEvent a) eqn:H; simpl; rewrite ?H. Qed.

Lemma foldl_alter_timed_out (K : list (string * loc)) (h : gmap loc ACall) l :
  foldl (λ h kl, alter timed_out kl.2 h) h K !! l =
  if bool_decide (l ∈ K.*2) then timed_out <$> h !! l else h !! l.
Proof.
  revert h. induction K as [|[id' l'] K IH]; intros h; cbn [foldl].
  - rewrite bool_decide_eq_false_2; [done | apply not_elem_of_nil].
  - rewrite IH, lookup_alter. cbn [fmap list_fmap snd]. simpl.
    destruct (decide (l' = l)) as [->|Hne].
    + rewrite (bool_decide_eq_true_2 (l ∈ l :: K.*2)) by left.
      destruct (bool_decide (l ∈ K.*2)); [|done].
      destruct (h !! l); simpl; [|done]. by rewrite timed_out_idemp.
    + destruct (decide (l ∈ K.*2)) as [Hin|Hnin].
      * rewrite !bool_decide_eq_true_2; [done | by right | done].
      * rewrite !bool_decide_eq_false_2; [done | | done].
        intros [?|?]%elem_of_cons; [congruence | done].
Qed.

Lemma filtered_acalls_ids (heap : gmap loc ACall) (P : loc → Prop)
    `{!∀ l, Decision (P l)} (L : list (string * loc)) :
  (∀ id l, (id, l) ∈ L → RequestId (heap !!! l) = id) →
  (λ l, RequestId (heap !!! l)) <$> filter P L.*2
  = (filter (λ kl, P kl.2) L).*1.
Proof.
  induction L as [|[id l] L IH]; intros Hids; [done|].
  cbn [fmap list_fmap snd]. rewrite !filter_cons. simpl.
  destruct (decide (P l)); simpl.
  - f_equal; [apply Hids; left|].
    apply IH. intros ???. apply Hids. by right.
  - apply IH. intros ???. apply Hids. by right.
Qed.

(** X11. [_on_tick] under the invariant of the register: it never raises (no
    [pop] misses its key) and sends nothing.  A call whose deadline has
    passed is out of the register, and its caller, if it was still
    waiting, is resumed with [TimeoutError]; every other call is where it
    was.  A warning is logged when more than 30 calls remain. *)
Theorem on_tick_reaps_expired_calls w :
  register_wf w →
  let o := _on_tick w in
  res o = inl tt ∧
  sent (evs o) = [] ∧
  (∀ id l a,
     ACallRegister w !! id = Some l → objects w !! l = Some a →
     if bool_decide (TimeoutAt a ≤ Loop_time w) then
       ACallRegister (st o) !! id = None ∧
       objects (st o) !! l = Some (timed_out a) ∧
       (ReplyEvent a = false → Error a = JNull →
        wait (timed_out a) = Some (inr (Exception "TimeoutError" EmptyString)))
     else
       ACallRegister (st o) !! id = Some l ∧
       objects (st o) !! l = Some a) ∧
  evs o = if bool_decide (30 < size (ACallRegister (st o)))%nat
          then [L_warn (Too_high_number_of_acalls
                          (size (ACallRegister (st o))))]
          else [].
Proof.
  intros Hwf o.
  set (expired := λ l, TimeoutAt (objects w !!! l) ≤ Loop_time w).
  set (K := filter (λ kl : string * loc, expired kl.2)
                   (map_to_list (ACallRegister w))).
  assert (HK : ∀ id l, (id, l) ∈ K ↔
                       ACallRegister w !! id = Some l ∧ expired l).
  { intros id l. unfold K. rewrite list_elem_of_filter, elem_of_map_to_list.
    simpl. tauto. }
  assert (Hdup : NoDup K.*1).
  { unfold K. apply (NoDup_fmap_fst _).
    - intros id l1 l2 [H1 _]%HK [H2 _]%HK. congruence.
    - apply NoDup_filter, NoDup_map_to_list. }
  assert (Hrun : o = Out (inl tt)
    (set_objects (foldl (λ h kl, alter timed_out kl.2 h) (objects w) K)
       (set_ACallRegister
          (foldl (λ r kl, delete kl.1 r) (ACallRegister w) K) w))
    (if bool_decide (30 < size (foldl (λ r kl, delete kl.1 r)
                                   (ACallRegister w) K))%nat
     then [L_warn (Too_high_number_of_acalls
             (size (foldl (λ r kl, delete kl.1 r) (ACallRegister w) K)))]
     else [])).
  { subst o. unfold _on_tick. rewrite !bind_gets.
    rewrite (filtered_acalls_ids (objects w) expired); last first.
    { intros id l Hin%elem_of_map_to_list.
      destruct (Hwf _ _ Hin) as (a & Hl & <-).
      by rewrite (lookup_total_Some _ _ _ Hl). }
    fold K. unfold mbind at 1. unfold M_bind at 1. unfold bind at 1.
    rewrite reap_run; [|done|by intros id l [? _]%HK].
    rewrite bind_gets. simpl. by case_bool_decide. }
  rewrite Hrun. simpl. split_and!; [done | by case_bool_decide | | done].
  intros id l a Hid Hl.
  rewrite foldl_delete_lookup, foldl_alter_timed_out, Hid, Hl. simpl.
  assert (Hexp : expired l ↔ TimeoutAt a ≤ Loop_time w).
  { unfold expired. by rewrite (lookup_total_Some _ _ _ Hl). }
  destruct (decide (TimeoutAt a ≤ Loop_time w)) as [Hlate|Hlate];
    [rewrite (bool_decide_eq_true_2 _ Hlate)
    |rewrite (bool_decide_eq_false_2 _ Hlate)].
  - assert (Hin : (id, l) ∈ K) by (apply HK; split; [done | by apply Hexp]).
    rewrite !bool_decide_eq_true_2.
    + split_and!; [done..|]. intros Hpending Herror.
      unfold timed_out, wait. rewrite Hpending. simpl. by rewrite Herror.
    + apply list_elem_of_fmap. by exists (id, l).
    + apply list_elem_of_fmap. by exists (id, l).
  - rewrite !bool_decide_eq_false_2; [done | |].
    + intros ([id' l'] & Heq & [_ Hl']%HK)%list_elem_of_fmap.
      simpl in Heq, Hl'. subst l'. by apply Hlate, Hexp.
    + intros ([id' l'] & Heq & [Hid' Hl']%HK)%list_elem_of_fmap.
      simpl in Heq, Hid', Hl'. subst id'.
      rewrite Hid in Hid'. injection Hid' as <-. by apply Hlate, Hexp.
Qed.

End App.

(** ** The theorems at work on the runtime with one bound method *)

Lemma call_ids_unique_witness :
  res (call peer_B "RequestVote" JNull rpc0)
  ≠ res (call peer_B "RequestVote" JNull rpc1).
Proof.
  apply (proj2 (call_ids_unique rpc0 rpc1 peer_B peer_B
                  "RequestVote" "RequestVote" JNull JNull)).
  right. discriminate.
Defined.

Lemma on_recv_stops_at_bad_version_witness :
  res (on_recv 3%nat [(Decoded (JObj Nope), peer_B);
                      (Decoded (JObj old_version), peer_B);
                      (Decoded (JObj ask_vote), peer_B)] rpc0)
  = inl [(Decoded (JObj ask_vote), peer_B)].
Proof.
  apply (proj1 (on_recv_stops_at_bad_version rpc0 3%nat _)
           [(Decoded (JObj Nope), peer_B)] (Decoded (JObj old_version)) peer_B
           [(Decoded (JObj ask_vote), peer_B)]).
  - reflexivity.
  - intros x Hx. apply list_elem_of_singleton in Hx as ->. reflexivity.
  - reflexivity.
Defined.

Lemma unknown_result_is_dropped_witness :
  on_recv_turn 3%nat (Decoded (JObj late_vote)) peer_B rpc0 =
  Out (inl Next) rpc0 [L_error (Result_for_unknown_method (JStr "RequestVote:1"))].
Proof.
  apply (unknown_result_is_dropped rpc0 3%nat peer_B late_vote); reflexivity.
Defined.

Lemma bound_method_reply_witness :
  on_recv_turn 3%nat (Decoded (JObj ask_vote)) peer_B rpc0 =
  Out (inl Next) (set_app 1%nat rpc0)
      [sendto 3%nat (JObj [("id", JNum 8); ("jsonrpc", JStr "2.0");
                           ("result", JStr "ok")]) peer_B].
Proof.
  apply (bound_method_reply rpc0 3%nat peer_B ask_vote "RequestVote" counting);
    [reflexivity | reflexivity | discriminate | reflexivity].
Defined.


Lemma acall_error_round_trip_witness :
  ∃ l, res (acall peer_B "RequestVote" JNull None rpc0) = inl l ∧
       wait (objects (st (on_recv_turn 3%nat (Decoded (JObj late_error))
                            peer_B rpc1)) !!! l)
       = Some (inr (RPCError (JObj [("code", JNum (-32603));
                                    ("message", JStr "KeyError:'term'")]))).
Proof.
  destruct (acall_error_round_trip rpc0 peer_B "RequestVote" JNull None 3%nat
              late_error eq_refl eq_refl eq_refl eq_refl eq_refl)
    as (l & Hl & _ & _ & Hwait & _).
  exists l. split; [exact Hl | exact Hwait].
Defined.

Lemma duplicate_result_is_dropped_witness :
  st (on_recv_turn 3%nat (Decoded (JObj late_vote)) peer_B
        (st (on_recv_turn 3%nat (Decoded (JObj late_vote)) peer_B rpc1)))
  = st (on_recv_turn 3%nat (Decoded (JObj late_vote)) peer_B rpc1).
Proof.
  apply (duplicate_result_is_dropped rpc1 3%nat peer_B "RequestVote:1" 0%nat
           call1 late_vote late_vote); reflexivity.
Defined.

Lemma register_wf_invariant_witness :
  register_wf rpc0 ∧ register_wf rpc1.
Proof.
  assert (H0 : register_wf rpc0)
    by (apply (proj1 (register_wf_invariant rpc0)); reflexivity).
  split; [exact H0|].
  apply (proj1 (proj2 (register_wf_invariant rpc0) H0)).
Defined.

Lemma on_tick_reaps_expired_calls_witness :
  register_wf (rpc1_at 3000) ∧
  res (_on_tick (rpc1_at 3000)) = inl tt ∧
  ACallRegister (st (_on_tick (rpc1_at 3000))) !! "RequestVote:1" = None ∧
  objects (st (_on_tick (rpc1_at 3000))) !! 0%nat = Some (timed_out call1) ∧
  wait (timed_out call1) = Some (inr (Exception "TimeoutError" EmptyString)).
Proof.
  assert (Hwf : register_wf (rpc1_at 3000)).
  { change (register_wf rpc1). apply acall_register_wf.
    intros id l Hl. change (ACallRegister rpc0) with (∅ : gmap string loc) in Hl.
    by rewrite lookup_empty in Hl. }
  split; [exact Hwf|].
  destruct (on_tick_reaps_expired_calls (rpc1_at 3000) Hwf)
    as (Hres & _ & Hcalls & _).
  split; [exact Hres|].
  specialize (Hcalls "RequestVote:1" 0%nat call1 eq_refl eq_refl).
  rewrite bool_decide_eq_true_2 in Hcalls by (simpl; lia).
  destruct Hcalls as (Hreg & Hobj & Hwait).
  split_and!; [exact Hreg | exact Hobj | by apply Hwait].
Defined.

End RPC_more.

(** * More about the role machine *)

Module Raft_more.
Import Raft Raft_facts.

Implicit Types (s : RaftService) (p : Peer) (peers : list Peer).

(** ** Loops over the peers *)

Lemma bind_run {St Ev Ex A B} (m : M St Ev Ex A) (k : A → M St Ev Ex B)
    (s s' : St) a ev :
  m s = Out (inl a) s' ev →
  (m ≫= k) s = Out (res (k a s')) (st (k a s')) (ev ++ evs (k a s')).
Proof.
  intros Hm. unfold mbind, M_bind, bind. rewrite Hm. by destruct (k a s').
Qed.

Lemma bind_assert_true {St Ev Ex B} (x : Ex) (k : unit → M St Ev Ex B)
    (s0 : St) :
  (assert true x ≫= k) s0 = k tt s0.
Proof. cbv. by destruct (k tt s0). Qed.

Lemma bind_then {St Ev Ex A B} (m : M St Ev Ex A) (k : A → M St Ev Ex B)
    (s0 s1 s2 : St) a ev ev' r :
  m s0 = Out (inl a) s1 ev → k a s1 = Out r s2 ev' →
  (m ≫= k) s0 = Out r s2 (ev ++ ev').
Proof. intros Hm Hk. unfold mbind, M_bind, bind. by rewrite Hm, Hk. Qed.

Lemma alter_at {A} (f g : A → A) (l : list A) i x :
  l !! i = Some x → f x = g x → alter f i l = alter g i l.
Proof.
  revert i. induction l as [|y l IH]; intros [|i] Hi Hfg; simplify_eq/=;
    [by rewrite Hfg | f_equal; by apply IH].
Qed.

Lemma set_peer_at (f g : Peer → Peer) i s p :
  Peers s !! i = Some p → f p = g p → set_peer i f s = set_peer i g s.
Proof. intros Hi Hfg. unfold set_peer. by rewrite (alter_at f g _ _ p). Qed.

Lemma set_peer_id i s : set_peer i id s = s.
Proof. destruct s. unfold set_peer. simpl. by rewrite list_alter_id. Qed.

Lemma set_Peers_id s : set_Peers (Peers s) s = s.
Proof. by destruct s. Qed.

(** A loop whose turn [i] applies [f] to the peer at [i] and emits
    [ev s p], in states of which [P] holds. *)
Lemma for_peers_run (P : RaftService → Prop) (f : Peer → Peer)
    (ev : RaftService → Peer → list event) (body : nat → R unit) s :
  (∀ i s' p, P s' → Peers s' !! i = Some p →
             body i s' = Out (inl tt) (set_peer i f s') (ev s' p)) →
  (∀ i s', P s' → P (set_peer i f s')) →
  (∀ i s' p, ev (set_peer i f s') p = ev s' p) →
  P s →
  for_peers body s =
  Out (inl tt) (set_Peers (f <$> Peers s) s) (concat (ev s <$> Peers s)).
Proof.
  intros Hbody HP Hev.
  assert (Haux : ∀ n k s, P s → (k + n = length (Peers s))%nat →
    for_each (seq k n) body s =
    Out (inl tt)
        (set_Peers (take k (Peers s) ++ (f <$> drop k (Peers s))) s)
        (concat (ev s <$> drop k (Peers s)))).
  { clear s. induction n as [|n IH]; intros k s Hs Hlen.
    { rewrite drop_ge, take_ge by lia. simpl.
      by rewrite app_nil_r, set_Peers_id. }
    assert (is_Some (Peers s !! k)) as [p Hp] by (apply lookup_lt_is_Some; lia).
    cbn [seq]. rewrite for_each_cons.
    rewrite (bind_run _ _ _ _ _ _ (Hbody k s p Hs Hp)).
    rewrite (IH (S k) (set_peer k f s)); [|by apply HP|simpl; rewrite length_alter; lia].
    simpl. rewrite (drop_S _ _ _ Hp). cbn [fmap list_fmap concat].
    rewrite drop_alter_lt by lia.
    rewrite (take_S_r _ _ (f p)) by (by rewrite list_lookup_alter_eq, Hp).
    rewrite take_alter_ge by lia.
    rewrite <-(assoc_L (++)). simpl.
    assert (ev (set_peer k f s) <$> drop (S k) (Peers s)
            = ev s <$> drop (S k) (Peers s)) as ->; [|done].
    apply list_fmap_ext. intros ? q _. apply Hev. }
  intros Hs. unfold for_peers. rewrite bind_gets.
  by rewrite (Haux _ 0%nat s Hs).
Qed.

Lemma concat_filter {A B} (P : A → Prop) `{!∀ x, Decision (P x)}
    (g : A → B) (l : list A) :
  concat ((λ x, if bool_decide (P x) then [g x] else []) <$> l)
  = g <$> filter P l.
Proof.
  induction l as [|x l IH]; [done|]. cbn [fmap list_fmap concat].
  rewrite filter_cons, IH. case_bool_decide.
  - by rewrite decide_True.
  - by rewrite decide_False.
Qed.

Lemma peer_at i s p : Peers s !! i = Some p → Peers s !!! i = p.
Proof. apply list_lookup_total_correct. Qed.

(** ** What the transitions compute *)

Lemma send_heartbeat_run s :
  State s = Leader →
  send_heartbeat s = Out (inl tt) s (call_each (heartbeat s) (remote (Peers s))).
Proof.
  intros Hs. unfold send_heartbeat.
  rewrite (for_peers_run (λ s', State s' = Leader) id
    (λ s' p, if bool_decide (Address p ≠ None)
             then [RPC_call (Address p) (heartbeat s')] else [])); [|..|done].
  - rewrite list_fmap_id, set_Peers_id. unfold call_each, remote.
    by rewrite concat_filter.
  - intros i s' p Hs' Hp. unfold peer. rewrite bind_gets, (peer_at _ _ _ Hp).
    rewrite set_peer_id. case_bool_decide; [|done].
    unfold when, append_entries, peer, get_currentTerm.
    rewrite bind_gets, Hs'. rewrite bool_decide_eq_true_2 by done.
    rewrite bind_assert_true, !bind_gets.
    by rewrite (peer_at _ _ _ Hp).
  - intros i s' Hs'. by rewrite set_peer_id.
  - intros i s' p. by rewrite set_peer_id.
Qed.

Lemma enter_state_leader_run s :
  enter_state_leader s =
  Out (inl tt) (set_State Leader s)
      ([Warn (Entering_leader (State s) (currentTerm (PersistentState s)));
        Timer_stop ElectionTimer; Timer_restart HeartBeatTimer]
       ++ call_each (heartbeat s) (remote (Peers s))).
Proof.
  unfold enter_state_leader, get_currentTerm.
  rewrite !bind_gets, bind_emit, bind_modify, !bind_emit.
  by rewrite send_heartbeat_run.
Qed.

Lemma tally_from peers (y n : Z) :
  fold_left (λ '(voted_yes, voted_no) p,
               if VoteGranted p then (voted_yes + 1, voted_no)
               else (voted_yes, voted_no + 1)) peers (y, n)
  = (y + Z.of_nat (granted peers),
     n + Z.of_nat (length peers - granted peers)).
Proof.
  unfold granted. revert y n. induction peers as [|p peers IH]; intros y n.
  { simpl. f_equal; lia. }
  cbn [fold_left]. rewrite filter_cons.
  pose proof (length_filter (λ p, VoteGranted p = true) peers) as Hle.
  destruct (VoteGranted p) eqn:Hp.
  - rewrite decide_True by done. rewrite IH. cbn [length]. f_equal; lia.
  - rewrite decide_False by done. rewrite IH. cbn [length]. f_equal; lia.
Qed.

Lemma tally_spec peers :
  tally peers = (Z.of_nat (granted peers),
                 Z.of_nat (length peers - granted peers)).
Proof. unfold tally. by rewrite tally_from. Qed.

Lemma granted_le peers : (granted peers ≤ length peers)%nat.
Proof. apply length_filter. Qed.

Lemma evalute_election_run s :
  evalute_election s =
  if bool_decide (State s = Candidate) then
    if bool_decide (length (Peers s) < 2 * granted (Peers s))%nat
    then enter_state_leader s
    else Out (inl tt) s []
  else Out (inr (AssertionError "evalute_election")) s [].
Proof.
  unfold evalute_election. rewrite bind_gets.
  destruct (decide (State s = Candidate)) as [Hc|Hc];
    [rewrite !(bool_decide_eq_true_2 _ Hc)
    |by rewrite !(bool_decide_eq_false_2 _ Hc)].
  rewrite bind_assert_true, bind_gets, tally_spec.
  pose proof (granted_le (Peers s)).
  destruct (decide (length (Peers s) < 2 * granted (Peers s))%nat) as [Hm|Hm].
  - rewrite (bool_decide_eq_true_2 _ Hm), bool_decide_eq_true_2 by lia. done.
  - rewrite (bool_decide_eq_false_2 _ Hm), bool_decide_eq_false_2 by lia. done.
Qed.

Lemma local_remote peers :
  (local peers + length (remote peers) = length peers)%nat.
Proof.
  unfold local, remote. induction peers as [|p peers IH]; [done|].
  rewrite !filter_cons. destruct (decide (Address p = None)).
  - rewrite decide_False by naive_solver. simpl. lia.
  - rewrite decide_True by done. simpl. lia.
Qed.

Lemma granted_reset_votes peers :
  granted (reset_votes <$> peers) = local peers.
Proof.
  unfold granted, local. induction peers as [|p peers IH]; [done|].
  cbn [fmap list_fmap]. rewrite !filter_cons. simpl.
  destruct (decide (Address p = None)) as [Hp|Hp].
  - rewrite bool_decide_eq_true_2 by done. rewrite decide_True by done.
    simpl. by rewrite IH.
  - rewrite bool_decide_eq_false_2 by done. rewrite decide_False by done.
    done.
Qed.

Lemma remote_reset_votes r peers :
  call_each r (remote (reset_votes <$> peers)) = call_each r (remote peers).
Proof.
  unfold call_each, remote. induction peers as [|p peers IH]; [done|].
  rewrite fmap_cons, !filter_cons.
  change (Address (reset_votes p)) with (Address p).
  destruct (decide (Address p ≠ None)); [|done].
  by rewrite !fmap_cons, IH.
Qed.

Lemma vote_loop_run s :
  for_peers (λ i,
    p ← peer i;
    if bool_decide (Address p ≠ None) then
      modify (set_peer i (set_VoteGranted false));;
      request_vote i
    else
      modify (set_peer i (set_VoteGranted true))) s =
  Out (inl tt) (set_Peers (reset_votes <$> Peers s) s)
      (call_each (vote_request s) (remote (Peers s))).
Proof.
  rewrite (for_peers_run (λ _, True) reset_votes
    (λ s' p, if bool_decide (Address p ≠ None)
             then [RPC_call (Address p) (vote_request s')] else []));
    [by rewrite concat_filter | | done..].
  intros i s' p _ Hp. unfold peer. rewrite bind_gets, (peer_at _ _ _ Hp).
  case_bool_decide as Haddr.
  - rewrite bind_modify. unfold request_vote, peer, get_currentTerm.
    rewrite !bind_gets. simpl.
    rewrite list_lookup_total_alter, (peer_at _ _ _ Hp).
    rewrite decide_True by (split; [done | by eapply lookup_lt_Some]).
    unfold emit. simpl.
    rewrite (set_peer_at (set_VoteGranted false) reset_votes _ _ p); [done..|].
    unfold reset_votes. by rewrite bool_decide_eq_false_2.
  - unfold modify.
    rewrite (set_peer_at (set_VoteGranted true) reset_votes _ _ p); [done..|].
    unfold reset_votes. by rewrite bool_decide_eq_true_2.
Qed.

Lemma enter_state_candidate_run s :
  let s1 := set_Peers (reset_votes <$> Peers s)
              (set_currentTerm (currentTerm (PersistentState s) + 1)
                 (set_State Candidate s)) in
  enter_state_candidate s =
  Out (inl tt)
      (if bool_decide (length (remote (Peers s)) < local (Peers s))%nat
       then set_State Leader s1 else s1)
      (Warn (Entering_candidate (State s) (currentTerm (PersistentState s) + 1))
       :: call_each (vote_request s1) (remote (Peers s))
       ++ if bool_decide (length (remote (Peers s)) < local (Peers s))%nat
          then [Warn (Entering_leader Candidate
                        (currentTerm (PersistentState s) + 1));
                Timer_stop ElectionTimer; Timer_restart HeartBeatTimer]
               ++ call_each (heartbeat s1) (remote (Peers s))
          else [Timer_restart ElectionTimer; Timer_restart HeartBeatTimer]).
Proof.
  intros s1. unfold enter_state_candidate, get_currentTerm.
  rewrite !bind_gets, bind_emit. rewrite !bind_modify.
  set (s0 := set_currentTerm _ (set_State Candidate s)).
  pose proof (local_remote (Peers s)) as Hsum.
  match goal with |- context [(for_peers ?b ≫= ?k) s0] =>
    assert (Hrest : (for_peers b ≫= k) s0 =
      Out (inl tt)
        (if bool_decide (length (remote (Peers s)) < local (Peers s))%nat
         then set_State Leader s1 else s1)
        (call_each (vote_request s1) (remote (Peers s))
         ++ if bool_decide (length (remote (Peers s)) < local (Peers s))%nat
            then [Warn (Entering_leader Candidate
                          (currentTerm (PersistentState s) + 1));
                  Timer_stop ElectionTimer; Timer_restart HeartBeatTimer]
                 ++ call_each (heartbeat s1) (remote (Peers s))
            else [Timer_restart ElectionTimer; Timer_restart HeartBeatTimer]))
  end.
  { eapply bind_then; [exact (vote_loop_run s0)|].
    change (set_Peers _ s0) with s1.
    destruct (decide (length (remote (Peers s)) < local (Peers s))%nat)
      as [Hm|Hm].
    - rewrite !(bool_decide_eq_true_2 _ Hm).
      rewrite <- (app_nil_r (_ ++ call_each (heartbeat s1) _)).
      eapply bind_then.
      { rewrite evalute_election_run, (bool_decide_eq_true_2 (_ = _)) by done.
        replace (Peers s1) with (reset_votes <$> Peers s) by done.
        rewrite length_fmap, granted_reset_votes.
        rewrite bool_decide_eq_true_2 by lia.
        rewrite enter_state_leader_run.
        replace (Peers s1) with (reset_votes <$> Peers s) by done.
        rewrite remote_reset_votes. reflexivity. }
      rewrite bind_gets. reflexivity.
    - rewrite !(bool_decide_eq_false_2 _ Hm).
      change [Timer_restart ElectionTimer; Timer_restart HeartBeatTimer]
        with ([] ++ [Timer_restart ElectionTimer; Timer_restart HeartBeatTimer]).
      eapply bind_then.
      { rewrite evalute_election_run, (bool_decide_eq_true_2 (_ = _)) by done.
        replace (Peers s1) with (reset_votes <$> Peers s) by done.
        rewrite length_fmap, granted_reset_votes.
        rewrite bool_decide_eq_false_2 by lia. reflexivity. }
      rewrite bind_gets. reflexivity. }
  by rewrite Hrest.
Qed.

Lemma resolicit_run s :
  for_peers (λ i, p ← peer i; when (negb (VoteGranted p)) (request_vote i)) s =
  Out (inl tt) s
      (call_each (vote_request s)
         (filter (λ p, VoteGranted p = false) (Peers s))).
Proof.
  rewrite (for_peers_run (λ _, True) id
    (λ s' p, if bool_decide (VoteGranted p = false)
             then [RPC_call (Address p) (vote_request s')] else []));
    [|..|done].
  - by rewrite list_fmap_id, set_Peers_id, concat_filter.
  - intros i s' p _ Hp. unfold peer. rewrite bind_gets, (peer_at _ _ _ Hp).
    rewrite set_peer_id. destruct (VoteGranted p) eqn:Hv; simpl; [done|].
    unfold request_vote, peer, get_currentTerm. rewrite !bind_gets.
    by rewrite (peer_at _ _ _ Hp).
  - done.
  - intros i s' p. by rewrite set_peer_id.
Qed.

(** X12. [_on_election_timeout]: the node starts an election and never
    raises.  It adds one to [currentTerm], grants itself the vote of every
    entry of [Peers] that stands for itself and withdraws that of every
    other entry, and sends [RequestVote], with the new term, to each of
    these, in the order of [Peers].  If the entries that stand for the
    node are more than the others it is leader at once and sends its
    first heartbeat; if not it is a candidate, with both timers
    restarted. *)
Theorem on_election_timeout_spec s :
  let o := _on_election_timeout s in
  let term := currentTerm (PersistentState s) + 1 in
  let won := bool_decide (length (remote (Peers s)) < local (Peers s))%nat in
  res o = inl tt ∧
  currentTerm (PersistentState (st o)) = term ∧
  Peers (st o) = reset_votes <$> Peers s ∧
  State (st o) = (if won then Leader else Candidate) ∧
  evs o =
    Warn (Entering_candidate (State s) term)
    :: call_each (vote_request (st o)) (remote (Peers s))
    ++ if won then
         [Warn (Entering_leader Candidate term);
          Timer_stop ElectionTimer; Timer_restart HeartBeatTimer]
         ++ call_each (heartbeat (st o)) (remote (Peers s))
       else [Timer_restart ElectionTimer; Timer_restart HeartBeatTimer].
Proof.
  intros o term won. subst o. unfold _on_election_timeout.
  rewrite enter_state_candidate_run. fold term won. cbv zeta.
  destruct won; simpl; split_and!; done.
Qed.

(** X13. [_on_heartbeat_timeout] never raises and leaves the state as it is.
    A leader sends [AppendEntries] to every entry of [Peers] with an
    address; a candidate sends [RequestVote] again to every entry whose
    vote is not granted; any other node logs a warning.  The heartbeat
    timer is started again in every case. *)
Theorem on_heartbeat_timeout_spec s :
  let o := _on_heartbeat_timeout s in
  res o = inl tt ∧
  st o = s ∧
  evs o =
    match State s with
    | Leader => call_each (heartbeat s) (remote (Peers s))
    | Candidate =>
        call_each (vote_request s)
          (filter (λ p, VoteGranted p = false) (Peers s))
    | state => [Warn (No_heartbeat_needed state)]
    end ++ [Timer_start HeartBeatTimer].
Proof.
  intros o. subst o. unfold _on_heartbeat_timeout. rewrite bind_gets.
  destruct (State s) eqn:Hs; simpl.
  - done.
  - done.
  - by erewrite bind_then by (apply resolicit_run || reflexivity).
  - by erewrite bind_then by (by apply send_heartbeat_run || reflexivity).
Qed.

(** ** The handlers of the replies *)

Lemma bind_assoc_at {St Ev Ex A B C} (m : M St Ev Ex A)
    (k : A → M St Ev Ex B) (k' : B → M St Ev Ex C) (s : St) :
  ((m ≫= k) ≫= k') s = (m ≫= λ a, k a ≫= k') s.
Proof.
  unfold mbind, M_bind, bind. destruct (m s) as [[a|x] s1 e1]; [|done].
  destruct (k a s1) as [[b|x] s2 e2]; [|done].
  destruct (k' b s2) as [r s3 e3]. by rewrite app_assoc.
Qed.

Lemma break_after {St Ev Ex} (hit : M St Ev Ex unit)
    (rest : M St Ev Ex unit) (s : St) :
  bind (hit;; ret Break)
       (λ c, match c with Break => ret tt | Next => rest end) s = hit s.
Proof.
  unfold mbind, M_bind, bind, ret.
  destruct (hit s) as [[[]|x] s1 e1]; simpl; [|done].
  by rewrite !app_nil_r.
Qed.

Lemma list_find_cons_True {A} (P : A → Prop) `{!∀ x, Decision (P x)}
    (x : A) (l : list A) :
  P x → list_find P (x :: l) = Some (0%nat, x).
Proof. intros Hx. simpl. by rewrite decide_True. Qed.

Lemma list_find_cons_False {A} (P : A → Prop) `{!∀ x, Decision (P x)}
    (x : A) (l : list A) :
  ¬ P x → list_find P (x :: l) = prod_map S id <$> list_find P l.
Proof. intros Hx. simpl. by rewrite decide_False. Qed.

Lemma for_else_next {St Ev Ex A} (x : A) (l : list A)
    (body : A → M St Ev Ex ctl) (orelse : M St Ev Ex unit) (s : St) :
  body x s = Out (inl Next) s [] →
  for_else (x :: l) body orelse s = for_else l body orelse s.
Proof.
  intros Hx. simpl. unfold bind. rewrite Hx.
  by destruct (for_else l body orelse s).
Qed.

(** The loop [for peer in self.Peers: if peer.Address == peer_address:
    ...; break], with its [else:] branch. *)
Lemma find_peer_run peer_address (body : nat → R ctl) (hit : nat → R unit)
    (orelse : R unit) s :
  (∀ i p, Peers s !! i = Some p →
          body i s = if bool_decide (Address p = Some peer_address)
                     then (hit i;; ret Break) s
                     else Out (inl Next) s []) →
  for_else (seq 0 (length (Peers s))) body orelse s =
  match find_peer peer_address (Peers s) with
  | Some (i, _) => hit i s
  | None => orelse s
  end.
Proof.
  intros Hbody. unfold find_peer.
  assert (Haux : ∀ peers k,
    (∀ j p, peers !! j = Some p → Peers s !! (k + j)%nat = Some p) →
    for_else (seq k (length peers)) body orelse s =
    match list_find (λ p, Address p = Some peer_address) peers with
    | Some (i, _) => hit (k + i)%nat s
    | None => orelse s
    end).
  { induction peers as [|p peers IH]; intros k Hk; [done|].
    assert (Hk0 : Peers s !! k = Some p).
    { specialize (Hk 0%nat p eq_refl). by rewrite Nat.add_0_r in Hk. }
    pose proof (Hbody k p Hk0) as Hp.
    change (seq k (length (p :: peers))) with (k :: seq (S k) (length peers)).
    destruct (decide (Address p = Some peer_address)) as [Ha|Ha].
    - rewrite (bool_decide_eq_true_2 _ Ha) in Hp.
      rewrite list_find_cons_True by done. 
      transitivity (bind (hit k;; ret Break)
        (λ c, match c with Break => ret tt
              | Next => for_else (seq (S k) (length peers)) body orelse end) s).
      + simpl. unfold bind at 1 2. by rewrite Hp.
      + rewrite Nat.add_0_r. apply break_after.
    - rewrite (bool_decide_eq_false_2 _ Ha) in Hp.
      rewrite for_else_next by done. rewrite IH.
      + rewrite list_find_cons_False by done.
        destruct (list_find _ peers) as [[i q]|]; simpl; [|done].
        by rewrite Nat.add_succ_r.
      + intros j q Hq. rewrite Nat.add_succ_l, <- Nat.add_succ_r.
        by apply Hk. }
  apply (Haux (Peers s) 0%nat). done.
Qed.

Lemma learn_peer_id_at s i p peer_address serverId :
  Peers s !! i = Some p →
  learn_peer_id i peer_address serverId s =
  Out (inl tt) (learnt i p serverId s) (learnt_log p peer_address serverId).
Proof.
  intros Hp. rewrite (learn_peer_id_run _ _ p) by done.
  unfold learnt, learnt_log. by case_bool_decide.
Qed.

(** What [append_entries_result] computes. *)
Lemma append_entries_result_run s peer_address
    (params : AppendEntriesReply.t) :
  let serverId := AppendEntriesReply.serverId params in
  append_entries_result peer_address params s =
  match find_peer peer_address (Peers s) with
  | Some (i, p) =>
      Out (inl tt) (learnt i p serverId s) (learnt_log p peer_address serverId)
  | None => Out (inl tt) s []
  end.
Proof.
  intros serverId. unfold append_entries_result. rewrite bind_gets.
  rewrite (find_peer_run peer_address _
             (λ i, learn_peer_id i peer_address serverId)).
  - unfold find_peer.
    destruct (list_find _ (Peers s)) as [[i p]|] eqn:Hfind; [|done].
    apply list_find_Some in Hfind as (Hp & _ & _).
    by apply learn_peer_id_at.
  - intros i p Hp. unfold peer. rewrite bind_gets, (peer_at _ _ _ Hp).
    by case_bool_decide.
Qed.

Lemma learnt_peer s i p serverId :
  Peers s !! i = Some p →
  ∃ p', Peers (learnt i p serverId s) !! i = Some p' ∧
        VoteGranted p' = VoteGranted p ∧ Address p' = Address p.
Proof.
  intros Hp. unfold learnt. case_bool_decide; [|by exists p].
  exists (set_id serverId p). split; [|done]. simpl.
  by rewrite list_lookup_alter_eq, Hp.
Qed.

Lemma State_learnt s i p serverId : State (learnt i p serverId s) = State s.
Proof. unfold learnt. by case_bool_decide. Qed.

(** What [request_vote_result] computes. *)
Lemma request_vote_result_run s peer_address (params : RequestVoteReply.t) :
  let term := RequestVoteReply.term params in
  let serverId := RequestVoteReply.serverId params in
  let current := currentTerm (PersistentState s) in
  request_vote_result peer_address params s =
  if bool_decide (term < current) then Out (inl tt) s []
  else if bool_decide (term > current) then
    Out (inl tt) s [Warn (RequestVote_result_for_higher_term term current)]
  else
    match find_peer peer_address (Peers s) with
    | None =>
        Out (inl tt) s [Warn (Cannot_find_peer_entry peer_address serverId)]
    | Some (i, p) =>
        let s1 := learnt i p serverId s in
        let ev1 := learnt_log p peer_address serverId in
        if RequestVoteReply.voteGranted params then
          if VoteGranted p then
            Out (inl tt) s1
                (ev1 ++ [Warn (Peer_already_voted peer_address serverId)])
          else
            let o := evalute_election (set_peer i (set_VoteGranted true) s1) in
            Out (res o) (st o) (ev1 ++ evs o)
        else Out (inl tt) s1 ev1
    end.
Proof.
  intros term serverId current.
  unfold request_vote_result, get_currentTerm. rewrite bind_gets.
  fold term serverId current.
  case_bool_decide; [done|]. case_bool_decide; [done|]. rewrite bind_gets.
  rewrite (find_peer_run peer_address _
    (λ i, learn_peer_id i peer_address serverId;;
          when (RequestVoteReply.voteGranted params)
            (p ← peer i;
             if negb (VoteGranted p) then
               modify (set_peer i (set_VoteGranted true));;
               evalute_election
             else emit (Warn (Peer_already_voted peer_address serverId))))).
  - unfold find_peer.
    destruct (list_find _ (Peers s)) as [[i p]|] eqn:Hfind; [|done].
    apply list_find_Some in Hfind as (Hp & _ & _).
    destruct (learnt_peer s i p serverId Hp) as (p' & Hp' & Hv & _).
    unfold mbind at 1. unfold M_bind at 1. unfold bind at 1.
    rewrite (learn_peer_id_at _ _ p) by done.
    destruct (RequestVoteReply.voteGranted params); simpl;
      [|by rewrite app_nil_r].
    unfold peer. rewrite bind_gets, (peer_at _ _ _ Hp'), Hv.
    destruct (VoteGranted p); simpl; [done|].
    rewrite bind_modify. by destruct (evalute_election _).
  - intros i p Hp. unfold peer. rewrite bind_gets, (peer_at _ _ _ Hp).
    case_bool_decide; [|done]. symmetry. apply bind_assoc_at.
Qed.

Lemma granted_alter_same (g : Peer → Peer) i peers :
  (∀ p, VoteGranted (g p) = VoteGranted p) →
  granted (alter g i peers) = granted peers.
Proof.
  intros Hg. unfold granted. revert i.
  induction peers as [|q peers IH]; intros [|i]; [done..| |].
  - change (alter g 0%nat (q :: peers)) with (g q :: peers).
    rewrite !filter_cons, Hg. by destruct (decide _).
  - change (alter g (S i) (q :: peers)) with (q :: alter g i peers).
    rewrite !filter_cons. destruct (decide _); simpl; by rewrite IH.
Qed.

Lemma granted_alter_grant i peers p :
  peers !! i = Some p → VoteGranted p = false →
  granted (alter (set_VoteGranted true) i peers) = S (granted peers).
Proof.
  unfold granted. revert i.
  induction peers as [|q peers IH]; intros [|i] Hp Hv; [done..| |].
  - injection Hp as ->.
    change (alter (set_VoteGranted true) 0%nat (p :: peers))
      with (set_VoteGranted true p :: peers).
    rewrite !filter_cons.
    rewrite decide_True by done. rewrite decide_False; [done|].
    by rewrite Hv.
  - change (alter (set_VoteGranted true) (S i) (q :: peers))
      with (q :: alter (set_VoteGranted true) i peers).
    rewrite !filter_cons.
    destruct (decide _); simpl; by rewrite (IH i).
Qed.

Lemma Peers_learnt s i p serverId :
  Peers (learnt i p serverId s) =
  if bool_decide (Id p = "?") then alter (set_id serverId) i (Peers s)
  else Peers s.
Proof. unfold learnt. by case_bool_decide. Qed.

Lemma granted_learnt s i p serverId :
  granted (Peers (learnt i p serverId s)) = granted (Peers s).
Proof.
  rewrite Peers_learnt. case_bool_decide; [|done]. by apply granted_alter_same.
Qed.

Lemma length_learnt s i p serverId :
  length (Peers (learnt i p serverId s)) = length (Peers s).
Proof.
  rewrite Peers_learnt. case_bool_decide; [|done]. apply length_alter.
Qed.

(** X14. [evalute_election]: the assertion fails exactly when the node is not
    a candidate; a candidate becomes leader, through
    [enter_state_leader], exactly when more than half of the entries of
    [Peers] have their vote granted, and nothing happens if not. *)
Theorem evalute_election_majority s :
  let o := evalute_election s in
  (res o = inr (AssertionError "evalute_election") ↔ State s ≠ Candidate) ∧
  (State s ≠ Candidate → st o = s ∧ evs o = []) ∧
  (State s = Candidate →
   res o = inl tt ∧
   Peers (st o) = Peers s ∧
   PersistentState (st o) = PersistentState s ∧
   (State (st o) = Leader ↔ (length (Peers s) < 2 * granted (Peers s))%nat) ∧
   (State (st o) = Candidate ↔
      (2 * granted (Peers s) ≤ length (Peers s))%nat) ∧
   ((2 * granted (Peers s) ≤ length (Peers s))%nat → evs o = [])).
Proof.
  intros o. subst o. rewrite evalute_election_run.
  destruct (decide (State s = Candidate)) as [Hc|Hc].
  - rewrite (bool_decide_eq_true_2 _ Hc).
    destruct (decide (length (Peers s) < 2 * granted (Peers s))%nat) as [Hm|Hm].
    + rewrite (bool_decide_eq_true_2 _ Hm), enter_state_leader_run. simpl.
      naive_solver lia.
    + rewrite (bool_decide_eq_false_2 _ Hm). simpl. rewrite Hc.
      naive_solver lia.
  - rewrite (bool_decide_eq_false_2 _ Hc). simpl. naive_solver.
Qed.

(** X15. [request_vote_result]: a reply of a term other than [currentTerm] is
    ignored; one of a higher term is logged. *)
Theorem request_vote_result_of_another_term s peer_address
    (params : RequestVoteReply.t) :
  let term := RequestVoteReply.term params in
  let current := currentTerm (PersistentState s) in
  term ≠ current →
  request_vote_result peer_address params s =
  Out (inl tt) s
      (if bool_decide (current < term)
       then [Warn (RequestVote_result_for_higher_term term current)] else []).
Proof.
  intros term current Hterm. rewrite request_vote_result_run.
  fold term current.
  destruct (decide (term < current)) as [Hlt|Hlt].
  - rewrite (bool_decide_eq_true_2 _ Hlt). by rewrite bool_decide_eq_false_2 by lia.
  - rewrite (bool_decide_eq_false_2 _ Hlt).
    rewrite (bool_decide_eq_true_2 (term > current)) by lia.
    by rewrite bool_decide_eq_true_2 by lia.
Qed.

(** [request_vote_result] raises exactly when the reply is of the current
    term, grants a vote that the entry of its peer does not have yet, and
    the node is not a candidate: the assertion of [evalute_election]. *)
Lemma request_vote_result_raises_iff s peer_address
    (params : RequestVoteReply.t) x :
  res (request_vote_result peer_address params s) = inr x ↔
  x = AssertionError "evalute_election" ∧
  State s ≠ Candidate ∧
  RequestVoteReply.term params = currentTerm (PersistentState s) ∧
  RequestVoteReply.voteGranted params = true ∧
  ∃ i p, find_peer peer_address (Peers s) = Some (i, p) ∧
         VoteGranted p = false.
Proof.
  rewrite request_vote_result_run.
  case_bool_decide as Hlt; [split; [done|]; intros (_&_&?&_); lia|].
  case_bool_decide as Hgt; [split; [done|]; intros (_&_&?&_); lia|].
  destruct (find_peer _ _) as [[i p]|] eqn:Hfind;
    [|split; [done|]; by intros (_&_&_&_&?&?&?&_)].
  cbv zeta.
  destruct (RequestVoteReply.voteGranted params) eqn:Hvg;
    [|split; [done|]; by intros (_&_&_&?&_)].
  destruct (VoteGranted p) eqn:Hv.
  { split; [done|]. intros (_&_&_&_&j&q&Hq&Hvq).
    injection Hq as <- <-. congruence. }
  simpl. rewrite evalute_election_run. simpl. rewrite State_learnt.
  destruct (decide (State s = Candidate)) as [Hc|Hc].
  - rewrite (bool_decide_eq_true_2 _ Hc). split; [|by intros (_&?&_)].
    case_bool_decide; [by rewrite enter_state_leader_run|done].
  - rewrite (bool_decide_eq_false_2 _ Hc). simpl. split.
    + intros [= <-]. split_and!; [done..|lia|done|by eauto].
    + by intros (->&_).
Qed.

Lemma call_each_remote r peers :
  call_each r (remote peers) =
  (λ a, RPC_call a r) <$> filter (λ a, a ≠ None) (Address <$> peers).
Proof.
  unfold call_each, remote.
  induction peers as [|q peers IH]; [done|].
  rewrite fmap_cons, !filter_cons.
  destruct (decide (Address q ≠ None)); [|done].
  by rewrite !fmap_cons, IH.
Qed.

Lemma Address_learnt s i p serverId :
  Address <$> Peers (learnt i p serverId s) = Address <$> Peers s.
Proof.
  rewrite Peers_learnt. case_bool_decide; [|done]. by apply fmap_alter_id.
Qed.

(** X16. [request_vote_result] on a granted vote that counts: the reply is of
    the current term, comes from the address of an entry of [Peers] whose
    vote is not granted yet, and the node is a candidate.  The vote is
    added, and the node becomes leader exactly when that makes more than
    half of the entries; it then sends its first heartbeat. *)
Theorem request_vote_result_counts_the_vote s peer_address
    (params : RequestVoteReply.t) i p :
  State s = Candidate →
  RequestVoteReply.term params = currentTerm (PersistentState s) →
  RequestVoteReply.voteGranted params = true →
  find_peer peer_address (Peers s) = Some (i, p) →
  VoteGranted p = false →
  let o := request_vote_result peer_address params s in
  let won := bool_decide (length (Peers s) < 2 * S (granted (Peers s)))%nat in
  res o = inl tt ∧
  VoteGranted <$> Peers (st o) !! i = Some true ∧
  granted (Peers (st o)) = S (granted (Peers s)) ∧
  State (st o) = (if won then Leader else Candidate) ∧
  evs o =
    learnt_log p peer_address (RequestVoteReply.serverId params) ++
    if won then
      [Warn (Entering_leader Candidate (currentTerm (PersistentState s)));
       Timer_stop ElectionTimer; Timer_restart HeartBeatTimer]
      ++ call_each (heartbeat s) (remote (Peers s))
    else [].
Proof.
  intros Hc Hterm Hvg Hfind Hv o won. subst o.
  rewrite request_vote_result_run.
  rewrite !bool_decide_eq_false_2 by lia. rewrite Hfind. cbv zeta.
  rewrite Hvg, Hv.
  pose proof Hfind as Hfind'. unfold find_peer in Hfind'.
  apply list_find_Some in Hfind' as (Hp & Haddr & _).
  destruct (learnt_peer s i p (RequestVoteReply.serverId params) Hp)
    as (p' & Hp' & Hv' & Ha').
  pose proof (granted_learnt s i p (RequestVoteReply.serverId params)) as Hg1.
  pose proof (length_learnt s i p (RequestVoteReply.serverId params)) as Hl1.
  pose proof (Address_learnt s i p (RequestVoteReply.serverId params)) as Ha1.
  pose proof (State_learnt s i p (RequestVoteReply.serverId params)) as Hs1.
  assert (Hd1 : PersistentState (learnt i p (RequestVoteReply.serverId params) s)
                = PersistentState s ∧
                VolatileState (learnt i p (RequestVoteReply.serverId params) s)
                = VolatileState s ∧
                ServerId (learnt i p (RequestVoteReply.serverId params) s)
                = ServerId s).
  { unfold learnt. by case_bool_decide. }
  destruct Hd1 as (Hps & Hvs & Hid).
  set (s1 := learnt i p (RequestVoteReply.serverId params) s) in *.
  set (s2 := set_peer i (set_VoteGranted true) s1).
  assert (Hg : granted (Peers s2) = S (granted (Peers s))).
  { unfold s2. simpl. rewrite (granted_alter_grant _ _ p') by congruence.
    by rewrite Hg1. }
  assert (Hl : length (Peers s2) = length (Peers s)).
  { unfold s2. simpl. by rewrite length_alter. }
  assert (Hi : VoteGranted <$> Peers s2 !! i = Some true).
  { unfold s2. simpl. by rewrite list_lookup_alter_eq, Hp'. }
  assert (Ha : Address <$> Peers s2 = Address <$> Peers s).
  { unfold s2. simpl. by rewrite fmap_alter_id. }
  assert (Hh : heartbeat s2 = heartbeat s).
  { unfold heartbeat, s2. simpl. by rewrite Hps, Hvs, Hid. }
  rewrite evalute_election_run.
  rewrite (bool_decide_eq_true_2 (State s2 = Candidate))
    by (unfold s2; simpl; congruence).
  rewrite Hl, Hg. fold won. destruct won eqn:Hwon.
  - rewrite enter_state_leader_run.
    rewrite Hh, (call_each_remote _ (Peers s2)), Ha, <- call_each_remote.
    replace (State s2) with Candidate by (unfold s2; simpl; congruence).
    replace (PersistentState s2) with (PersistentState s) by done.
    done.
  - simpl. split_and!; [done..|congruence|done].
Qed.

(** ** What lasts for the life of a node *)

Global Instance lifetime_preorder : PreOrder lifetime.
Proof.
  split.
  - intros s. unfold lifetime. split_and!; try done.
    intros i p Hp _. by rewrite Hp.
  - intros s1 s2 s3 (Ha & Hid & Hlog & Hvs & Hvote & Hids)
      (Ha' & Hid' & Hlog' & Hvs' & Hvote' & Hids').
    unfold lifetime. split_and!; try congruence.
    + intros c Hc. by apply Hvote', Hvote.
    + intros i p Hp Hknown. specialize (Hids i p Hp Hknown).
      destruct (Peers s2 !! i) as [q|] eqn:Hq; [|done].
      injection Hids as Hq'. rewrite <- Hq'. apply Hids'; [done|congruence].
Qed.

Lemma same_data_lifetime s s' : same_data s s' → lifetime s s'.
Proof.
  intros (Hps & Hvs & Hid & Ha & Hids). unfold lifetime.
  rewrite Hps. split_and!; try done.
  intros i p Hp _.
  by rewrite <- list_lookup_fmap, Hids, list_lookup_fmap, Hp.
Qed.

Lemma lifetime_set_currentTerm t s : lifetime s (set_currentTerm t s).
Proof.
  unfold lifetime. simpl. split_and!; try done.
  intros i p Hp _. by rewrite Hp.
Qed.

Lemma lifetime_set_State r s : lifetime s (set_State r s).
Proof. apply same_data_lifetime, same_data_set_State. Qed.

Lemma lifetime_set_VoteGranted i b s :
  lifetime s (set_peer i (set_VoteGranted b) s).
Proof. apply same_data_lifetime, same_data_set_VoteGranted. Qed.

Lemma lifetime_vote c s :
  votedFor (PersistentState s) = None → lifetime s (set_votedFor (Some c) s).
Proof.
  intros Hnone. unfold lifetime. simpl. split_and!; try done.
  - intros c'. by rewrite Hnone.
  - intros i p Hp _. by rewrite Hp.
Qed.

Lemma lifetime_set_id i serverId s :
  Id (Peers s !!! i) = "?" → lifetime s (set_peer i (set_id serverId) s).
Proof.
  intros Hunknown. unfold lifetime. simpl. split_and!; try done.
  - by apply fmap_alter_id.
  - intros j p Hp Hknown.
    destruct (decide (i = j)) as [->|Hne].
    + rewrite (peer_at _ _ _ Hp) in Hunknown. done.
    + by rewrite list_lookup_alter_ne, Hp.
Qed.

Lemma learn_peer_id_lifetime i peer_address serverId :
  preserves lifetime (learn_peer_id i peer_address serverId).
Proof.
  intros s. unfold learn_peer_id, peer. rewrite bind_gets.
  case_bool_decide as Hid.
  - rewrite bind_emit. simpl. by apply lifetime_set_id.
  - unfold when. by case_bool_decide.
Qed.

Lemma append_entries_server_lifetime params :
  preserves lifetime (append_entries_server params).
Proof.
  intros s. rewrite append_entries_server_run. case_bool_decide; simpl.
  - reflexivity.
  - etrans; [apply lifetime_set_currentTerm | apply lifetime_set_State].
Qed.

Lemma request_vote_server_lifetime params :
  preserves lifetime (request_vote_server params).
Proof.
  intros s. rewrite request_vote_server_run. case_bool_decide; simpl.
  - reflexivity.
  - destruct (votedFor (PersistentState s)) eqn:Hv; simpl; [reflexivity|].
    case_bool_decide.
    + etrans; [by apply lifetime_vote | apply lifetime_set_State].
    + by apply lifetime_vote.
Qed.

Lemma append_entries_result_lifetime peer_address params :
  preserves lifetime (append_entries_result peer_address params).
Proof.
  intros s. rewrite append_entries_result_run.
  destruct (find_peer _ _) as [[i p]|] eqn:Hfind; simpl; [|reflexivity].
  apply list_find_Some in Hfind as (Hp & _ & _).
  pose proof (learn_peer_id_lifetime i peer_address
                (AppendEntriesReply.serverId params) s) as Hlearn.
  by rewrite (learn_peer_id_at _ _ p) in Hlearn.
Qed.

Lemma request_vote_result_lifetime peer_address params :
  preserves lifetime (request_vote_result peer_address params).
Proof.
  intros s. rewrite request_vote_result_run.
  case_bool_decide; [reflexivity|]. case_bool_decide; [reflexivity|].
  destruct (find_peer _ _) as [[i p]|] eqn:Hfind; simpl; [|reflexivity].
  apply list_find_Some in Hfind as (Hp & _ & _).
  pose proof (learn_peer_id_lifetime i peer_address
                (RequestVoteReply.serverId params) s) as Hlearn.
  rewrite (learn_peer_id_at _ _ p) in Hlearn by done. simpl in Hlearn.
  destruct (RequestVoteReply.voteGranted params); [|done].
  destruct (VoteGranted p); [done|]. simpl.
  etrans; [exact Hlearn|]. etrans; [apply lifetime_set_VoteGranted|].
  apply same_data_lifetime, evalute_election_same_data.
Qed.

Lemma perform_lifetime op : preserves lifetime (perform op).
Proof.
  destruct op; simpl.
  - intros s. apply same_data_lifetime, enter_state_follower_same_data.
  - intros s. unfold _on_election_timeout.
    etrans; [|apply same_data_lifetime, enter_state_candidate_same_data].
    etrans; [apply lifetime_set_State | apply lifetime_set_currentTerm].
  - intros s. apply same_data_lifetime, _on_heartbeat_timeout_same_data.
  - apply preserves_bind; [apply _ | apply append_entries_server_lifetime |].
    intros ?. apply preserves_ret. apply _.
  - apply append_entries_result_lifetime.
  - apply preserves_bind; [apply _ | apply request_vote_server_lifetime |].
    intros ?. apply preserves_ret. apply _.
  - apply request_vote_result_lifetime.
Qed.

Lemma run_preserves_lifetime ops s : lifetime s (run ops s).
Proof.
  revert s. induction ops as [|op ops IH]; intros s; simpl; [reflexivity|].
  etrans; [apply perform_lifetime | apply IH].
Qed.

(** X17. Along every execution of the role machine the peers keep their
    addresses; the log, the volatile state and the id of the node stay as
    they are; a vote, once recorded in [votedFor], is never replaced nor
    withdrawn; and the id of a peer, once it is known, is never
    replaced. *)
Theorem run_lifetime ops ops' s : lifetime (run ops s) (run (ops ++ ops') s).
Proof.
  unfold run. rewrite foldl_app.
  generalize (foldl (λ s op, st (perform op s)) s ops). clear s ops.
  induction ops' as [|op ops IH]; intros s; simpl; [reflexivity|].
  etrans; [apply perform_lifetime | apply IH].
Qed.

(** X18. A node grants its vote once in its life: when [votedFor] is set,
    [request_vote_server] refuses every request, of whatever term and
    candidate, after whatever else has happened in between. *)
Theorem votes_once_in_a_lifetime ops s c (params : RequestVoteParams.t) :
  votedFor (PersistentState s) = Some c →
  let o := request_vote_server params (run ops s) in
  res o = inl {| RequestVoteReply.term := RequestVoteParams.term params;
                 RequestVoteReply.voteGranted := false;
                 RequestVoteReply.serverId := ServerId s |} ∧
  st o = run ops s.
Proof.
  intros Hc o. subst o.
  destruct (run_preserves_lifetime ops s) as (_ & Hid & _ & _ & Hvote & _).
  specialize (Hvote c Hc).
  rewrite request_vote_server_run. rewrite Hvote, Hid.
  by case_bool_decide.
Qed.

(** ** Exceptions *)

Lemma res_then {St Ev Ex A} (m : M St Ev Ex A) (s : St) (x : Ex) :
  res ((m;; mret tt) s) = inr x ↔ res (m s) = inr x.
Proof.
  unfold mbind, M_bind, bind, mret, M_ret, ret.
  destruct (m s) as [[a|y] s1 e1]; simpl; [by split|].
  split; by intros [= ->].
Qed.

(** X19. Of all the operations of the role machine only the handler of a
    [RequestVote] reply can raise, and it does so exactly on a granted
    vote of the current term, from a peer whose vote is not counted yet,
    that reaches a node which is not a candidate. *)
Theorem perform_raises_iff op s x :
  res (perform op s) = inr x ↔
  x = AssertionError "evalute_election" ∧
  State s ≠ Candidate ∧
  ∃ peer_address (params : RequestVoteReply.t) i p,
    op = RequestVote_reply peer_address params ∧
    RequestVoteReply.term params = currentTerm (PersistentState s) ∧
    RequestVoteReply.voteGranted params = true ∧
    find_peer peer_address (Peers s) = Some (i, p) ∧
    VoteGranted p = false.
Proof.
  assert (Hno : ∀ o : out RaftService event exn unit,
    (∃ s' ev, o = Out (inl tt) s' ev) →
    (∀ peer_address params, op ≠ RequestVote_reply peer_address params) →
    res o = inr x ↔
    x = AssertionError "evalute_election" ∧
    State s ≠ Candidate ∧
    ∃ peer_address (params : RequestVoteReply.t) i p,
      op = RequestVote_reply peer_address params ∧
      RequestVoteReply.term params = currentTerm (PersistentState s) ∧
      RequestVoteReply.voteGranted params = true ∧
      find_peer peer_address (Peers s) = Some (i, p) ∧
      VoteGranted p = false).
  { intros o (s' & ev & ->) Hop. split; [done|].
    intros (_ & _ & a & params & _ & _ & Heq & _). by destruct (Hop a params). }
  destruct op.
  - apply (Hno (initialize s)); [|done]. unfold initialize, enter_state_follower.
    rewrite bind_gets, bind_emit, bind_modify, bind_emit. simpl. eauto.
  - apply (Hno (_on_election_timeout s)); [|done]. unfold _on_election_timeout.
    rewrite enter_state_candidate_run. eauto.
  - apply (Hno (_on_heartbeat_timeout s)); [|done].
    unfold _on_heartbeat_timeout. rewrite bind_gets.
    destruct (State s) eqn:Hs; simpl; [eauto..| |].
    + erewrite bind_then by (apply resolicit_run || reflexivity). eauto.
    + erewrite bind_then by (by apply send_heartbeat_run || reflexivity). eauto.
  - change (perform (AppendEntries_request params) s)
      with ((append_entries_server params;; mret tt) s).
    rewrite res_then, append_entries_server_run. cbv zeta.
    case_bool_decide; simpl; (split; [done|]);
      by intros (_ & _ & ? & ? & ? & ? & ? & _).
  - apply (Hno (append_entries_result peer_address params s)); [|done].
    rewrite append_entries_result_run.
    destruct (find_peer _ _) as [[i p]|]; eauto.
  - change (perform (RequestVote_request params) s)
      with ((request_vote_server params;; mret tt) s).
    rewrite res_then, request_vote_server_run. cbv zeta.
    case_bool_decide; [|destruct (votedFor _)]; simpl; (split; [done|]);
      by intros (_ & _ & ? & ? & ? & ? & ? & _).
  - change (perform (RequestVote_reply peer_address params) s)
      with (request_vote_result peer_address params s).
    rewrite request_vote_result_raises_iff. split.
    + intros (-> & Hs & Hterm & Hvg & i & p & Hfind & Hv).
      split_and!; [done..|]. by exists peer_address, params, i, p.
    + intros (-> & Hs & a & q & i & p & Heq & Hterm & Hvg & Hfind & Hv).
      injection Heq as <- <-. split_and!; [done..|]. by exists i, p.
Qed.

(** ** Replies that come twice *)

Lemma set_peer_same i f s p :
  Peers s !! i = Some p → f p = p → set_peer i f s = s.
Proof.
  intros Hp Hf. destruct s as [state ps vs peers sid]. unfold set_peer.
  simpl in *. f_equal. apply list_eq. intros j.
  destruct (decide (i = j)) as [->|Hne].
  - rewrite list_lookup_alter_eq, Hp. simpl. by rewrite Hf.
  - by rewrite list_lookup_alter_ne.
Qed.

Lemma find_peer_alter peer_address (g : Peer → Peer) j peers i p :
  (∀ q, Address (g q) = Address q) →
  find_peer peer_address peers = Some (i, p) →
  find_peer peer_address (alter g j peers)
  = Some (i, if bool_decide (j = i) then g p else p).
Proof.
  intros Hg Hfind. unfold find_peer in *.
  apply list_find_Some in Hfind as (Hp & Ha & Hfirst).
  apply list_find_Some. split_and!.
  - case_bool_decide as Hj.
    + subst j. by rewrite list_lookup_alter_eq, Hp.
    + by rewrite list_lookup_alter_ne.
  - case_bool_decide; by rewrite ?Hg.
  - intros k y Hy Hk. destruct (decide (j = k)) as [->|Hne].
    + rewrite list_lookup_alter_eq in Hy.
      destruct (peers !! k) as [y0|] eqn:Hy0; [|done].
      injection Hy as <-. rewrite Hg. by apply (Hfirst k).
    + rewrite list_lookup_alter_ne in Hy by done. by apply (Hfirst k).
Qed.

(** A reply that teaches nothing and brings no new vote changes
    nothing. *)
Lemma request_vote_result_settled s peer_address
    (params : RequestVoteReply.t) i p :
  find_peer peer_address (Peers s) = Some (i, p) →
  (Id p = "?" → RequestVoteReply.serverId params = "?") →
  (RequestVoteReply.voteGranted params = true → VoteGranted p = true) →
  st (request_vote_result peer_address params s) = s.
Proof.
  intros Hfind Hid Hv. rewrite request_vote_result_run.
  case_bool_decide; [done|]. case_bool_decide; [done|].
  rewrite Hfind. cbv zeta.
  assert (Hlearnt : learnt i p (RequestVoteReply.serverId params) s = s).
  { unfold learnt. case_bool_decide as Hq; [|done].
    unfold find_peer in Hfind.
    apply list_find_Some in Hfind as (Hp & _ & _).
    apply (set_peer_same _ _ _ p); [done|].
    rewrite (Hid Hq). destruct p as [a id v]. simpl in *. by subst id. }
  destruct (RequestVoteReply.voteGranted params); [|done].
  by rewrite Hv.
Qed.

(** X20. A reply delivered twice has the effect of one delivery: the second
    [request_vote_result] leaves the state the first one left as it is,
    also when the first one raised. *)
Theorem request_vote_result_idempotent s peer_address
    (params : RequestVoteReply.t) :
  let s' := st (request_vote_result peer_address params s) in
  st (request_vote_result peer_address params s') = s'.
Proof.
  intros s'. subst s'. set (serverId := RequestVoteReply.serverId params).
  rewrite (request_vote_result_run s).
  destruct (decide (RequestVoteReply.term params
                    < currentTerm (PersistentState s))) as [Hlt|Hlt].
  { rewrite (bool_decide_eq_true_2 _ Hlt). simpl.
    rewrite request_vote_result_run. by rewrite (bool_decide_eq_true_2 _ Hlt). }
  rewrite (bool_decide_eq_false_2 _ Hlt).
  destruct (decide (RequestVoteReply.term params
                    > currentTerm (PersistentState s))) as [Hgt|Hgt].
  { rewrite (bool_decide_eq_true_2 _ Hgt). simpl.
    rewrite request_vote_result_run.
    rewrite (bool_decide_eq_false_2 _ Hlt).
    by rewrite (bool_decide_eq_true_2 _ Hgt). }
  rewrite (bool_decide_eq_false_2 _ Hgt).
  destruct (find_peer peer_address (Peers s)) as [[i p]|] eqn:Hfind; simpl.
  2:{ rewrite request_vote_result_run.
      rewrite (bool_decide_eq_false_2 _ Hlt), (bool_decide_eq_false_2 _ Hgt).
      by rewrite Hfind. }
  fold serverId.
  set (p1 := if bool_decide (Id p = "?") then set_id serverId p else p).
  assert (Hfind1 : find_peer peer_address (Peers (learnt i p serverId s))
                   = Some (i, p1)).
  { rewrite Peers_learnt. unfold p1. case_bool_decide; [|done].
    rewrite (find_peer_alter _ _ _ _ i p); [|done..].
    by rewrite bool_decide_eq_true_2. }
  assert (Hid1 : Id p1 = "?" → serverId = "?").
  { unfold p1. by case_bool_decide. }
  assert (Hv1 : VoteGranted p1 = VoteGranted p).
  { unfold p1. by case_bool_decide. }
  destruct (RequestVoteReply.voteGranted params) eqn:Hvg.
  2:{ simpl. apply (request_vote_result_settled _ _ _ i p1); [done..|].
      by rewrite Hvg. }
  destruct (VoteGranted p) eqn:Hv.
  { simpl. apply (request_vote_result_settled _ _ _ i p1); [done..|].
    intros _. by rewrite Hv1. }
  simpl.
  set (s2 := set_peer i (set_VoteGranted true) (learnt i p serverId s)).
  assert (Hfind2 : find_peer peer_address (Peers s2)
                   = Some (i, set_VoteGranted true p1)).
  { unfold s2. simpl. rewrite (find_peer_alter _ _ _ _ i p1); [|done..].
    by rewrite bool_decide_eq_true_2. }
  assert (Hpeers : Peers (st (evalute_election s2)) = Peers s2).
  { rewrite evalute_election_run. case_bool_decide; [|done].
    case_bool_decide; [|done]. by rewrite enter_state_leader_run. }
  apply (request_vote_result_settled _ _ _ i (set_VoteGranted true p1));
    [by rewrite Hpeers|done..].
Qed.


(** ** The theorems at work on the cluster of three nodes *)

Lemma evalute_election_majority_witness :
  State A1 = Candidate ∧ State (st (evalute_election A1)) = Candidate.
Proof.
  split; [reflexivity|].
  destruct (evalute_election_majority A1) as (_ & _ & H).
  destruct (H eq_refl) as (_ & _ & _ & _ & Hc & _).
  apply Hc. vm_compute. lia.
Defined.

Lemma request_vote_result_of_another_term_witness :
  request_vote_result node_B (vote_of 0 "b:7000") A1 = Out (inl tt) A1 [].
Proof.
  apply (request_vote_result_of_another_term A1 node_B (vote_of 0 "b:7000")).
  discriminate.
Defined.

Lemma request_vote_result_counts_the_vote_witness :
  State A1 = Candidate ∧
  State (st (request_vote_result node_B (vote_of 1 "b:7000") A1)) = Leader.
Proof.
  split; [reflexivity|].
  apply (request_vote_result_counts_the_vote A1 node_B (vote_of 1 "b:7000")
           1%nat (new_Peer (Some node_B))); reflexivity.
Defined.

Lemma votes_once_in_a_lifetime_witness :
  votedFor (PersistentState B1) = Some "a:7000" ∧
  res (request_vote_server (RequestVote_of 7 "c:7000")
         (run [Election_timeout; Heartbeat_timeout] B1))
  = inl {| RequestVoteReply.term := 7;
           RequestVoteReply.voteGranted := false;
           RequestVoteReply.serverId := "b:7000" |}.
Proof.
  split; [reflexivity|].
  apply (votes_once_in_a_lifetime [Election_timeout; Heartbeat_timeout] B1
           "a:7000" (RequestVote_of 7 "c:7000")).
  reflexivity.
Defined.

End Raft_more.
